(** * MapsyBe: nearby places within walking distance

    A shallow embedding of the two source files of the service:
    - [src/getNearbyPoi.js]: the even-odd point-in-polygon test, the
      first-match category classifier and the lookup pipeline;
    - the express server: coordinate quantization, the two cache tiers
      (Redis, MongoDB), the hourly quota on uncached lookups, the
      [/nearby-places] route, the origin check in front of it, and the
      route of the second copy of the server that the file holds.

    Numbers.  JavaScript numbers are IEEE-754 binary64 values.  A finite
    one is modelled by the rational it denotes (type [Q], compared with
    [==]); the two zeros are identified.  Arithmetic is modelled with its
    roundings written out: every operation of the geometry code rounds
    to the nearest double, overflows to an infinity and propagates
    [NaN] ([Number], [fl]); of the quantization code, [toFixed] is
    modelled by the decimal text it writes and [parseFloat] by the
    rounding of that text to the nearest double. *)

From Stdlib Require Import QArith ZArith Lia Lqa List Bool String Arith.
From Stdlib Require Import Qabs Qround Qpower.
Import ListNotations.

Local Open Scope Q_scope.

(** ** Comparisons of rationals *)

(** [a > b] *)
Definition Qgtb (a b : Q) : bool := negb (Qle_bool a b).

(** [a < b] *)
Definition Qltb (a b : Q) : bool := negb (Qle_bool b a).

(** ** Binary64 numbers

    A finite double is [m * 2^e] with [|m| < 2^53] and
    [-1074 <= e <= 971]. *)
Definition is_double (x : Q) : Prop :=
  exists m e : Z,
    (Z.abs m < 2 ^ 53)%Z /\ (-1074 <= e <= 971)%Z /\ x == inject_Z m * 2 ^ e.

(** Largest [k] with [2^k <= q], for [0 < q]. *)
Definition Qfloor_log2 (q : Q) : Z :=
  let k := (Z.log2 (Qnum q) - Z.log2 (Zpos (Qden q)))%Z in
  if Qle_bool (2 ^ k) q then k else (k - 1)%Z.

(** Nearest integer, ties to the even one. *)
Definition round_half_even (q : Q) : Z :=
  let f := Qfloor q in
  match Qcompare (q - inject_Z f) (1 # 2) with
  | Lt => f
  | Gt => (f + 1)%Z
  | Eq => if Z.even f then f else (f + 1)%Z
  end.

(** Exponent of the unit in the last place of the doubles around [q]:
    53 significant bits, and no exponent below that of the subnormals. *)
Definition ulp_exp (q : Q) : Z :=
  Z.max (Qfloor_log2 (Qabs q) - 52) (-1074).

(** Round to nearest, ties to even, with 53 significant bits and the
    exponent bounded below only: the rounding of binary64 before its
    overflow test. *)
Definition round_double (q : Q) : Q :=
  if Qeq_bool q 0 then 0
  else let e := ulp_exp q in
       inject_Z (round_half_even (q / 2 ^ e)) * 2 ^ e.

(** A JavaScript number: a finite double, [Infinity], [-Infinity] or
    [NaN]. *)
Inductive Number : Type :=
| Finite (q : Q)
| Infinity (negative : bool)
| NaN.

(** The number delivered for the exact value [q]: the nearest double, or
    the infinity of the sign of [q] when the rounded value reaches
    [2^1024]. *)
Definition fl (q : Q) : Number :=
  let r := round_double q in
  if Qle_bool (2 ^ 1024) (Qabs r) then Infinity (Qltb q 0) else Finite r.

(** The number that a decimal text of value [q] denotes, in the source
    text or in a JSON body: a double is denoted by its own value. *)
Definition num (q : Q) : Number := fl q.

(** [a - b] *)
Definition fsub (a b : Number) : Number :=
  match a, b with
  | NaN, _ | _, NaN => NaN
  | Finite p, Finite q => fl (p - q)
  | Finite _, Infinity s => Infinity (negb s)
  | Infinity s, Finite _ => Infinity s
  | Infinity s, Infinity s' => if Bool.eqb s s' then NaN else Infinity s
  end.

(** [a + b] *)
Definition fadd (a b : Number) : Number :=
  match a, b with
  | NaN, _ | _, NaN => NaN
  | Finite p, Finite q => fl (p + q)
  | Finite _, Infinity s => Infinity s
  | Infinity s, Finite _ => Infinity s
  | Infinity s, Infinity s' => if Bool.eqb s s' then Infinity s else NaN
  end.

(** [a * b]; zero times an infinity is [NaN]. *)
Definition fmul (a b : Number) : Number :=
  match a, b with
  | NaN, _ | _, NaN => NaN
  | Finite p, Finite q => fl (p * q)
  | Finite p, Infinity s | Infinity s, Finite p =>
      if Qeq_bool p 0 then NaN else Infinity (xorb s (Qltb p 0))
  | Infinity s, Infinity s' => Infinity (xorb s s')
  end.

(** [a / b].  A zero divisor is taken as [+0], which is what a
    difference of two equal doubles is: a non-zero number divided by it
    is the infinity of its sign, and [0 / 0] is [NaN]. *)
Definition fdiv (a b : Number) : Number :=
  match a, b with
  | NaN, _ | _, NaN => NaN
  | Finite p, Finite q =>
      if Qeq_bool q 0
      then (if Qeq_bool p 0 then NaN else Infinity (Qltb p 0))
      else fl (p / q)
  | Finite _, Infinity _ => Finite 0
  | Infinity s, Finite q => Infinity (xorb s (Qltb q 0))
  | Infinity _, Infinity _ => NaN
  end.

(** [a < b]; false when either side is [NaN]. *)
Definition flt (a b : Number) : bool :=
  match a, b with
  | NaN, _ | _, NaN => false
  | Finite p, Finite q => Qltb p q
  | Finite _, Infinity s => negb s
  | Infinity s, Finite _ => s
  | Infinity s, Infinity s' => s && negb s'
  end.

(** [a > b] *)
Definition fgt (a b : Number) : bool := flt b a.

(** [b === 0] *)
Definition is_zero (b : Number) : bool :=
  match b with
  | Finite q => Qeq_bool q 0
  | _ => false
  end.

(** ** Geometry filter ([pointInPolygon], getNearbyPoi.js 12-27) *)

(** A point or vertex is the array [[x, y]]; a coordinate [q] stands for
    the number [num q]. *)
Definition point : Type := (Q * Q)%type.

Definition origin : point := (0, 0).

(** [yi > y !== yj > y]: the two endpoints lie on different sides of the
    horizontal line through the point. *)
Definition crossesRow (y yi yj : Q) : bool :=
  xorb (fgt (num yi) (num y)) (fgt (num yj) (num y)).

(** [((xj - xi) * (y - yi)) / (yj - yi) + xi], each operation rounded. *)
Definition crossX (xi yi xj yj y : Q) : Number :=
  fadd (fdiv (fmul (fsub (num xj) (num xi)) (fsub (num y) (num yi)))
             (fsub (num yj) (num yi)))
       (num xi).

(** The constant [intersect] of the loop body.  [&&] evaluates its right
    operand only when the left one is true. *)
Definition intersect (p vi vj : point) : bool :=
  let '(x, y) := p in
  let '(xi, yi) := vi in
  let '(xj, yj) := vj in
  if crossesRow y yi yj then flt (num x) (crossX xi yi xj yj y) else false.

(** The [for] loop: [i] runs from [0] while [i < polygon.length], and
    [j = i++] makes [j] the index just visited.  [fuel] bounds the number
    of iterations; [polygon.length] iterations are always enough
    ([pip_loop_fuel] below). *)
Fixpoint pip_loop (fuel : nat) (p : point) (polygon : list point)
         (i j : nat) (inside : bool) : bool :=
  match fuel with
  | O => inside
  | S fuel' =>
      if (i <? List.length polygon)%nat then
        let vi := nth i polygon origin in
        let vj := nth j polygon origin in
        let inside' := if intersect p vi vj then negb inside else inside in
        pip_loop fuel' p polygon (S i) i inside'
      else inside
  end.

(** [j] starts at [polygon.length - 1].  On the empty polygon that is
    [-1] in the source and [0] here; the loop body never runs then, so
    the value is never read. *)
Definition pointInPolygon (p : point) (polygon : list point) : bool :=
  pip_loop (List.length polygon) p polygon 0 (List.length polygon - 1) false.

(** The edges the loop visits, in order: vertex [i] paired with the
    vertex before it, the first vertex with the last one. *)
Definition edges (polygon : list point) : list (point * point) :=
  combine polygon (last polygon origin :: removelast polygon).

(** Number of edges crossed by the horizontal ray from [p] towards
    increasing [x]. *)
Definition crossings (p : point) (polygon : list point) : nat :=
  List.length (filter (fun e => intersect p (fst e) (snd e)) (edges polygon)).

(** *** The same loop with the division checked

    [checked_div] refuses a zero denominator; the checked loop returns
    [None] as soon as a division by zero is evaluated. *)
Definition checked_div (a b : Number) : option Number :=
  if is_zero b then None else Some (fdiv a b).

Definition intersect_checked (p vi vj : point) : option bool :=
  let '(x, y) := p in
  let '(xi, yi) := vi in
  let '(xj, yj) := vj in
  if crossesRow y yi yj then
    match checked_div (fmul (fsub (num xj) (num xi)) (fsub (num y) (num yi)))
                      (fsub (num yj) (num yi)) with
    | Some q => Some (flt (num x) (fadd q (num xi)))
    | None => None
    end
  else Some false.

Fixpoint pip_loop_checked (fuel : nat) (p : point) (polygon : list point)
         (i j : nat) (inside : bool) : option bool :=
  match fuel with
  | O => Some inside
  | S fuel' =>
      if (i <? List.length polygon)%nat then
        let vi := nth i polygon origin in
        let vj := nth j polygon origin in
        match intersect_checked p vi vj with
        | Some c =>
            pip_loop_checked fuel' p polygon (S i) i
              (if c then negb inside else inside)
        | None => None
        end
      else Some inside
  end.

Definition pointInPolygon_checked (p : point) (polygon : list point)
  : option bool :=
  pip_loop_checked (List.length polygon) p polygon 0 (List.length polygon - 1) false.

(** The square [(0,0),(0,4),(4,4),(4,0)]. *)
Definition square : list point := [(0, 0); (0, 4); (4, 4); (4, 0)].


(** ** Classifier ([sortByCategory], getNearbyPoi.js 35-52) *)

Local Open Scope string_scope.

(** A feature of the places response: [geometry.coordinates] and
    [properties.categories]; [poi_name] stands for the other properties. *)
Record POI : Type := mkPOI {
  poi_name : string;
  coordinates : point;
  categories : list string
}.

(** The object [sortedPOI]: one array per output category. *)
Record Buckets : Type := mkBuckets {
  supermarket : list POI;
  pharmacy : list POI;
  restaurant : list POI;
  fastfood : list POI;
  hotel : list POI
}.

(** [array.includes(s)] *)
Definition includes (l : list string) (s : string) : bool :=
  existsb (String.eqb s) l.

(** [array.push(x)] *)
Definition push {A : Type} (l : list A) (x : A) : list A := l ++ [x].

(** [poi.properties.categories.push(label)] *)
Definition push_category (poi : POI) (label : string) : POI :=
  mkPOI (poi_name poi) (coordinates poi) (push (categories poi) label).

(** [sortByCategory(poi, poiCategories, appendTo)] mutates [poi] and
    [appendTo]; the model returns both after the call.  The bucket holds
    the object [poi] itself, hence the POI with the label pushed. *)
Definition sortByCategory (poi : POI) (poiCategories : list string)
           (appendTo : Buckets) : POI * Buckets :=
  if includes poiCategories "commercial.supermarket" then
    let poi' := push_category poi "supermarket" in
    (poi', mkBuckets (push (supermarket appendTo) poi') (pharmacy appendTo)
                     (restaurant appendTo) (fastfood appendTo) (hotel appendTo))
  else if includes poiCategories "healthcare.pharmacy" then
    let poi' := push_category poi "pharmacy" in
    (poi', mkBuckets (supermarket appendTo) (push (pharmacy appendTo) poi')
                     (restaurant appendTo) (fastfood appendTo) (hotel appendTo))
  else if includes poiCategories "catering.restaurant" then
    let poi' := push_category poi "restaurant" in
    (poi', mkBuckets (supermarket appendTo) (pharmacy appendTo)
                     (push (restaurant appendTo) poi') (fastfood appendTo)
                     (hotel appendTo))
  else if includes poiCategories "catering.fast_food" then
    let poi' := push_category poi "fastfood" in
    (poi', mkBuckets (supermarket appendTo) (pharmacy appendTo)
                     (restaurant appendTo) (push (fastfood appendTo) poi')
                     (hotel appendTo))
  else if includes poiCategories "accommodation.hotel" then
    let poi' := push_category poi "hotel" in
    (poi', mkBuckets (supermarket appendTo) (pharmacy appendTo)
                     (restaurant appendTo) (fastfood appendTo)
                     (push (hotel appendTo) poi'))
  else (poi, appendTo).

(** *** The priority order as an ordered rule table *)

Inductive Category : Type :=
  Supermarket | Pharmacy | Restaurant | Fastfood | Hotel.

(** The provider tag a rule tests and the label it pushes. *)
Definition tag_of (c : Category) : string :=
  match c with
  | Supermarket => "commercial.supermarket"
  | Pharmacy => "healthcare.pharmacy"
  | Restaurant => "catering.restaurant"
  | Fastfood => "catering.fast_food"
  | Hotel => "accommodation.hotel"
  end.

Definition label_of (c : Category) : string :=
  match c with
  | Supermarket => "supermarket"
  | Pharmacy => "pharmacy"
  | Restaurant => "restaurant"
  | Fastfood => "fastfood"
  | Hotel => "hotel"
  end.

(** supermarket > pharmacy > restaurant > fastfood > hotel *)
Definition priority : list Category :=
  [Supermarket; Pharmacy; Restaurant; Fastfood; Hotel].

(** The first category of the priority order whose tag is among [tags]. *)
Definition first_match (tags : list string) : option Category :=
  find (fun c => includes tags (tag_of c)) priority.

Definition bucket (c : Category) (b : Buckets) : list POI :=
  match c with
  | Supermarket => supermarket b
  | Pharmacy => pharmacy b
  | Restaurant => restaurant b
  | Fastfood => fastfood b
  | Hotel => hotel b
  end.

(** Number of POIs held by the buckets, all categories together. *)
Definition total (b : Buckets) : nat :=
  list_sum (map (fun c => List.length (bucket c b)) priority).

Definition Category_eqb (c c' : Category) : bool :=
  match c, c' with
  | Supermarket, Supermarket | Pharmacy, Pharmacy | Restaurant, Restaurant
  | Fastfood, Fastfood | Hotel, Hotel => true
  | _, _ => false
  end.

Definition emptyBuckets : Buckets := mkBuckets [] [] [] [] [].

Local Close Scope string_scope.
(** ** Coordinate quantization ([roundCord], server 138-140) *)

(** [Number.prototype.toFixed(f)], as the number its decimal text denotes.
    For [|x| < 10^21] the text is [n / 10^f] written out, with the sign of
    [x], where [n] is the integer closest to [|x| * 10^f], the larger one
    on a tie.  From [10^21] on, the text is [String(x)], the shortest
    decimal that reads back as [x]; it is modelled by [x] itself, which
    [parseFloat] maps to the same double.  ([f] is [3] at every call, so
    the [RangeError] for [f > 100] cannot occur.) *)
Definition toFixed (x : Q) (f : nat) : Q :=
  let a := Qabs x in
  if Qle_bool (10 ^ 21) a then x
  else
    let n := Qfloor (a * 10 ^ Z.of_nat f + (1 # 2)) in
    let m := inject_Z n / 10 ^ Z.of_nat f in
    if Qltb x 0 then - m else m.

(** [parseFloat] of a decimal text denoting [d]: the nearest double.  The
    texts that [toFixed] writes for a double denote a double or a number
    within [0.0005] of one, so that no rounding of them overflows. *)
Definition parseFloat (d : Q) : Q := round_double d.

(** [parseFloat(coord.toFixed(precision))] *)
Definition roundCord (coord : Q) (precision : nat) : Q :=
  parseFloat (toFixed coord precision).

(** ** Outcomes of asynchronous calls *)

Local Open Scope string_scope.

(** An awaited call either yields a value or throws. *)
Inductive Outcome (A : Type) : Type :=
| Return (a : A)
| Throw (error : string).
Arguments Return {A} a.
Arguments Throw {A} error.

(** ** Documents *)

(** [geoApifyPOIRes.data]: [features] may be absent; [error] and
    [message] are what an error body carries. *)
Record ProviderData : Type := mkProviderData {
  pd_features : option (list POI);
  pd_error : option string;
  pd_message : string
}.

(** A feature of the isochrone response: [geometry.coordinates]. *)
Record IsoFeature : Type := mkIsoFeature {
  iso_coordinates : list (list point)
}.

(** What [getNearbyPlaces] returns. *)
Inductive LookupResult : Type :=
| ProviderBody (d : ProviderData)   (* [geoApifyPOIRes.data], as it came *)
| ErrorObject (error : string)      (* [{ error: ... }] *)
| Sorted (b : Buckets).             (* [sortedPOI] *)

(** Truthiness of a string-valued property that may be absent. *)
Definition truthy_string (s : option string) : bool :=
  match s with
  | Some s => negb (String.eqb s "")
  | None => false
  end.

(** [sortedPoi.error], when it is truthy. *)
Definition error_of (r : LookupResult) : option string :=
  match r with
  | ProviderBody d => if truthy_string (pd_error d) then pd_error d else None
  | ErrorObject e => if truthy_string (Some e) then Some e else None
  | Sorted _ => None
  end.

(** The response envelope [nearbyPlaces]. *)
Record Envelope : Type := mkEnvelope {
  forCoordinates : Q * Q;
  requestedBy : string;
  POIbyCategory : LookupResult
}.

(** A document of the collection [savedPlaces]. *)
Record SavedPlaces : Type := mkSavedPlaces {
  saved : Envelope;
  generalCoordinates : Q * Q;
  createdAt : Z;
  expiresAt : Z
}.

(** JSON values that are stored in Redis or sent as a response body.
    Redis stores their text; [JNumber n] is the text of the integer [n],
    which is how Redis keeps a counter. *)
Inductive Json : Type :=
| JNumber (n : Z)
| JPlaces (e : Envelope)
| JSaved (d : SavedPlaces)
| JError (error : string) (code : option string).

(** [res.status(s).json(b)] *)
Record Response : Type := mkResponse {
  status : nat;
  body : Json
}.

(** ** The two stores *)

(** Redis keys.  [NearbyKey a b] stands for the text
    [nearby-${a}-${b}] and [UniqueKey ip] for [unique-requests-${ip}];
    two such texts are equal exactly when the numbers, or the addresses,
    are. *)
Inductive Key : Type :=
| NearbyKey (roundedLat roundedLon : Q)
| UniqueKey (ip : string).

Definition key_eqb (k k' : Key) : bool :=
  match k, k' with
  | NearbyKey a b, NearbyKey a' b' => Qeq_bool a a' && Qeq_bool b b'
  | UniqueKey i, UniqueKey i' => String.eqb i i'
  | _, _ => false
  end.

Module Redis.

(** A key holds a value and, when it was set with [EX], the time in
    milliseconds at which it expires. *)
Record Entry : Type := mkEntry {
  key : Key;
  value : Json;
  expiry : option Z
}.

Definition Store : Type := list Entry.

Definition live (now : Z) (e : Entry) : bool :=
  match expiry e with
  | Some t => (now <? t)%Z
  | None => true
  end.

Definition find (now : Z) (s : Store) (k : Key) : option Entry :=
  List.find (fun e => key_eqb (key e) k && live now e) s.

Definition remove (s : Store) (k : Key) : Store :=
  filter (fun e => negb (key_eqb (key e) k)) s.

(** [GET k] *)
Definition get (now : Z) (s : Store) (k : Key) : option Json :=
  option_map value (find now s k).

(** [SET k v EX seconds] *)
Definition set (now : Z) (s : Store) (k : Key) (v : Json)
           (seconds : Z) : Store :=
  mkEntry k v (Some (now + seconds * 1000)%Z) :: remove s k.

(** [INCR k]: a missing key counts from [0] and gets no expiry; an
    existing counter keeps its expiry; a value that is not an integer is
    an error. *)
Definition incr (now : Z) (s : Store) (k : Key) : option Store :=
  match find now s k with
  | None => Some (mkEntry k (JNumber 1) None :: remove s k)
  | Some e =>
      match value e with
      | JNumber n => Some (mkEntry k (JNumber (n + 1)) (expiry e) :: remove s k)
      | _ => None
      end
  end.

End Redis.

(** What the handler does to the outside, in order. *)
Inductive Event : Type :=
| RedisGet (k : Key)
| RedisSet (k : Key) (seconds : Z)
| RedisIncr (k : Key)
| MongoConnect
| MongoFindOne (c : Q * Q)
| MongoInsertOne (c : Q * Q)
| PlacesCall (lat lon : Q)
| IsochroneCall (lat lon : Q)
| ConsoleLog (msg : string)
| ConsoleError (msg : string).

(** The state shared by all requests: the Redis store, the collection
    [savedPlaces], the cached MongoDB connection ([cachedClient],
    [cachedDb]), and the trace of effects so far. *)
Record World : Type := mkWorld {
  redis : Redis.Store;
  savedPlaces : list SavedPlaces;
  cachedDb : bool;
  trace : list Event
}.

(** What the outside decides during one request: the clock, whether
    MongoDB answers, and the two providers.  [Date.now()] is in
    milliseconds.  The route is modelled with every command of a request
    answered at the one instant [now env], with requests served one after
    the other, and with a Redis that does not fail; what overlapping
    requests do to each other is outside this model.  The time that
    passes between the two commands of [incrementUniqueRequestCount] is
    modelled in that function, which takes the instant of its second
    command. *)
Record Env : Type := mkEnv {
  now : Z;
  mongo_connects : bool;
  mongo_finds : bool;
  mongo_inserts : bool;
  places_api : Q -> Q -> Outcome ProviderData;
  isochrone_api : Q -> Q -> Outcome (list IsoFeature)
}.

(** ** Stateful computations that may throw *)

Definition M (A : Type) : Type := World -> Outcome A * World.

Definition ret {A : Type} (a : A) : M A := fun w => (Return a, w).

Definition throw {A : Type} (error : string) : M A := fun w => (Throw error, w).

Definition bind {A B : Type} (m : M A) (k : A -> M B) : M B :=
  fun w =>
    match m w with
    | (Return a, w') => k a w'
    | (Throw e, w') => (Throw e, w')
    end.

(** [try { m } catch (error) { h error }]: the effects of [m] before it
    threw stay. *)
Definition try_catch {A : Type} (m : M A) (h : string -> M A) : M A :=
  fun w =>
    match m w with
    | (Return a, w') => (Return a, w')
    | (Throw e, w') => h e w'
    end.

Declare Scope m_scope.
Delimit Scope m_scope with M.
Notation "x <- m ;; k" := (bind m (fun x => k))
  (at level 61, m at next level, right associativity) : m_scope.
Notation "m ;; k" := (bind m (fun _ => k))
  (at level 61, right associativity) : m_scope.
Local Open Scope m_scope.

Definition emit (ev : Event) : M unit :=
  fun w => (Return tt,
            mkWorld (redis w) (savedPlaces w) (cachedDb w) (trace w ++ [ev])).

Definition console_log (msg : string) : M unit := emit (ConsoleLog msg).
Definition console_error (msg : string) : M unit := emit (ConsoleError msg).

Definition put_redis (s : Redis.Store) : M unit :=
  fun w => (Return tt, mkWorld s (savedPlaces w) (cachedDb w) (trace w)).

(** [redisClient.get(k)] *)
Definition redis_get (env : Env) (k : Key) : M (option Json) :=
  emit (RedisGet k) ;;
  fun w => (Return (Redis.get (now env) (redis w) k), w).

(** [redisClient.set(k, v, { EX: seconds })] *)
Definition redis_set (env : Env) (k : Key) (v : Json) (seconds : Z)
  : M unit :=
  emit (RedisSet k seconds) ;;
  fun w => put_redis (Redis.set (now env) (redis w) k v seconds) w.

(** [redisClient.incr(k)] *)
Definition redis_incr (env : Env) (k : Key) : M unit :=
  emit (RedisIncr k) ;;
  fun w =>
    match Redis.incr (now env) (redis w) k with
    | Some s => put_redis s w
    | None => (Throw "ERR value is not an integer or out of range", w)
    end.

(** [connectToDatabase()]: the connection is made once and kept. *)
Definition connectToDatabase (env : Env) : M unit :=
  fun w =>
    if cachedDb w then (Return tt, w)
    else
      (emit MongoConnect ;;
       if mongo_connects env then
         fun w => (Return tt,
                   mkWorld (redis w) (savedPlaces w) true (trace w))
       else throw "MongoNetworkError") w.

Definition pair_eqb (c c' : Q * Q) : bool :=
  Qeq_bool (fst c) (fst c') && Qeq_bool (snd c) (snd c').

(** [collection.findOne({ generalCoordinates: c })] *)
Definition findOne (env : Env) (c : Q * Q) : M (option SavedPlaces) :=
  emit (MongoFindOne c) ;;
  if mongo_finds env then
    fun w => (Return (List.find (fun d => pair_eqb (generalCoordinates d) c)
                                (savedPlaces w)), w)
  else throw "MongoServerError".

(** [collection.insertOne(d)] *)
Definition insertOne (env : Env) (d : SavedPlaces) : M unit :=
  emit (MongoInsertOne (generalCoordinates d)) ;;
  if mongo_inserts env then
    fun w => (Return tt,
              mkWorld (redis w) (savedPlaces w ++ [d]) (cachedDb w) (trace w))
  else throw "MongoServerError".

(** [axios.get] of the places API and of the isochrone API. *)
Definition axios_places (env : Env) (lat lon : Q) : M ProviderData :=
  emit (PlacesCall lat lon) ;;
  fun w => (places_api env lat lon, w).

Definition axios_isochrone (env : Env) (lat lon : Q) : M (list IsoFeature) :=
  emit (IsochroneCall lat lon) ;;
  fun w => (isochrone_api env lat lon, w).

(** ** Quota guard (server 116-136) *)

(** A Redis reply is a string or [null]; every stored text is non-empty,
    so a reply is truthy exactly when the key is there. *)
Definition truthy (reply : option Json) : bool :=
  match reply with Some _ => true | None => false end.

(** [parseInt(text)]: [NaN] for a text that does not start with digits. *)
Definition parseInt (reply : option Json) : option Z :=
  match reply with
  | Some (JNumber n) => Some n
  | _ => None
  end.

(** [n >= 5], false for [NaN]. *)
Definition at_least_5 (n : option Z) : bool :=
  match n with
  | Some n => (5 <=? n)%Z
  | None => false
  end.

Definition checkUniqueRequestLimit (env : Env) (ip : string) : M bool :=
  let uniqueKey := UniqueKey ip in
  currentCount <- redis_get env uniqueKey ;;
  if truthy currentCount && at_least_5 (parseInt currentCount)
  then ret false
  else ret true.

(** The outside at another instant. *)
Definition at_time (t : Z) (env : Env) : Env :=
  mkEnv t (mongo_connects env) (mongo_finds env) (mongo_inserts env)
        (places_api env) (isochrone_api env).

(** The two commands are awaited one after the other: the [GET] is
    answered at [now env], the [INCR] or the [SET] at [later]. *)
Definition incrementUniqueRequestCount (env : Env) (later : Z) (ip : string)
  : M unit :=
  let uniqueKey := UniqueKey ip in
  currentCount <- redis_get env uniqueKey ;;
  if truthy currentCount
  then redis_incr (at_time later env) uniqueKey
  else redis_set (at_time later env) uniqueKey (JNumber 1) (60 * 60).

(** ** Lookup orchestrator ([getNearbyPlaces], getNearbyPoi.js 60-112) *)

(** [features.filter(poi => pointInPolygon(poi.geometry.coordinates,
    IsochronePolygon))]; [polygon.length] of [undefined] throws as soon as
    the callback runs. *)
Definition filterPOI (features : list POI)
           (IsochronePolygon : option (list point)) : M (list POI) :=
  match IsochronePolygon, features with
  | Some polygon, _ =>
      ret (filter (fun poi => pointInPolygon (coordinates poi) polygon)
                  features)
  | None, [] => ret []
  | None, _ :: _ =>
      throw "TypeError: Cannot read properties of undefined (reading 'length')"
  end.

(** [filteredPOI.forEach(poi => sortByCategory(poi,
    poi.properties.categories, sortedPOI))] *)
Definition categorize (filteredPOI : list POI) (sortedPOI : Buckets)
  : Buckets :=
  fold_left (fun acc poi => snd (sortByCategory poi (categories poi) acc))
            filteredPOI sortedPOI.

(** The body of the [try]: the request, then [data.features[0]] and
    [geometry.coordinates[0]]. *)
Definition fetchIsochrone (env : Env) (lat lon : Q)
  : M (option (list point)) :=
  features <- axios_isochrone env lat lon ;;
  match features with
  | [] =>
      throw "TypeError: Cannot read properties of undefined (reading 'geometry')"
  | mapboxIsochrone :: _ =>
      ret (match iso_coordinates mapboxIsochrone with
           | [] => None
           | ring :: _ => Some ring
           end)
  end.

Definition getNearbyPlaces (env : Env) (lat lon : Q) : M LookupResult :=
  let sortedPOI := emptyBuckets in
  data <- axios_places env lat lon ;;
  match pd_features data with
  | None => ret (ProviderBody data)
  | Some features =>
      r <- try_catch
             (IsochronePolygon <- fetchIsochrone env lat lon ;;
              ret (inl IsochronePolygon))
             (fun error =>
                console_error "Error getting mapbox isochrone:" ;;
                ret (inr (ErrorObject ("Error getting mb isochrone:" ++ error)))) ;;
      match r with
      | inr early => ret early
      | inl IsochronePolygon =>
          filteredPOI <- filterPOI features IsochronePolygon ;;
          ret (Sorted (categorize filteredPOI sortedPOI))
      end
  end.

(** ** The route [/nearby-places] (server 143-236)

    The server comes in two copies; this is the first one, with the
    cached connection and the two [try]/[catch] blocks around MongoDB.
    The origin check in front of the route is modelled after it; CORS
    and the general rate limit are library code and not part of the
    model. *)

(** What the handler reads from a request: [ip] is the value of
    [getRealClientIP(req)] (62-65, 144), [lat] and [lon] are the two
    coordinates. *)
Record Request : Type := mkRequest {
  ip : string;
  lat : Q;
  lon : Q
}.

Definition quota_error : Json :=
  JError "Too many unique location requests. Maximum 5 new locations per hour."
         (Some "UNIQUE_REQUESTS_LIMIT_EXCEEDED").

Definition cacheKey (lat lon : Q) : Key :=
  NearbyKey (roundCord lat 3) (roundCord lon 3).

(** The first [try] (162-179): [Some] response when MongoDB has the
    entry, [None] to go on. *)
Definition checkMongo (env : Env) (lat lon : Q) : M (option Response) :=
  let roundedLat := roundCord lat 3 in
  let roundedLon := roundCord lon 3 in
  try_catch
    (connectToDatabase env ;;
     mdbData <- findOne env (roundedLat, roundedLon) ;;
     match mdbData with
     | Some d =>
         console_log "MongoDB hit" ;;
         redis_set env (cacheKey lat lon) (JSaved d) (60 * 60 * 6) ;;
         ret (Some (mkResponse 200 (JSaved d)))
     | None => ret None
     end)
    (fun mongoError =>
       console_error "MongoDB error during cache check:" ;;
       ret None).

(** The inner [try] (217-230). *)
Definition saveToMongo (env : Env) (lat lon : Q) (nearbyPlaces : Envelope)
  : M unit :=
  try_catch
    (connectToDatabase env ;;
     insertOne env
       (mkSavedPlaces nearbyPlaces (roundCord lat 3, roundCord lon 3)
                      (now env)
                      (now env + 4 * 24 * 60 * 60 * 1000)%Z))
    (fun mongoError => console_error "MongoDB error during save:").

(** The second [try] (181-235). *)
Definition freshLookup (env : Env) (req : Request) : M Response :=
  try_catch
    (console_log "Cache miss - checking unique request limit" ;;
     canMakeUniqueRequest <- checkUniqueRequestLimit env (ip req) ;;
     if negb canMakeUniqueRequest then ret (mkResponse 429 quota_error)
     else
       incrementUniqueRequestCount env (now env) (ip req) ;;
       sortedPoi <- getNearbyPlaces env (lat req) (lon req) ;;
       match error_of sortedPoi with
       | Some e => ret (mkResponse 500 (JError e (Some "API_ERROR")))
       | None =>
           let nearbyPlaces :=
             mkEnvelope (lat req, lon req) (ip req) sortedPoi in
           redis_set env (cacheKey (lat req) (lon req))
                     (JPlaces nearbyPlaces) (60 * 60 * 6) ;;
           saveToMongo env (lat req) (lon req) nearbyPlaces ;;
           ret (mkResponse 200 (JPlaces nearbyPlaces))
       end)
    (fun error =>
       console_error "Error:" ;;
       ret (mkResponse 500 (JError "Internal server error" None))).

Definition nearbyPlaces (env : Env) (req : Request) : M Response :=
  cachedData <- redis_get env (cacheKey (lat req) (lon req)) ;;
  match cachedData with
  | Some data =>
      console_log "Cache hit" ;;
      ret (mkResponse 200 data)
  | None =>
      hit <- checkMongo env (lat req) (lon req) ;;
      match hit with
      | Some response => ret response
      | None => freshLookup env req
      end
  end.

(** Requests served one after the other, each with its own outside. *)
Fixpoint serve (rs : list (Env * Request)) (w : World)
  : list (Outcome Response) * World :=
  match rs with
  | [] => ([], w)
  | (env, req) :: rs' =>
      let (r, w') := nearbyPlaces env req w in
      let (out, w'') := serve rs' w' in
      (r :: out, w'')
  end.

Definition emptyWorld : World := mkWorld [] [] false [].

Local Close Scope m_scope.
Local Close Scope string_scope.

(** ** The origin check in front of the routes (server 68-89)

    The first copy of the server puts this middleware before every route.
    [cors] and [express-rate-limit], which follow it, are library code and
    are not modelled. *)

Local Open Scope string_scope.

Module Middleware.

(** What the middleware reads of the request: [req.path] and
    [req.get(...)] of three headers, [undefined] for a header that is not
    there.  [userAgent] is read and never used. *)
Record Req : Type := mkReq {
  path : string;
  referer : option string;
  origin : option string;
  userAgent : option string
}.

(** [process.env.ALLOWED_DOMAIN || "https://mapsy-theta.vercel.app"] *)
Definition allowedDomain (ALLOWED_DOMAIN : option string) : string :=
  match ALLOWED_DOMAIN with
  | Some d => if truthy_string ALLOWED_DOMAIN then d
              else "https://mapsy-theta.vercel.app"
  | None => "https://mapsy-theta.vercel.app"
  end.

(** [s.startsWith(prefix)] *)
Definition startsWith (s prefix : string) : bool := String.prefix prefix s.

Definition access_denied : Json :=
  JError "Access denied. Requests must come from the authorized domain."
         (Some "UNAUTHORIZED_DOMAIN").

(** The middleware: [Some] response when it answers itself, [None] when
    it calls [next()].  [!h || ...] reads the header only when it is
    truthy. *)
Definition check (ALLOWED_DOMAIN : option string) (req : Req)
  : option Response :=
  let allowedDomain := allowedDomain ALLOWED_DOMAIN in
  if negb (String.eqb (path req) "/")
     && (negb (truthy_string (referer req))
         || negb (match referer req with
                  | Some r => startsWith r allowedDomain
                  | None => false
                  end))
     && (negb (truthy_string (origin req))
         || match origin req with
            | Some o => negb (String.eqb o allowedDomain)
            | None => false
            end)
  then Some (mkResponse 403 access_denied)
  else None.

End Middleware.

(** ** The second copy of the server (lines 241-427)

    The file holds the server twice.  The second copy has no origin
    check, uses one MongoDB client that is connected when the process
    starts, and has no [try]/[catch] of its own around the two MongoDB
    calls; the quota guard and [roundCord] are the same text.  A MongoDB
    call of this copy fails or not as the outside decides
    ([mongo_finds], [mongo_inserts]).

    The client address.  The first copy takes it from
    [getRealClientIP(req)], that is [req.ip || requestIp.getClientIp(req)]
    with [trust proxy] set (60-65, 144): that is the field [ip] of a
    request.  The second copy takes [requestIp.getClientIp(req)], without
    [trust proxy] (341): that is the argument [clientIp] below, which
    need not be equal to [ip req]; the second copy does not read
    [ip req]. *)

Local Open Scope m_scope.

Module Copy2.

(** The [try] (375-422). *)
Definition freshLookup (env : Env) (clientIp : string) (req : Request)
  : M Response :=
  try_catch
    (console_log "Cache miss - checking unique request limit" ;;
     canMakeUniqueRequest <- checkUniqueRequestLimit env clientIp ;;
     if negb canMakeUniqueRequest then ret (mkResponse 429 quota_error)
     else
       incrementUniqueRequestCount env (now env) clientIp ;;
       sortedPoi <- getNearbyPlaces env (lat req) (lon req) ;;
       match error_of sortedPoi with
       | Some e =>
           ret (mkResponse 500 (JError e (Some "API_CREDITS_EXCEEDED")))
       | None =>
           let nearbyPlaces :=
             mkEnvelope (lat req, lon req) clientIp sortedPoi in
           redis_set env (cacheKey (lat req) (lon req))
                     (JPlaces nearbyPlaces) (60 * 60 * 6) ;;
           insertOne env
             (mkSavedPlaces nearbyPlaces
                            (roundCord (lat req) 3, roundCord (lon req) 3)
                            (now env)
                            (now env + 4 * 24 * 60 * 60 * 1000)%Z) ;;
           ret (mkResponse 200 (JPlaces nearbyPlaces))
       end)
    (fun error =>
       console_error "Error:" ;;
       ret (mkResponse 500 (JError "Internal server error" None))).

(** The route (340-423); [res.json] without [res.status] answers 200. *)
Definition nearbyPlaces (env : Env) (clientIp : string) (req : Request)
  : M Response :=
  cachedData <- redis_get env (cacheKey (lat req) (lon req)) ;;
  match cachedData with
  | Some data =>
      console_log "Cache hit" ;;
      ret (mkResponse 200 data)
  | None =>
      mdbData <- findOne env (roundCord (lat req) 3, roundCord (lon req) 3) ;;
      match mdbData with
      | Some d =>
          console_log "MongoDB hit" ;;
          redis_set env (cacheKey (lat req) (lon req)) (JSaved d)
                    (60 * 60 * 6) ;;
          ret (mkResponse 200 (JSaved d))
      | None => freshLookup env clientIp req
      end
  end.

End Copy2.

Local Close Scope m_scope.
Local Close Scope string_scope.

(** * Notions used in the statements *)

(** ** The grid of the doubles *)

(** The numbers with 53 significant bits and an exponent not below that
    of the subnormals: the finite doubles, and their continuation beyond
    the largest one. *)
Definition on_grid (x : Q) : Prop :=
  exists m e : Z,
    (Z.abs m < 2 ^ 53)%Z /\ (-1074 <= e)%Z /\ x == inject_Z m * 2 ^ e.

(** Equality of numbers, finite ones up to [==]. *)
Definition Neq (a b : Number) : Prop :=
  match a, b with
  | Finite p, Finite q => p == q
  | Infinity s, Infinity s' => s = s'
  | NaN, NaN => True
  | _, _ => False
  end.

(** ** The loop as a walk, the abscissa, the bounding box *)

(** The loop seen as a walk over the vertices still to visit, carrying the
    vertex visited last; [c v prev] says whether the edge from [prev] to
    [v] toggles the flag. *)
Fixpoint walk (c : point -> point -> bool) (prev : point) (vs : list point)
         (inside : bool) : bool :=
  match vs with
  | [] => inside
  | v :: vs' => walk c v vs' (if c v prev then negb inside else inside)
  end.

(** The abscissa as the code computes it when no operation overflows. *)
Definition crossX_rounded (xi yi xj yj y : Q) : Q :=
  round_double
    (round_double
       (round_double (round_double (xj - xi) * round_double (y - yi))
        / round_double (yj - yi))
     + xi).

(** The abscissa of the point of the edge at the height [y]. *)
Definition crossX_exact (xi yi xj yj y : Q) : Q :=
  (xj - xi) * (y - yi) / (yj - yi) + xi.

(** By how much the computed abscissa may differ from the exact one. *)
Definition tolerance (xi xj : Q) : Q :=
  2 ^ (-49) * (Qabs xi + Qabs (xj - xi)) + 2 ^ (-572).

(** A double of magnitude at most [2^500]. *)
Definition small (v : Q) : Prop := is_double v /\ Qabs v <= 2 ^ 500.

(** Points whose coordinates are doubles, and doubles of magnitude at
    most [2^500]. *)
Definition double_point (v : point) : Prop :=
  is_double (fst v) /\ is_double (snd v).

Definition small_point (v : point) : Prop :=
  small (fst v) /\ small (snd v).

(** [p] is at or above, or below, every vertex. *)
Definition above (p : point) (polygon : list point) : Prop :=
  forall v, In v polygon -> snd v <= snd p.

Definition below (p : point) (polygon : list point) : Prop :=
  forall v, In v polygon -> snd p < snd v.

(** The bounding box is at most [W] wide, and [p] is at least [16 * W]
    to the right, or more than [16 * W] to the left, of every vertex. *)
Definition wide (polygon : list point) (W : Q) : Prop :=
  forall v v', In v polygon -> In v' polygon -> Qabs (fst v' - fst v) <= W.

Definition far_right (p : point) (polygon : list point) (W : Q) : Prop :=
  forall v, In v polygon -> fst v + 16 * W <= fst p.

Definition far_left (p : point) (polygon : list point) (W : Q) : Prop :=
  forall v, In v polygon -> fst p < fst v - 16 * W.

(** ** The rule that fires *)

(** What [sortByCategory] does when the rule of category [c] fires. *)
Definition place (c : Category) (poi : POI) (b : Buckets) : POI * Buckets :=
  let poi' := push_category poi (label_of c) in
  (poi',
   match c with
   | Supermarket => mkBuckets (push (supermarket b) poi') (pharmacy b)
                              (restaurant b) (fastfood b) (hotel b)
   | Pharmacy => mkBuckets (supermarket b) (push (pharmacy b) poi')
                           (restaurant b) (fastfood b) (hotel b)
   | Restaurant => mkBuckets (supermarket b) (pharmacy b)
                             (push (restaurant b) poi') (fastfood b) (hotel b)
   | Fastfood => mkBuckets (supermarket b) (pharmacy b) (restaurant b)
                           (push (fastfood b) poi') (hotel b)
   | Hotel => mkBuckets (supermarket b) (pharmacy b) (restaurant b)
                        (fastfood b) (push (hotel b) poi')
   end).

(** The categories that come before [c] in the priority order. *)
Definition before (c : Category) : list Category :=
  match c with
  | Supermarket => []
  | Pharmacy => [Supermarket]
  | Restaurant => [Supermarket; Pharmacy]
  | Fastfood => [Supermarket; Pharmacy; Restaurant]
  | Hotel => [Supermarket; Pharmacy; Restaurant; Fastfood]
  end.

Local Open Scope string_scope.

(** ** The route, piece by piece *)

(** The world with more events in its trace. *)
Definition log (w : World) (evs : list Event) : World :=
  mkWorld (redis w) (savedPlaces w) (cachedDb w) (trace w ++ evs).

Definition isochrone_error (e : string) : LookupResult :=
  ErrorObject ("Error getting mb isochrone:" ++ e).

Definition lookup_outcome (env : Env) (lat lon : Q)
  : Outcome LookupResult * list Event :=
  match places_api env lat lon with
  | Throw e => (Throw e, [PlacesCall lat lon])
  | Return data =>
      match pd_features data with
      | None => (Return (ProviderBody data), [PlacesCall lat lon])
      | Some features =>
          match isochrone_api env lat lon with
          | Throw e =>
              (Return (isochrone_error e),
               [PlacesCall lat lon; IsochroneCall lat lon;
                ConsoleError "Error getting mapbox isochrone:"])
          | Return [] =>
              (Return (isochrone_error
                 "TypeError: Cannot read properties of undefined (reading 'geometry')"),
               [PlacesCall lat lon; IsochroneCall lat lon;
                ConsoleError "Error getting mapbox isochrone:"])
          | Return (f :: _) =>
              (match iso_coordinates f, features with
               | ring :: _, _ =>
                   Return (Sorted (categorize
                     (filter (fun poi => pointInPolygon (coordinates poi) ring)
                             features) emptyBuckets))
               | [], [] => Return (Sorted emptyBuckets)
               | [], _ :: _ =>
                   Throw "TypeError: Cannot read properties of undefined (reading 'length')"
               end,
               [PlacesCall lat lon; IsochroneCall lat lon])
          end
      end
  end.

Definition set_redis (w : World) (s : Redis.Store) : World :=
  mkWorld s (savedPlaces w) (cachedDb w) (trace w).

(** [!(currentCount && parseInt(currentCount) >= 5)] *)
Definition admits (reply : option Json) : bool :=
  negb (truthy reply && at_least_5 (parseInt reply)).

(** Events of [connectToDatabase]. *)
Definition connect_events (w : World) : list Event :=
  if cachedDb w then [] else [MongoConnect].

(** MongoDB can be reached during this request. *)
Definition connected (env : Env) (w : World) : bool :=
  cachedDb w || mongo_connects env.

Definition set_connected (w : World) (c : bool) : World :=
  mkWorld (redis w) (savedPlaces w) c (trace w).

(** The entry of the durable tier for a coordinate. *)
Definition durable (w : World) (lat lon : Q) : option SavedPlaces :=
  List.find
    (fun d => pair_eqb (generalCoordinates d) (roundCord lat 3, roundCord lon 3))
    (savedPlaces w).

(** The durable tier answers the read of this request. *)
Definition mongo_reads (env : Env) (w : World) : bool :=
  connected env w && mongo_finds env.

(** Events of the first [try] when it does not find the entry. *)
Definition check_events (env : Env) (w : World) (lat lon : Q) : list Event :=
  connect_events w ++
  (if connected env w
   then MongoFindOne (roundCord lat 3, roundCord lon 3) ::
        (if mongo_finds env then []
         else [ConsoleError "MongoDB error during cache check:"])
   else [ConsoleError "MongoDB error during cache check:"]).

(** The world after the inner [try] of the save. *)
Definition saved_world (env : Env) (lat lon : Q) (e : Envelope) (w : World)
  : World :=
  let c := (roundCord lat 3, roundCord lon 3) in
  if connected env w then
    if mongo_inserts env then
      log (mkWorld (redis w)
                   (savedPlaces w ++
                    [mkSavedPlaces e c (now env)
                                   (now env + 4 * 24 * 60 * 60 * 1000)%Z])
                   true (trace w))
          (connect_events w ++ [MongoInsertOne c])
    else
      log (set_connected w true)
          (connect_events w ++
           [MongoInsertOne c; ConsoleError "MongoDB error during save:"])
  else
    log (set_connected w false)
        (connect_events w ++ [ConsoleError "MongoDB error during save:"]).

Definition internal_error : Response :=
  mkResponse 500 (JError "Internal server error" None).

(** What follows [incrementUniqueRequestCount] in the second [try]. *)
Definition finish (env : Env) (req : Request) (w : World)
  : Outcome Response * World :=
  let evs := snd (lookup_outcome env (lat req) (lon req)) in
  match fst (lookup_outcome env (lat req) (lon req)) with
  | Throw _ => (Return internal_error, log w (evs ++ [ConsoleError "Error:"]))
  | Return sortedPoi =>
      match error_of sortedPoi with
      | Some e => (Return (mkResponse 500 (JError e (Some "API_ERROR"))),
                   log w evs)
      | None =>
          let nearbyPlaces := mkEnvelope (lat req, lon req) (ip req) sortedPoi in
          (Return (mkResponse 200 (JPlaces nearbyPlaces)),
           saved_world env (lat req) (lon req) nearbyPlaces
             (log (set_redis w (Redis.set (now env) (redis w)
                                          (cacheKey (lat req) (lon req))
                                          (JPlaces nearbyPlaces) (60 * 60 * 6)))
                  (evs ++ [RedisSet (cacheKey (lat req) (lon req))
                                    (60 * 60 * 6)])))
      end
  end.

Definition miss_log (req : Request) : list Event :=
  [ConsoleLog "Cache miss - checking unique request limit";
   RedisGet (UniqueKey (ip req))].

(** The world in which the fresh lookup starts. *)
Definition after_check (env : Env) (req : Request) (w : World) : World :=
  log (set_connected w (connected env w))
      (RedisGet (cacheKey (lat req) (lon req)) ::
       check_events env w (lat req) (lon req)).

(** What the fast tier and the durable tier answer to a request. *)
Definition fast_hit (env : Env) (req : Request) (w : World) : option Json :=
  Redis.get (now env) (redis w) (cacheKey (lat req) (lon req)).

Definition durable_hit (env : Env) (req : Request) (w : World)
  : option SavedPlaces :=
  if mongo_reads env w then durable w (lat req) (lon req) else None.

(** Both tiers miss: the request is a unique-location lookup. *)
Definition cache_missing (env : Env) (req : Request) (w : World) : bool :=
  match fast_hit env req w, durable_hit env req w with
  | None, None => true
  | _, _ => false
  end.

(** The quota counter of a client, as Redis shows it at time [t]. *)
Definition counter (t : Z) (w : World) (ip0 : string) : option Redis.Entry :=
  Redis.find t (redis w) (UniqueKey ip0).

(** The request was refused by the quota guard. *)
Definition denied (r : Outcome Response) : bool :=
  match r with
  | Return resp => (status resp =? 429)%nat
  | Throw _ => false
  end.

(** The world after the guard let the request through and recorded it. *)
Definition recorded (req : Request) (w : World) (s : Redis.Store)
           (ev : Event) : World :=
  log (set_redis (log w (miss_log req)) s)
      [RedisGet (UniqueKey (ip req)); ev].

(** The requests come at times that do not decrease, from [t] on and
    before [T]. *)
Fixpoint timely (t T : Z) (rs : list (Env * Request)) : Prop :=
  match rs with
  | [] => True
  | (env, _) :: rs' => (t <= now env < T)%Z /\ timely (now env) T rs'
  end.

(** Every request of the run misses both tiers when it is served. *)
Fixpoint all_missing (rs : list (Env * Request)) (w : World) : Prop :=
  match rs with
  | [] => True
  | (env, req) :: rs' =>
      cache_missing env req w = true /\
      all_missing rs' (snd (nearbyPlaces env req w))
  end.

(** Number of unique lookups of client [ip0] that the guard lets through
    during a run. *)
Fixpoint admitted_by (ip0 : string) (rs : list (Env * Request)) (w : World)
  : nat :=
  match rs with
  | [] => 0
  | (env, req) :: rs' =>
      let (r, w') := nearbyPlaces env req w in
      ((if String.eqb (ip req) ip0 && cache_missing env req w
           && negb (denied r)
        then 1 else 0)
       + admitted_by ip0 rs' w')%nat
  end.

(** One hour, in milliseconds. *)
Definition hour : Z := 60 * 60 * 1000.

(** The counter of [ip0] lives until [E] and not longer. *)
Definition expires_at (E : Z) (w : World) (ip0 : string) : Prop :=
  exists n : Z,
    forall t,
      counter t w ip0 =
      if (t <? E)%Z
      then Some (Redis.mkEntry (UniqueKey ip0) (JNumber n) (Some E))
      else None.

Local Open Scope string_scope.

(** ** Polygons, worlds and runs of the examples *)

(** A concave polygon and a point far to the left of all its vertices. *)
Definition arrow : list point :=
  [(0, 0); (4, 2); (0, 4); (2, 2)].

(** A triangle with vertices at [2^700] and beyond. *)
Definition huge_triangle : list point :=
  [(0, 0); (0, 2 ^ 701); (2 ^ 700, 2 ^ 701)].

(** A thin triangle and a point just to the right of it: the doubles
    nearest to the decimals below. *)
Definition sliver : list point :=
  [(round_double (-7913 # 1000), round_double (2365 # 1000));
   (round_double (9266 # 1000000), round_double (396 # 100000000));
   (round_double (-9864 # 1000), round_double (-3005 # 1000))].

Definition beside_sliver : point :=
  (round_double (9266000000000005 # 1000000000000000000),
   round_double (3959999999999999 # 1000000000000000000000)).

Definition shop : POI :=
  mkPOI "Corner shop" (1, 1) ["commercial.supermarket"; "catering.restaurant"].
Definition kebab : POI := mkPOI "Kebab" (1, 2) ["catering.fast_food"].
Definition park : POI := mkPOI "Park" (2, 2) ["leisure.park"].

(** A places provider without results, an isochrone provider that answers
    with the square, and MongoDB up or down. *)
Definition no_places : Q -> Q -> Outcome ProviderData :=
  fun _ _ => Return (mkProviderData (Some []) None "").

Definition square_isochrone : Q -> Q -> Outcome (list IsoFeature) :=
  fun _ _ => Return [mkIsoFeature [square]].

Definition env_at (t : Z) : Env :=
  mkEnv t true true true no_places square_isochrone.

Definition env_mongo_down (t : Z) : Env :=
  mkEnv t false false false no_places square_isochrone.

(** Client [who] asks for the places around latitude [n]. *)
Definition lookup_of (who : string) (n : Z) : Request :=
  mkRequest who (inject_Z n) 0.

(** Three lookups at time 0, then six within two seconds around the end
    of the hour that the first one started. *)
Definition quota_history : list (Env * Request) :=
  [(env_at 0, lookup_of "203.0.113.7" 1);
   (env_at 0, lookup_of "203.0.113.7" 2);
   (env_at 0, lookup_of "203.0.113.7" 3)].

Definition quota_six : list (Env * Request) :=
  [(env_at 3599000, lookup_of "203.0.113.7" 4);
   (env_at 3599000, lookup_of "203.0.113.7" 5);
   (env_at 3601000, lookup_of "203.0.113.7" 6);
   (env_at 3601000, lookup_of "203.0.113.7" 7);
   (env_at 3601000, lookup_of "203.0.113.7" 8);
   (env_at 3601000, lookup_of "203.0.113.7" 9)].

Definition quota_world : World := snd (serve quota_history emptyWorld).

(** Another client has latitude 10 looked up at time 0; six hours later,
    when Redis has dropped the entry, the first client makes five lookups
    and then asks for latitude 10 while MongoDB is down. *)
Definition stale_history : list (Env * Request) :=
  [(env_at 0, lookup_of "198.51.100.2" 10);
   (env_at 21601000, lookup_of "203.0.113.7" 1);
   (env_at 21601000, lookup_of "203.0.113.7" 2);
   (env_at 21601000, lookup_of "203.0.113.7" 3);
   (env_at 21601000, lookup_of "203.0.113.7" 4);
   (env_at 21601000, lookup_of "203.0.113.7" 5)].

Definition stale_world : World := snd (serve stale_history emptyWorld).

(** Six lookups of six places by one client, one per second. *)
Definition six_lookups : list (Env * Request) :=
  [(env_at 0, lookup_of "203.0.113.7" 1);
   (env_at 1000, lookup_of "203.0.113.7" 2);
   (env_at 2000, lookup_of "203.0.113.7" 3);
   (env_at 3000, lookup_of "203.0.113.7" 4);
   (env_at 4000, lookup_of "203.0.113.7" 5);
   (env_at 5000, lookup_of "203.0.113.7" 6)].

(** The counter of a client stands at 3 and expires when the first hour
    ends. *)
Definition expiring_world : World :=
  mkWorld [Redis.mkEntry (UniqueKey "203.0.113.7") (JNumber 3) (Some hour)]
          [] false [].

(** MongoDB holds the places of the square's corner, Redis nothing. *)
Definition corner_places : SavedPlaces :=
  mkSavedPlaces (mkEnvelope (4, 4) "198.51.100.2" (Sorted emptyBuckets))
                (4, 4) 0 345600000.

Definition durable_only : World := mkWorld [] [corner_places] false [].

Definition isochrone_down : Q -> Q -> Outcome (list IsoFeature) :=
  fun _ _ => Throw "AxiosError: Request failed with status code 503".

(** The same outside with another behaviour of MongoDB. *)
Definition with_mongo (env : Env) (connects finds inserts : bool) : Env :=
  mkEnv (now env) connects finds inserts (places_api env) (isochrone_api env).

(** A places provider whose answer has neither [features] nor [error]. *)
Definition exhausted_body : ProviderData :=
  mkProviderData None None "Monthly quota exceeded".

Definition places_exhausted : Q -> Q -> Outcome ProviderData :=
  fun _ _ => Return exhausted_body.

Definition env_exhausted (t : Z) : Env :=
  mkEnv t true true true places_exhausted square_isochrone.

Definition exhausted_envelope : Envelope :=
  mkEnvelope (4, 4) "203.0.113.7" (ProviderBody exhausted_body).

(** ** Rectangles *)

(** A double whose differences with another such double do not
    overflow. *)
Definition tame (v : Q) : Prop := is_double v /\ Qabs v <= 2 ^ 1022.

(** The rectangle with corners [(x0, y0)] and [(x1, y1)], as a ring that
    starts at [(x0, y0)] and goes up first. *)
Definition rectangle (x0 y0 x1 y1 : Q) : list point :=
  [(x0, y0); (x0, y1); (x1, y1); (x1, y0)].

Local Open Scope string_scope.

(** ** Events, tiers and answers *)

(** What a request adds to the trace. *)
Definition events_of (env : Env) (req : Request) (w : World) : list Event :=
  skipn (List.length (trace w)) (trace (snd (nearbyPlaces env req w))).

Definition is_places_call (ev : Event) : bool :=
  match ev with PlacesCall _ _ => true | _ => false end.

Definition is_isochrone_call (ev : Event) : bool :=
  match ev with IsochroneCall _ _ => true | _ => false end.

Definition is_connect (ev : Event) : bool :=
  match ev with MongoConnect => true | _ => false end.

(** Number of events of one kind. *)
Definition calls (f : Event -> bool) (evs : list Event) : nat :=
  List.length (filter f evs).

(** The request gets as far as [getNearbyPlaces]: both tiers miss and the
    counter of the client is absent or a number below five. *)
Definition looked_up (env : Env) (req : Request) (w : World) : bool :=
  cache_missing env req w &&
  match counter (now env) w (ip req) with
  | None => true
  | Some e =>
      match Redis.value e with
      | JNumber n => (n <? 5)%Z
      | _ => false
      end
  end.

(** The events of the save (217-230), from the state of the connection. *)
Definition save_events (env : Env) (connected : bool) (lat lon : Q)
  : list Event :=
  ((if connected then [] else [MongoConnect]) ++
   (if connected || mongo_connects env then
      MongoInsertOne (roundCord lat 3, roundCord lon 3) ::
      (if mongo_inserts env then []
       else [ConsoleError "MongoDB error during save:"])
    else [ConsoleError "MongoDB error during save:"]))%list.

(** An event is a call of one of the two providers. *)
Definition is_provider_call (ev : Event) : bool :=
  is_places_call ev || is_isochrone_call ev.

(** No provider call among the events. *)
Definition quiet (evs : list Event) : Prop :=
  forall ev, In ev evs -> is_provider_call ev = false.

(** Provider calls made while serving the requests of client [ip0]
    during a run. *)
Fixpoint calls_for (f : Event -> bool) (ip0 : string)
         (rs : list (Env * Request)) (w : World) : nat :=
  match rs with
  | [] => 0
  | (env, req) :: rs' =>
      ((if String.eqb (ip req) ip0
        then calls f (events_of env req w) else 0)
       + calls_for f ip0 rs' (snd (nearbyPlaces env req w)))%nat
  end.

(** A supermarket at [(x, y)], a places provider that knows three of
    them, two inside the square and one outside, and the outside at time
    [t] with that provider. *)
Definition market (name : string) (x y : Q) : POI :=
  mkPOI name (x, y) ["commercial.supermarket"].

Definition three_markets : Q -> Q -> Outcome ProviderData :=
  fun _ _ =>
    Return (mkProviderData
              (Some [market "North" 1 3; market "South" 2 1;
                     market "Far" 5 5])
              None "").

Definition env_markets (t : Z) : Env :=
  mkEnv t true true true three_markets square_isochrone.

(** Seven lookups of seven places by one client, one per minute. *)
Definition seven_lookups : list (Env * Request) :=
  map (fun n => (env_markets (60000 * n), lookup_of "203.0.113.7" n))
      [1; 2; 3; 4; 5; 6; 7]%Z.

(** The document that the route stores for an envelope. *)
Definition document (env : Env) (req : Request) (e : Envelope) : SavedPlaces :=
  mkSavedPlaces e (roundCord (lat req) 3, roundCord (lon req) 3) (now env)
                (now env + 4 * 24 * 60 * 60 * 1000)%Z.

(** The envelope of a request for a result of [getNearbyPlaces]. *)
Definition envelope (req : Request) (sortedPoi : LookupResult) : Envelope :=
  mkEnvelope (lat req, lon req) (ip req) sortedPoi.

(** The number that the counter of a client shows at time [t]; [0] when
    there is none. *)
Definition count_of (t : Z) (w : World) (ip0 : string) : Z :=
  match counter t w ip0 with
  | Some e =>
      match Redis.value e with
      | JNumber n => n
      | _ => 0
      end
  | None => 0
  end.


(** What a run of requests adds to the trace. *)
Definition run_events (rs : list (Env * Request)) (w : World) : list Event :=
  skipn (List.length (trace w)) (trace (snd (serve rs w))).

(** A quota key holds a number from one to five, a cache key holds an
    envelope or a document, and both expire. *)
Definition well_formed_entry (e : Redis.Entry) : bool :=
  match Redis.expiry e with
  | None => false
  | Some _ =>
      match Redis.key e, Redis.value e with
      | UniqueKey _, JNumber n => (1 <=? n)%Z && (n <=? 5)%Z
      | NearbyKey _ _, JPlaces _ => true
      | NearbyKey _ _, JSaved _ => true
      | _, _ => false
      end
  end.

Definition well_formed (w : World) : bool :=
  forallb well_formed_entry (redis w).

(** The answers of the route: 200 with an envelope or a document, 429
    with the code of the quota guard, 500 with the code [API_ERROR] or
    without code. *)
Definition expected (r : Outcome Response) : bool :=
  match r with
  | Throw _ => false
  | Return resp =>
      match body resp with
      | JPlaces _ | JSaved _ => (status resp =? 200)%nat
      | JError _ (Some code) =>
          ((status resp =? 429)%nat
           && String.eqb code "UNIQUE_REQUESTS_LIMIT_EXCEEDED")
          || ((status resp =? 500)%nat && String.eqb code "API_ERROR")
      | JError _ None => (status resp =? 500)%nat
      | JNumber _ => false
      end
  end.

(** An isochrone answer of two features, the first with the square as
    its ring and a hole. *)
Definition square_with_hole : Q -> Q -> Outcome (list IsoFeature) :=
  fun _ _ =>
    Return [mkIsoFeature [square; [(1, 1); (1, 3); (3, 3); (3, 1)]];
            mkIsoFeature [[(5, 5); (5, 6); (6, 6)]]].

(** A feature matches one of the five rules. *)
Definition matches (poi : POI) : bool :=
  match first_match (categories poi) with
  | Some _ => true
  | None => false
  end.

Local Open Scope string_scope.

(** ** The second copy of the route, piece by piece *)

(** The [try] of both copies up to the lookup: the guard, then what
    follows it, then the [catch]. *)
Definition guarded (env : Env) (req : Request) (rest : M Response)
  : M Response :=
  try_catch
    (console_log "Cache miss - checking unique request limit" ;;
     canMakeUniqueRequest <- checkUniqueRequestLimit env (ip req) ;;
     if negb canMakeUniqueRequest then ret (mkResponse 429 quota_error)
     else incrementUniqueRequestCount env (now env) (ip req) ;; rest)%M
    (fun error =>
       console_error "Error:" ;;
       ret (mkResponse 500 (JError "Internal server error" None)))%M.

(** What follows the guard in the second copy. *)
Definition lookup_and_store (env : Env) (req : Request) : M Response :=
  (sortedPoi <- getNearbyPlaces env (lat req) (lon req) ;;
   match error_of sortedPoi with
   | Some e => ret (mkResponse 500 (JError e (Some "API_CREDITS_EXCEEDED")))
   | None =>
       let nearbyPlaces := mkEnvelope (lat req, lon req) (ip req) sortedPoi in
       redis_set env (cacheKey (lat req) (lon req))
                 (JPlaces nearbyPlaces) (60 * 60 * 6) ;;
       insertOne env
         (mkSavedPlaces nearbyPlaces
                        (roundCord (lat req) 3, roundCord (lon req) 3)
                        (now env)
                        (now env + 4 * 24 * 60 * 60 * 1000)%Z) ;;
       ret (mkResponse 200 (JPlaces nearbyPlaces))
   end)%M.

(** The [catch]. *)
Definition caught (r : Outcome Response * World) : Outcome Response * World :=
  match r with
  | (Return a, w) => (Return a, w)
  | (Throw _, w) => (Return internal_error, log w [ConsoleError "Error:"])
  end.

(** What follows the guard in the second copy, as a function of the
    provider answers. *)
Definition finish2 (env : Env) (req : Request) (w : World)
  : Outcome Response * World :=
  let evs := snd (lookup_outcome env (lat req) (lon req)) in
  match fst (lookup_outcome env (lat req) (lon req)) with
  | Throw e => (Throw e, log w evs)
  | Return sortedPoi =>
      match error_of sortedPoi with
      | Some e =>
          (Return (mkResponse 500 (JError e (Some "API_CREDITS_EXCEEDED"))),
           log w evs)
      | None =>
          let nearbyPlaces := envelope req sortedPoi in
          let w1 :=
            log (set_redis w (Redis.set (now env) (redis w)
                                        (cacheKey (lat req) (lon req))
                                        (JPlaces nearbyPlaces) (60 * 60 * 6)))
                (evs ++ [RedisSet (cacheKey (lat req) (lon req)) (60 * 60 * 6);
                         MongoInsertOne (roundCord (lat req) 3,
                                         roundCord (lon req) 3)])%list in
          if mongo_inserts env then
            (Return (mkResponse 200 (JPlaces nearbyPlaces)),
             mkWorld (redis w1)
                     (savedPlaces w1 ++ [document env req nearbyPlaces])%list
                     (cachedDb w1) (trace w1))
          else (Throw "MongoServerError", w1)
      end
  end.

(** The request as the second copy reads it. *)
Definition read_by_copy2 (clientIp : string) (req : Request) : Request :=
  mkRequest clientIp (lat req) (lon req).

Local Close Scope string_scope.

(** * Binary64 numbers: proofs *)

(** ** Comparisons *)

Lemma Qgtb_true a b : Qgtb a b = true <-> b < a.
Proof.
  unfold Qgtb. rewrite negb_true_iff, <- not_true_iff_false, Qle_bool_iff.
  split; [apply Qnot_le_lt | apply Qlt_not_le].
Qed.

Lemma Qgtb_false a b : Qgtb a b = false <-> a <= b.
Proof.
  unfold Qgtb. rewrite negb_false_iff, Qle_bool_iff. tauto.
Qed.

Lemma Qltb_true a b : Qltb a b = true <-> a < b.
Proof. apply Qgtb_true. Qed.

Lemma Qltb_false a b : Qltb a b = false <-> b <= a.
Proof. apply Qgtb_false. Qed.

(** ** Powers of two and absolute values *)

Lemma two_neq_0 : ~ 2 == 0.
Proof. discriminate. Qed.

Lemma pow2_pos (e : Z) : 0 < 2 ^ e.
Proof. now apply Qpower_0_lt. Qed.

Lemma pow2_add (a b : Z) : 2 ^ (a + b) == 2 ^ a * 2 ^ b.
Proof. apply Qpower_plus, two_neq_0. Qed.

Lemma pow2_succ (a : Z) : 2 ^ (a + 1) == 2 * 2 ^ a.
Proof. rewrite pow2_add. change (2 ^ 1) with 2. ring. Qed.

Lemma pow2_mono (a b : Z) : (a <= b)%Z -> 2 ^ a <= 2 ^ b.
Proof. intros H. apply Qpower_le_compat_l; [assumption | discriminate]. Qed.

Lemma pow2_mono_lt (a b : Z) : (a < b)%Z -> 2 ^ a < 2 ^ b.
Proof. intros H. apply Qpower_lt_compat_l; [assumption | reflexivity]. Qed.

Lemma pow2_Z (a : Z) : (0 <= a)%Z -> inject_Z (2 ^ a) == 2 ^ a.
Proof. intros H. now rewrite Zpower_Qpower. Qed.

Lemma Qabs_cases (x : Q) :
  (0 <= x /\ Qabs x == x) \/ (x <= 0 /\ Qabs x == - x).
Proof.
  destruct (Qlt_le_dec x 0) as [H|H].
  - right. split; [lra | apply Qabs_neg; lra].
  - left. split; [lra | now apply Qabs_pos].
Qed.

(** Replaces every absolute value by a variable with its two cases. *)
Ltac qabs :=
  repeat match goal with
         | |- context [Qabs ?t] =>
             let H := fresh "A" in let a := fresh "a" in
             destruct (Qabs_cases t) as [[? H]|[? H]];
             revert H; generalize (Qabs t); intros a H
         | H0 : context [Qabs ?t] |- _ =>
             let H := fresh "A" in let a := fresh "a" in
             destruct (Qabs_cases t) as [[? H]|[? H]];
             revert H0 H; generalize (Qabs t); intros a H0 H
         end.

(** ** Rounding to an integer *)

Lemma Qfloor_bounds (q : Q) :
  inject_Z (Qfloor q) <= q < inject_Z (Qfloor q) + 1.
Proof.
  split; [apply Qfloor_le|].
  pose proof (Qlt_floor q) as H. now rewrite inject_Z_plus in H.
Qed.

Lemma round_half_even_cases (q : Q) :
  let f := Qfloor q in
  (round_half_even q = f /\ q - inject_Z f <= 1 # 2) \/
  (round_half_even q = (f + 1)%Z /\ (1 # 2) <= q - inject_Z f).
Proof.
  cbv zeta. unfold round_half_even.
  destruct (Qcompare_spec (q - inject_Z (Qfloor q)) (1 # 2)) as [E|L|G].
  - destruct (Z.even (Qfloor q)); [left | right]; split; auto; lra.
  - left. split; [reflexivity | lra].
  - right. split; [reflexivity | lra].
Qed.

(** [round_half_even q] is an integer closest to [q]. *)
Lemma round_half_even_nearest (q : Q) (k : Z) :
  Qabs (inject_Z (round_half_even q) - q) <= Qabs (inject_Z k - q).
Proof.
  pose proof (Qfloor_bounds q) as [Hl Hu].
  assert (Hk : (k <= Qfloor q)%Z \/ (Qfloor q + 1 <= k)%Z) by lia.
  rewrite !Zle_Qle, inject_Z_plus in Hk.
  change (inject_Z 1) with 1 in Hk.
  destruct (round_half_even_cases q) as [[-> H]|[-> H]];
    rewrite ?inject_Z_plus; change (inject_Z 1) with 1;
    qabs; lra.
Qed.

Lemma round_half_even_half (q : Q) :
  Qabs (inject_Z (round_half_even q) - q) <= 1 # 2.
Proof.
  pose proof (Qfloor_bounds q) as [Hl Hu].
  destruct (round_half_even_cases q) as [[-> H]|[-> H]];
    rewrite ?inject_Z_plus; change (inject_Z 1) with 1;
    qabs; lra.
Qed.

#[global] Instance round_half_even_comp : Proper (Qeq ==> eq) round_half_even.
Proof.
  intros q q' E. unfold round_half_even.
  rewrite (Qfloor_comp q q' E).
  assert (C : Qcompare (q - inject_Z (Qfloor q')) (1 # 2) =
              Qcompare (q' - inject_Z (Qfloor q')) (1 # 2))
    by (apply Qcompare_comp; [now rewrite E | reflexivity]).
  now rewrite C.
Qed.

(** ** The binary exponent of a positive number *)

Lemma Qfloor_log2_spec (q : Q) :
  0 < q -> 2 ^ Qfloor_log2 q <= q < 2 ^ (Qfloor_log2 q + 1).
Proof.
  intros Hq. unfold Qfloor_log2.
  destruct q as [n d]. cbn [Qnum Qden].
  assert (Hn : (0 < n)%Z) by (unfold Qlt in Hq; cbn in Hq; lia).
  set (a := Z.log2 n). set (b := Z.log2 (Zpos d)).
  assert (Ha : (0 <= a)%Z) by apply Z.log2_nonneg.
  assert (Hb : (0 <= b)%Z) by apply Z.log2_nonneg.
  destruct (Z.log2_spec n Hn) as [Ha1 Ha2]. fold a in Ha1, Ha2.
  destruct (Z.log2_spec (Zpos d) (Pos2Z.is_pos d)) as [Hb1 Hb2].
  fold b in Hb1, Hb2.
  rewrite Zle_Qle in Ha1, Hb1. rewrite Zlt_Qlt in Ha2, Hb2.
  rewrite pow2_Z in Ha1, Ha2, Hb1, Hb2 by lia.
  change (Z.succ a) with (a + 1)%Z in Ha2.
  change (Z.succ b) with (b + 1)%Z in Hb2.
  rewrite pow2_succ in Ha2, Hb2.
  pose proof (pow2_pos a) as Pa. pose proof (pow2_pos b) as Pb.
  pose proof (pow2_pos (a - b)) as Pk.
  assert (Ek : 2 ^ (a - b) * 2 ^ b == 2 ^ a)
    by (rewrite <- pow2_add; now replace (a - b + b)%Z with a by ring).
  assert (Ek1 : 2 * 2 ^ (a - b - 1) == 2 ^ (a - b))
    by (rewrite <- pow2_succ; now replace (a - b - 1 + 1)%Z with (a - b)%Z
          by ring).
  assert (Eq : (n # d) * inject_Z (Zpos d) == inject_Z n)
    by (rewrite Qmake_Qdiv; field; discriminate).
  assert (Pd : 0 < inject_Z (Zpos d)) by reflexivity.
  assert (R : 2 ^ (a - b) <= (n # d) -> (n # d) < 2 * 2 ^ (a - b)).
  { revert Ha1 Ha2 Hb1 Hb2 Ek Ek1 Eq Pd Pa Pb Pk Hq.
    generalize (inject_Z n) (inject_Z (Zpos d)) (2 ^ a) (2 ^ b)
               (2 ^ (a - b)) (n # d).
    intros N D A B K q. intros. nra. }
  assert (R' : (n # d) < 2 ^ (a - b) -> 2 ^ (a - b - 1) <= (n # d)).
  { revert Ha1 Ha2 Hb1 Hb2 Ek Ek1 Eq Pd Pa Pb Pk Hq.
    generalize (inject_Z n) (inject_Z (Zpos d)) (2 ^ a) (2 ^ b)
               (2 ^ (a - b)) (2 ^ (a - b - 1)) (n # d).
    intros N D A B K K1 q. intros. nra. }
  destruct (Qle_bool (2 ^ (a - b)) (n # d)) eqn:C.
  - apply Qle_bool_iff in C. split; [exact C|].
    rewrite pow2_succ. auto.
  - assert (C' : (n # d) < 2 ^ (a - b)).
    { apply Qnot_le_lt. intros H. apply Qle_bool_iff in H. congruence. }
    replace (a - b - 1 + 1)%Z with (a - b)%Z by ring.
    split; auto.
Qed.

Lemma floor_log2_unique (q : Q) (k k' : Z) :
  2 ^ k <= q < 2 ^ (k + 1) -> 2 ^ k' <= q < 2 ^ (k' + 1) -> k = k'.
Proof.
  intros [H1 H2] [H1' H2'].
  destruct (Z.lt_trichotomy k k') as [L|[E|L]]; [exfalso | exact E | exfalso].
  - pose proof (pow2_mono (k + 1) k' ltac:(lia)). lra.
  - pose proof (pow2_mono (k' + 1) k ltac:(lia)). lra.
Qed.

Lemma Qfloor_log2_comp (q q' : Q) :
  0 < q -> q == q' -> Qfloor_log2 q = Qfloor_log2 q'.
Proof.
  intros Hq E.
  assert (Hq' : 0 < q') by now rewrite <- E.
  pose proof (Qfloor_log2_spec q Hq) as S.
  pose proof (Qfloor_log2_spec q' Hq') as S'.
  apply (floor_log2_unique q'); [|exact S'].
  destruct S as [S1 S2]. split; lra.
Qed.

Lemma ulp_exp_comp (q q' : Q) : ~ q == 0 -> q == q' -> ulp_exp q = ulp_exp q'.
Proof.
  intros Hq E. unfold ulp_exp.
  rewrite (Qfloor_log2_comp (Qabs q) (Qabs q')); [reflexivity | | now rewrite E].
  destruct (Qabs_cases q) as [[? A]|[? A]]; rewrite A;
    destruct (Qlt_le_dec 0 q), (Qlt_le_dec q 0); try lra;
    exfalso; apply Hq; lra.
Qed.

#[global] Instance round_double_comp : Proper (Qeq ==> Qeq) round_double.
Proof.
  intros q q' E. unfold round_double.
  rewrite (Qeqb_comp q q' E 0 0 (Qeq_refl 0)).
  destruct (Qeq_bool q' 0) eqn:Z0; [reflexivity|].
  assert (Hq : ~ q == 0)
    by (rewrite E; intros H; apply Qeq_bool_iff in H; congruence).
  rewrite (ulp_exp_comp q q' Hq E).
  now rewrite E.
Qed.

(** ** Rounding to the nearest double *)

Lemma is_double_on_grid (x : Q) : is_double x -> on_grid x.
Proof. intros (m & e & Hm & He & E). exists m, e. repeat split; tauto || lia. Qed.

Lemma round_double_nonzero (q : Q) :
  ~ q == 0 ->
  round_double q =
  inject_Z (round_half_even (q / 2 ^ ulp_exp q)) * 2 ^ ulp_exp q.
Proof.
  intros H. unfold round_double.
  destruct (Qeq_bool q 0) eqn:E; [|reflexivity].
  now apply Qeq_bool_iff in E.
Qed.

(** Among the multiples of [s], the rounded one is closest to [q]. *)
Lemma nearest_multiple (q s : Q) (k : Z) :
  0 < s ->
  Qabs (inject_Z (round_half_even (q / s)) * s - q) <=
  Qabs (inject_Z k * s - q).
Proof.
  intros Hs. pose proof (round_half_even_nearest (q / s) k) as H.
  assert (E : forall z : Q, z * s - q == (z - q / s) * s)
    by (intros z; field; lra).
  rewrite !E, !Qabs_Qmult, (Qabs_pos s) by lra.
  now apply Qmult_le_r.
Qed.

Lemma Qabs_inject_Z (m : Z) : Qabs (inject_Z m) == inject_Z (Z.abs m).
Proof. reflexivity. Qed.

Lemma ulp_exp_spec (q : Q) :
  ~ q == 0 ->
  (-1074 <= ulp_exp q)%Z /\
  Qabs q < 2 ^ (ulp_exp q + 53) /\
  ((-1074 < ulp_exp q)%Z -> 2 ^ (ulp_exp q + 52) <= Qabs q).
Proof.
  intros Hq.
  assert (Ha : 0 < Qabs q)
    by (destruct (Qabs_cases q) as [[? A]|[? A]]; rewrite A;
        destruct (Qlt_le_dec 0 q), (Qlt_le_dec q 0); try lra;
        exfalso; apply Hq; lra).
  destruct (Qfloor_log2_spec (Qabs q) Ha) as [L1 L2].
  unfold ulp_exp. set (L := Qfloor_log2 (Qabs q)) in *.
  split; [lia|]. split.
  - eapply Qlt_le_trans; [exact L2|]. apply pow2_mono. lia.
  - intros H. replace (Z.max (L - 52) (-1074) + 52)%Z with L by lia.
    exact L1.
Qed.

(** No number of the grid is closer to [q] than [round_double q]. *)
Lemma round_double_nearest (q x : Q) :
  on_grid x -> Qabs (round_double q - q) <= Qabs (x - q).
Proof.
  intros (m & e' & Hm & He' & Ex).
  destruct (Qeq_dec q 0) as [Z0|Hq].
  - assert (R0 : round_double q == 0)
      by (rewrite (round_double_comp q 0 Z0); reflexivity).
    rewrite R0, Z0. apply Qabs_nonneg.
  - rewrite (round_double_nonzero q Hq).
    destruct (ulp_exp_spec q Hq) as (He & _ & Hlow).
    set (e := ulp_exp q) in *.
    pose proof (pow2_pos e) as Ps.
    destruct (Z.le_gt_cases e e') as [Hle|Hgt].
    + (* [x] is a multiple of [2^e] *)
      assert (Ek : x == inject_Z (m * 2 ^ (e' - e)) * 2 ^ e).
      { rewrite Ex, inject_Z_mult, pow2_Z by lia.
        rewrite <- Qmult_assoc, <- pow2_add.
        now replace (e' - e + e)%Z with e' by ring. }
      rewrite Ek. now apply nearest_multiple.
    + (* [x] is smaller in size than every number with exponent [e] *)
      specialize (Hlow ltac:(lia)).
      assert (Ec : inject_Z (2 ^ 52) * 2 ^ e == 2 ^ (e + 52))
        by (rewrite pow2_Z, <- pow2_add by lia; now rewrite Z.add_comm).
      assert (Hx : Qabs x < 2 ^ (e + 52)).
      { rewrite Ex, Qabs_Qmult, Qabs_inject_Z, (Qabs_pos (2 ^ e')) by
          (apply Qlt_le_weak, pow2_pos).
        assert (H1 : inject_Z (Z.abs m) <= inject_Z (2 ^ 53 - 1))
          by (rewrite <- Zle_Qle; lia).
        assert (H0 : 0 <= inject_Z (Z.abs m))
          by (change 0 with (inject_Z 0); rewrite <- Zle_Qle; lia).
        assert (H2 : 2 ^ e' <= 2 ^ (e - 1)) by (apply pow2_mono; lia).
        assert (H3 : 2 ^ (e + 52) == inject_Z (2 ^ 53) * 2 ^ (e - 1))
          by (rewrite pow2_Z, <- pow2_add by lia; f_equiv; ring).
        assert (H4 : inject_Z (2 ^ 53 - 1) == inject_Z (2 ^ 53) - 1)
          by reflexivity.
        pose proof (pow2_pos e') as P'. pose proof (pow2_pos (e - 1)) as P1.
        rewrite H3. revert H0 H1 H2 H4 P' P1.
        generalize (inject_Z (Z.abs m)) (inject_Z (2 ^ 53 - 1))
                   (inject_Z (2 ^ 53)) (2 ^ e') (2 ^ (e - 1)).
        intros a i j p' p1 H0 H1 H2 H4 P' P1.
        assert (S1 : a * p' <= i * p') by nra.
        assert (S2 : i * p' <= i * p1) by nra.
        nra. }
      destruct (Qlt_le_dec 0 q) as [Pq|Nq].
      * pose proof (nearest_multiple q (2 ^ e) (2 ^ 52) Ps) as N.
        rewrite Ec in N. revert N Hx Hlow.
        generalize (inject_Z (round_half_even (q / 2 ^ e)) * 2 ^ e)
                   (2 ^ (e + 52)).
        intros r c N Hx Hlow. qabs; lra.
      * pose proof (nearest_multiple q (2 ^ e) (- 2 ^ 52) Ps) as N.
        assert (Ec' : inject_Z (- 2 ^ 52) * 2 ^ e == - 2 ^ (e + 52))
          by (rewrite <- Ec; change (inject_Z (- 2 ^ 52))
                with (- inject_Z (2 ^ 52)); ring).
        rewrite Ec' in N. revert N Hx Hlow.
        generalize (inject_Z (round_half_even (q / 2 ^ e)) * 2 ^ e)
                   (2 ^ (e + 52)).
        intros r c N Hx Hlow. qabs; lra.
Qed.

(** A number of the grid is its own rounding. *)
Lemma round_double_fixed (x : Q) : on_grid x -> round_double x == x.
Proof.
  intros H. pose proof (round_double_nearest x x H) as N.
  revert N. generalize (round_double x). intros r N. qabs; lra.
Qed.

Lemma round_double_on_grid (q : Q) : on_grid (round_double q).
Proof.
  destruct (Qeq_dec q 0) as [Z0|Hq].
  - exists 0%Z, 0%Z. repeat split; try lia.
    rewrite (round_double_comp q 0 Z0). reflexivity.
  - rewrite (round_double_nonzero q Hq).
    destruct (ulp_exp_spec q Hq) as (He & Hup & _).
    set (e := ulp_exp q) in *.
    pose proof (pow2_pos e) as Ps.
    set (m := round_half_even (q / 2 ^ e)).
    assert (Hm : (Z.abs m <= 2 ^ 53)%Z).
    { pose proof (round_half_even_half (q / 2 ^ e)) as Hh. fold m in Hh.
      assert (Eq : Qabs (q / 2 ^ e) * 2 ^ e == Qabs q).
      { unfold Qdiv. rewrite Qabs_Qmult, Qabs_Qinv, (Qabs_pos (2 ^ e)) by lra.
        field. lra. }
      assert (E53 : 2 ^ (e + 53) == inject_Z (2 ^ 53) * 2 ^ e)
        by (rewrite pow2_Z, <- pow2_add by lia; now rewrite Z.add_comm).
      assert (Hlt : inject_Z (Z.abs m) < inject_Z (2 ^ 53 + 1)).
      { rewrite <- Qabs_inject_Z, inject_Z_plus.
        change (inject_Z 1) with 1.
        rewrite E53 in Hup. revert Hh Eq Hup.
        generalize (inject_Z (2 ^ 53)) (inject_Z m) (q / 2 ^ e).
        intros c z t Hh Eq Hup.
        assert (Ht : Qabs t < c) by nra.
        clear Eq Hup. qabs; lra. }
      rewrite <- Zlt_Qlt in Hlt. lia. }
    destruct (Z.eq_dec (Z.abs m) (2 ^ 53)) as [Eq|Ne].
    + assert (m = (2 ^ 53)%Z \/ m = (- 2 ^ 53)%Z) as [-> | ->] by lia.
      * exists (2 ^ 52)%Z, (e + 1)%Z. repeat split; try lia.
        rewrite pow2_succ. change (inject_Z (2 ^ 53)) with (2 * inject_Z (2 ^ 52)).
        ring.
      * exists (- 2 ^ 52)%Z, (e + 1)%Z. repeat split; try lia.
        rewrite pow2_succ.
        change (inject_Z (- 2 ^ 53)) with (2 * inject_Z (- 2 ^ 52)).
        ring.
    + exists m, e. repeat split; try lia; reflexivity.
Qed.

(** Every number of the grid is a multiple of [2^-1074]. *)
Lemma on_grid_multiple (x : Q) :
  on_grid x -> exists z : Z, x * 2 ^ 1074 == inject_Z z.
Proof.
  intros (m & e & _ & He & E). exists (m * 2 ^ (e + 1074))%Z.
  rewrite E, inject_Z_mult, pow2_Z by lia.
  rewrite <- Qmult_assoc, <- pow2_add. reflexivity.
Qed.

(** Two numbers of the grid are never [1 / 10^p] apart, for [p >= 1]:
    [10^p] does not divide a power of two. *)
Lemma grid_step (x y : Q) (p : Z) :
  (1 <= p)%Z -> on_grid x -> on_grid y -> ~ (y - x) * 10 ^ p == 1.
Proof.
  intros Hp Hx Hy E.
  destruct (on_grid_multiple x Hx) as [zx Ex].
  destruct (on_grid_multiple y Hy) as [zy Ey].
  assert (E10 : 10 ^ p == inject_Z (10 ^ p))
    by (rewrite Zpower_Qpower by lia; reflexivity).
  assert (E2 : 2 ^ 1074 == inject_Z (2 ^ 1074))
    by (rewrite pow2_Z by lia; reflexivity).
  assert (K : inject_Z ((zy - zx) * 10 ^ p) == inject_Z (2 ^ 1074)).
  { rewrite inject_Z_mult. unfold Z.sub.
    rewrite inject_Z_plus, inject_Z_opp, <- Ex, <- Ey, <- E10, <- E2.
    transitivity ((y - x) * 10 ^ p * 2 ^ 1074); [ring|].
    rewrite E. ring. }
  apply (proj1 (inject_Z_injective _ _)) in K.
  assert (D : (5 | 2 ^ 1074)%Z).
  { rewrite <- K. apply Z.divide_mul_r.
    replace p with (1 + (p - 1))%Z by ring.
    rewrite Z.pow_add_r by lia. apply Z.divide_mul_l.
    exists 2%Z. reflexivity. }
  apply Z.mod_divide in D; [|lia].
  revert D. vm_compute. discriminate.
Qed.

Lemma round_double_monotone (q q' : Q) :
  q <= q' -> round_double q <= round_double q'.
Proof.
  intros H.
  destruct (Qlt_le_dec (round_double q') (round_double q)) as [C|C];
    [|exact C].
  exfalso.
  pose proof (round_double_nearest q (round_double q')
                (round_double_on_grid q')) as N1.
  pose proof (round_double_nearest q' (round_double q)
                (round_double_on_grid q)) as N2.
  assert (E : q == q').
  { revert N1 N2 C. generalize (round_double q) (round_double q').
    intros a b N1 N2 C. qabs; lra. }
  rewrite E in C. lra.
Qed.

(** ** The size of a rounding error *)

Lemma on_grid_0 : on_grid 0.
Proof. exists 0%Z, 0%Z. split; [reflexivity|]. split; [lia | reflexivity]. Qed.

Lemma on_grid_opp (x : Q) : on_grid x -> on_grid (- x).
Proof.
  intros (m & e & Hm & He & E). exists (- m)%Z, e.
  repeat split; [lia | lia |]. rewrite E, inject_Z_opp. ring.
Qed.

Lemma round_double_0 : round_double 0 == 0.
Proof. reflexivity. Qed.

(** A rounded number is at most twice as large as the exact one. *)
Lemma round_double_le2 (z : Q) : Qabs (round_double z) <= 2 * Qabs z.
Proof.
  pose proof (round_double_nearest z 0 on_grid_0) as N.
  revert N. generalize (round_double z). intros r N. qabs; lra.
Qed.

Lemma round_double_nonneg (z : Q) : 0 <= z -> 0 <= round_double z.
Proof.
  intros H. rewrite <- round_double_0. now apply round_double_monotone.
Qed.

Lemma round_double_nonpos (z : Q) : z <= 0 -> round_double z <= 0.
Proof.
  intros H. rewrite <- round_double_0. now apply round_double_monotone.
Qed.

(** Half a unit in the last place: [2^-53] of the number, or [2^-1075]
    among the subnormals. *)
Lemma round_double_error (z : Q) :
  Qabs (round_double z - z) <= 2 ^ (-53) * Qabs z \/
  Qabs (round_double z - z) <= 2 ^ (-1075).
Proof.
  destruct (Qeq_dec z 0) as [Z0|Hz].
  - left. rewrite (round_double_comp z 0 Z0), Z0. cbn. lra.
  - rewrite (round_double_nonzero z Hz).
    destruct (ulp_exp_spec z Hz) as (He & _ & Hlow).
    set (e := ulp_exp z) in *.
    pose proof (pow2_pos e) as Ps.
    pose proof (round_half_even_half (z / 2 ^ e)) as Hh.
    assert (Ez : forall k : Q, k * 2 ^ e - z == (k - z / 2 ^ e) * 2 ^ e)
      by (intros k; field; lra).
    assert (Hb : Qabs (inject_Z (round_half_even (z / 2 ^ e)) * 2 ^ e - z)
                 <= (1 # 2) * 2 ^ e).
    { rewrite Ez, Qabs_Qmult, (Qabs_pos (2 ^ e)) by lra.
      apply Qmult_le_r; assumption. }
    assert (Eh : (1 # 2) * 2 ^ e == 2 ^ (e - 1)).
    { replace e with (e - 1 + 1)%Z at 1 by ring. rewrite pow2_succ. ring. }
    rewrite Eh in Hb.
    destruct (Z.eq_dec e (-1074)) as [E|N].
    + right. replace (-1075)%Z with (e - 1)%Z by lia. exact Hb.
    + left. specialize (Hlow ltac:(lia)).
      eapply Qle_trans; [exact Hb|].
      assert (Es : 2 ^ (e - 1) == 2 ^ (-53) * 2 ^ (e + 52))
        by (rewrite <- pow2_add;
            now replace (-53 + (e + 52))%Z with (e - 1)%Z by lia).
      rewrite Es. apply Qmult_le_l; [apply pow2_pos | exact Hlow].
Qed.

(** The sum of two doubles is rounded with a relative error of [2^-53]:
    among the subnormals it is a double itself. *)
Lemma grid_sum_error (x y : Q) :
  on_grid x -> on_grid y ->
  Qabs (round_double (x + y) - (x + y)) <= 2 ^ (-53) * Qabs (x + y).
Proof.
  intros Hx Hy.
  destruct (on_grid_multiple x Hx) as [zx Ex].
  destruct (on_grid_multiple y Hy) as [zy Ey].
  set (z := x + y).
  assert (En : z == inject_Z (zx + zy) * 2 ^ (-1074)).
  { rewrite inject_Z_plus, <- Ex, <- Ey. unfold z.
    transitivity ((x + y) * (2 ^ 1074 * 2 ^ (-1074))); [|ring].
    rewrite <- pow2_add. change (2 ^ (1074 + -1074)) with 1. ring. }
  pose proof (pow2_pos (-1074)) as P.
  destruct (Z.lt_ge_cases (Z.abs (zx + zy)) (2 ^ 52)) as [Small|Large].
  - assert (G : on_grid z).
    { exists (zx + zy)%Z, (-1074)%Z. repeat split; [lia | lia | exact En]. }
    rewrite (round_double_fixed z G).
    setoid_replace (z - z) with 0 by ring.
    change (Qabs 0) with 0.
    apply Qmult_le_0_compat; [apply Qlt_le_weak, pow2_pos | apply Qabs_nonneg].
  - assert (Hz : 2 ^ (-1022) <= Qabs z).
    { rewrite En, Qabs_Qmult, Qabs_inject_Z, (Qabs_pos (2 ^ (-1074))) by lra.
      assert (E52 : 2 ^ (-1022) == inject_Z (2 ^ 52) * 2 ^ (-1074))
        by (rewrite pow2_Z, <- pow2_add by lia; reflexivity).
      rewrite E52. apply Qmult_le_r; [exact P|].
      rewrite <- Zle_Qle. lia. }
    destruct (round_double_error z) as [H|H]; [exact H|].
    eapply Qle_trans; [exact H|].
    assert (E75 : 2 ^ (-1075) == 2 ^ (-53) * 2 ^ (-1022))
      by (rewrite <- pow2_add; reflexivity).
    rewrite E75. apply Qmult_le_l; [apply pow2_pos | exact Hz].
Qed.

Lemma grid_diff_error (x y : Q) :
  on_grid x -> on_grid y ->
  Qabs (round_double (x - y) - (x - y)) <= 2 ^ (-53) * Qabs (x - y).
Proof.
  intros Hx Hy. apply (grid_sum_error x (- y) Hx (on_grid_opp y Hy)).
Qed.

(** The difference of two distinct doubles does not round to zero. *)
Lemma grid_diff_nonzero (x y : Q) :
  on_grid x -> on_grid y -> ~ x == y -> ~ round_double (x - y) == 0.
Proof.
  intros Hx Hy Ne E.
  pose proof (grid_diff_error x y Hx Hy) as H. rewrite E in H.
  assert (U : 2 ^ (-53) <= 1 # 2).
  { change (1 # 2) with (2 ^ (-1)). apply pow2_mono. lia. }
  pose proof (pow2_pos (-53)) as P.
  revert H U P. generalize (2 ^ (-53)). intros u H U P.
  assert (Hz : ~ x - y == 0) by (intros K; apply Ne; lra).
  revert H Hz. generalize (x - y). intros z H Hz.
  assert (A : Qabs (0 - z) == Qabs z)
    by (setoid_replace (0 - z) with (- z) by ring; apply Qabs_opp).
  rewrite A in H.
  assert (Pz : 0 < Qabs z).
  { destruct (Qabs_cases z) as [[? K]|[? K]]; rewrite K;
      destruct (Qlt_le_dec 0 z), (Qlt_le_dec z 0); try lra;
      exfalso; apply Hz; lra. }
  revert H Pz. generalize (Qabs z). intros a H Pz. nra.
Qed.

(** ** Numbers *)

Lemma on_grid_pow2 (e : Z) : (-1074 <= e)%Z -> on_grid (2 ^ e).
Proof.
  intros H. exists 1%Z, e. split; [reflexivity|]. split; [exact H|].
  change (inject_Z 1) with 1. ring.
Qed.

(** Up to [2^1023] nothing overflows. *)
Lemma fl_finite (q : Q) :
  Qabs q <= 2 ^ 1023 -> fl q = Finite (round_double q).
Proof.
  intros H. unfold fl.
  destruct (Qle_bool (2 ^ 1024) (Qabs (round_double q))) eqn:C;
    [|reflexivity].
  exfalso. apply Qle_bool_iff in C.
  assert (G : on_grid (2 ^ 1023)) by (apply on_grid_pow2; lia).
  pose proof (round_double_fixed _ G) as F1.
  pose proof (round_double_fixed _ (on_grid_opp _ G)) as F2.
  assert (U : round_double q <= round_double (2 ^ 1023))
    by (apply round_double_monotone; revert H; qabs; lra).
  assert (L : round_double (- 2 ^ 1023) <= round_double q)
    by (apply round_double_monotone; revert H; qabs; lra).
  pose proof (pow2_mono_lt 1023 1024 ltac:(lia)) as P.
  revert C F1 F2 U L P.
  generalize (round_double q) (round_double (2 ^ 1023))
             (round_double (- 2 ^ 1023)) (2 ^ 1023) (2 ^ 1024).
  intros r a b c d. intros. revert C. qabs; lra.
Qed.

Lemma is_double_bound (x : Q) : is_double x -> Qabs x < 2 ^ 1024.
Proof.
  intros (m & e & Hm & He & E).
  rewrite E, Qabs_Qmult, Qabs_inject_Z, (Qabs_pos (2 ^ e))
    by (apply Qlt_le_weak, pow2_pos).
  assert (H1 : inject_Z (Z.abs m) < inject_Z (2 ^ 53))
    by (rewrite <- Zlt_Qlt; lia).
  assert (H0 : 0 <= inject_Z (Z.abs m))
    by (change 0 with (inject_Z 0); rewrite <- Zle_Qle; lia).
  assert (H2 : 2 ^ e <= 2 ^ 971) by (apply pow2_mono; lia).
  assert (H3 : 2 ^ 1024 == inject_Z (2 ^ 53) * 2 ^ 971)
    by (rewrite pow2_Z, <- pow2_add by lia; reflexivity).
  pose proof (pow2_pos e) as P.
  rewrite H3. revert H0 H1 H2 P.
  generalize (inject_Z (Z.abs m)) (inject_Z (2 ^ 53)) (2 ^ e) (2 ^ 971).
  intros a b c d H0 H1 H2 P. nra.
Qed.

(** A double denotes itself. *)
Lemma num_double (x : Q) :
  is_double x -> num x = Finite (round_double x) /\ round_double x == x.
Proof.
  intros D.
  pose proof (round_double_fixed x (is_double_on_grid x D)) as F.
  split; [|exact F]. unfold num, fl.
  destruct (Qle_bool (2 ^ 1024) (Qabs (round_double x))) eqn:C;
    [|reflexivity].
  exfalso. apply Qle_bool_iff in C. rewrite F in C.
  pose proof (is_double_bound x D). lra.
Qed.

Lemma Qltb_comp (a a' b b' : Q) :
  a == a' -> b == b' -> Qltb a b = Qltb a' b'.
Proof. intros Ea Eb. unfold Qltb. f_equal. now apply Qleb_comp. Qed.

Lemma fl_comp (q q' : Q) : q == q' -> Neq (fl q) (fl q').
Proof.
  intros E. unfold fl.
  pose proof (round_double_comp q q' E) as R.
  rewrite (Qleb_comp _ _ (Qeq_refl (2 ^ 1024)) _ _ (Qabs_wd _ _ R)).
  destruct (Qle_bool (2 ^ 1024) (Qabs (round_double q'))); cbn.
  - apply Qltb_comp; [exact E | reflexivity].
  - exact R.
Qed.

Lemma flt_comp (a a' b b' : Number) :
  Neq a a' -> Neq b b' -> flt a b = flt a' b'.
Proof.
  destruct a, a', b, b'; cbn; try contradiction; try reflexivity;
    intros Ea Eb; subst; try reflexivity.
  now apply Qltb_comp.
Qed.

Lemma Neq_refl (a : Number) : Neq a a.
Proof. destruct a; cbn; auto. reflexivity. Qed.

(** * Geometry filter: proofs *)

(** ** The two sides of a row *)

Lemma fl_cases (q : Q) :
  fl q = Finite (round_double q) \/ exists s, fl q = Infinity s.
Proof.
  unfold fl. destruct (Qle_bool (2 ^ 1024) (Qabs (round_double q)));
    [right; eexists; reflexivity | left; reflexivity].
Qed.

Lemma crossesRow_horizontal (y yi yj : Q) :
  yi == yj -> crossesRow y yi yj = false.
Proof.
  intros E. unfold crossesRow, fgt.
  rewrite (flt_comp (num y) (num y) (num yi) (num yj)
             (Neq_refl _) (fl_comp yi yj E)).
  apply xorb_nilpotent.
Qed.

Lemma crossesRow_denominator (y yi yj : Q) :
  crossesRow y yi yj = true -> ~ yj - yi == 0.
Proof.
  intros H E. rewrite crossesRow_horizontal in H; [discriminate | lra].
Qed.

(** On doubles the comparisons are those of the values. *)
Lemma crossesRow_double (y yi yj : Q) :
  is_double y -> is_double yi -> is_double yj ->
  crossesRow y yi yj = xorb (Qgtb yi y) (Qgtb yj y).
Proof.
  intros Dy Di Dj. unfold crossesRow, fgt.
  destruct (num_double y Dy) as [-> Fy], (num_double yi Di) as [-> Fi],
    (num_double yj Dj) as [-> Fj].
  cbn [flt]. unfold Qgtb, Qltb.
  now rewrite (Qleb_comp _ _ Fi _ _ Fy), (Qleb_comp _ _ Fj _ _ Fy).
Qed.

Lemma crossesRow_true (y yi yj : Q) :
  is_double y -> is_double yi -> is_double yj ->
  crossesRow y yi yj = true <->
  (yi <= y /\ y < yj) \/ (yj <= y /\ y < yi).
Proof.
  intros Dy Di Dj. rewrite (crossesRow_double y yi yj Dy Di Dj). split.
  - destruct (Qgtb yi y) eqn:Hi, (Qgtb yj y) eqn:Hj; cbn;
      try discriminate; intros _.
    + right. apply Qgtb_true in Hi. apply Qgtb_false in Hj. tauto.
    + left. apply Qgtb_true in Hj. apply Qgtb_false in Hi. tauto.
  - intros [[H1 H2]|[H1 H2]].
    + now rewrite (proj2 (Qgtb_false yi y) H1), (proj2 (Qgtb_true yj y) H2).
    + now rewrite (proj2 (Qgtb_false yj y) H1), (proj2 (Qgtb_true yi y) H2).
Qed.

(** ** The division *)

(** Where the two ends are on different sides, the divisor is not zero. *)
Lemma crossesRow_divisor (y yi yj : Q) :
  crossesRow y yi yj = true -> is_zero (fsub (num yj) (num yi)) = false.
Proof.
  intros H.
  assert (Ne : ~ Neq (num yi) (num yj)).
  { intros E. unfold crossesRow, fgt in H.
    rewrite (flt_comp (num y) (num y) (num yi) (num yj) (Neq_refl _) E) in H.
    now rewrite xorb_nilpotent in H. }
  unfold num in *.
  destruct (fl_cases yi) as [Ei|[si Ei]], (fl_cases yj) as [Ej|[sj Ej]];
    rewrite Ei, Ej in *; cbn [fsub is_zero Neq] in *;
    try reflexivity; try (now destruct (Bool.eqb sj si)).
  destruct (fl_cases (round_double yj - round_double yi)) as [E|[s E]];
    rewrite E; cbn [is_zero]; [|reflexivity].
  destruct (Qeq_bool _ 0) eqn:Z0; [|reflexivity].
  exfalso. apply Qeq_bool_iff in Z0. revert Z0.
  apply grid_diff_nonzero; try apply round_double_on_grid.
  intros K. apply Ne. now symmetry.
Qed.

Lemma intersect_checked_ok (p vi vj : point) :
  intersect_checked p vi vj = Some (intersect p vi vj).
Proof.
  destruct p as [x y], vi as [xi yi], vj as [xj yj]. cbn.
  destruct (crossesRow y yi yj) eqn:Hc; [|reflexivity].
  unfold checked_div. now rewrite (crossesRow_divisor y yi yj Hc).
Qed.

(** ** The loop as a walk over the vertices *)

Lemma walk_parity (c : point -> point -> bool) (vs : list point) :
  forall prev inside,
    walk c prev vs inside =
    xorb inside
      (Nat.odd (List.length
         (filter (fun e => c (fst e) (snd e))
                 (combine vs (prev :: removelast vs))))).
Proof.
  induction vs as [|v vs IH]; intros prev inside.
  - simpl. now rewrite xorb_false_r.
  - cbn [walk]. rewrite IH.
    destruct vs as [|w vs'].
    + cbn. destruct (c v prev); cbn;
        now destruct inside.
    + change (removelast (v :: w :: vs')) with (v :: removelast (w :: vs')).
      cbn [combine filter fst snd].
      destruct (c v prev); cbn [List.length].
      * rewrite Nat.odd_succ, <- Nat.negb_odd.
        now destruct inside, (Nat.odd _).
      * reflexivity.
Qed.

(** No edge toggles: the flag is returned as it came. *)
Lemma walk_never (c : point -> point -> bool) (vs : list point) :
  forall prev inside,
    (forall a b, In a (prev :: vs) -> In b (prev :: vs) -> c a b = false) ->
    walk c prev vs inside = inside.
Proof.
  induction vs as [|v vs IH]; intros prev inside H; cbn [walk]; auto.
  rewrite (H v prev) by (simpl; auto).
  apply IH. intros a b Ha Hb. apply H; simpl in *; tauto.
Qed.

Lemma walk_ext (c c' : point -> point -> bool) (vs : list point) :
  forall prev inside,
    (forall a b, In a (prev :: vs) -> In b (prev :: vs) -> c a b = c' a b) ->
    walk c prev vs inside = walk c' prev vs inside.
Proof.
  induction vs as [|v vs IH]; intros prev inside H; cbn [walk]; auto.
  rewrite (H v prev) by (simpl; auto).
  apply IH. intros a b Ha Hb. apply H; simpl in *; tauto.
Qed.

Lemma last_cons_default (A : Type) (l : list A) :
  forall v d, last (v :: l) d = last l v.
Proof.
  induction l as [|w l IH]; intros v d; auto.
  change (last (v :: w :: l) d) with (last (w :: l) d).
  rewrite IH. symmetry. apply IH.
Qed.

(** Along a walk the sides of a line change as often (modulo 2) as the two
    ends differ. *)
Lemma walk_sides (g : point -> bool) (vs : list point) :
  forall prev inside,
    walk (fun a b => xorb (g a) (g b)) prev vs inside =
    xorb inside (xorb (g prev) (g (last vs prev))).
Proof.
  induction vs as [|v vs IH]; intros prev inside.
  - cbn. now destruct inside, (g prev).
  - cbn [walk]. rewrite IH, last_cons_default.
    now destruct inside, (g v), (g prev), (g (last vs v)).
Qed.

Lemma skipn_nth_cons (A : Type) (d : A) (l : list A) (i : nat) :
  (i < List.length l)%nat -> skipn i l = nth i l d :: skipn (S i) l.
Proof.
  revert i; induction l as [|a l IH]; intros [|i] H; simpl in *;
    try lia; auto.
  apply IH; lia.
Qed.

Lemma nth_last (A : Type) (d : A) (l : list A) :
  nth (List.length l - 1) l d = last l d.
Proof.
  induction l as [|a [|b l] IH]; auto.
  replace (List.length (a :: b :: l) - 1)%nat
    with (S (List.length (b :: l) - 1)) by (simpl; lia).
  exact IH.
Qed.

Lemma last_In (A : Type) (d : A) (l : list A) :
  l <> [] -> In (last l d) l.
Proof.
  induction l as [|a [|b l] IH]; intros H; [congruence | simpl; auto |].
  right. apply IH. discriminate.
Qed.

Section Loop.

Variable p : point.

Lemma pip_loop_walk (polygon : list point) :
  forall fuel i j inside,
    (i <= List.length polygon)%nat ->
    (List.length polygon - i <= fuel)%nat ->
    pip_loop fuel p polygon i j inside =
    walk (intersect p) (nth j polygon origin) (skipn i polygon) inside.
Proof.
  induction fuel as [|fuel IH]; intros i j inside Hi Hf.
  - assert (i = List.length polygon) by lia; subst i.
    rewrite skipn_all; reflexivity.
  - simpl. destruct (Nat.ltb_spec i (List.length polygon)) as [Hlt|Hge].
    + rewrite (skipn_nth_cons _ origin polygon i Hlt). simpl.
      apply IH; lia.
    + assert (i = List.length polygon) by lia; subst i.
      rewrite skipn_all; reflexivity.
Qed.

(** More fuel than [polygon.length] changes nothing: the loop has left by
    its own test. *)
Lemma pip_loop_fuel (polygon : list point) (fuel : nat) :
  (List.length polygon <= fuel)%nat ->
  pip_loop fuel p polygon 0 (List.length polygon - 1) false =
  pointInPolygon p polygon.
Proof.
  intros H. unfold pointInPolygon.
  rewrite !pip_loop_walk by lia. reflexivity.
Qed.

Lemma pointInPolygon_walk (polygon : list point) :
  pointInPolygon p polygon =
  walk (intersect p) (last polygon origin) polygon false.
Proof.
  unfold pointInPolygon. rewrite pip_loop_walk by lia.
  now rewrite nth_last.
Qed.

(** Even-odd rule. *)
Lemma pointInPolygon_parity (polygon : list point) :
  pointInPolygon p polygon = Nat.odd (crossings p polygon).
Proof.
  rewrite pointInPolygon_walk, walk_parity. reflexivity.
Qed.

(** When no pair of vertices gives a crossing the point is outside. *)
Lemma pointInPolygon_no_crossing (polygon : list point) :
  (forall a b, In a polygon -> In b polygon -> intersect p a b = false) ->
  pointInPolygon p polygon = false.
Proof.
  intros H. rewrite pointInPolygon_walk.
  destruct polygon as [|v vs]; [reflexivity|].
  apply walk_never. intros a b [<-|Ha] [<-|Hb]; apply H; auto;
    apply last_In; discriminate.
Qed.

End Loop.

Lemma pip_loop_checked_ok (p : point) (polygon : list point) :
  forall fuel i j inside,
    pip_loop_checked fuel p polygon i j inside =
    Some (pip_loop fuel p polygon i j inside).
Proof.
  induction fuel as [|fuel IH]; intros i j inside;
    cbn [pip_loop pip_loop_checked]; [reflexivity|].
  destruct (i <? List.length polygon)%nat; [|reflexivity].
  rewrite intersect_checked_ok. apply IH.
Qed.

(** ** The edges the loop visits *)

Lemma length_removelast_cons (A : Type) (l : list A) (a : A) :
  List.length (removelast (a :: l)) = List.length l.
Proof.
  revert a; induction l as [|b l IH]; intros a; [reflexivity|].
  change (removelast (a :: b :: l)) with (a :: removelast (b :: l)).
  cbn [List.length]. now rewrite IH.
Qed.

Lemma nth_removelast (A : Type) (d : A) (l : list A) (i : nat) :
  (S i < List.length l)%nat -> nth i (removelast l) d = nth i l d.
Proof.
  revert i; induction l as [|a [|b l] IH]; intros i H; cbn in H; try lia.
  change (removelast (a :: b :: l)) with (a :: removelast (b :: l)).
  destruct i as [|i]; [reflexivity|]. cbn [nth]. apply IH. cbn. lia.
Qed.

Lemma edges_length (polygon : list point) :
  List.length (edges polygon) = List.length polygon.
Proof.
  unfold edges. rewrite length_combine. destruct polygon as [|v vs];
    [reflexivity|].
  cbn [List.length]. rewrite length_removelast_cons. cbn [List.length]. lia.
Qed.

(** Edge [i] joins vertex [i] to the vertex before it; edge [0] joins the
    first vertex to the last one. *)
Lemma edges_nth (polygon : list point) (i : nat) :
  (i < List.length polygon)%nat ->
  nth i (edges polygon) (origin, origin) =
  (nth i polygon origin,
   nth (if (i =? 0)%nat then List.length polygon - 1 else i - 1)%nat
       polygon origin).
Proof.
  intros H. unfold edges. rewrite combine_nth.
  - f_equal. destruct i as [|i]; cbn [nth Nat.eqb].
    + symmetry. apply nth_last.
    + replace (S i - 1)%nat with i by lia. apply nth_removelast. lia.
  - destruct polygon as [|v vs]; [cbn in H; lia|].
    cbn [List.length]. now rewrite length_removelast_cons.
Qed.

(** ** The computed abscissa *)

Lemma Qabs_mult_le (x y X Y : Q) :
  Qabs x <= X -> Qabs y <= Y -> Qabs (x * y) <= X * Y.
Proof.
  intros Hx Hy. rewrite Qabs_Qmult.
  pose proof (Qabs_nonneg x). pose proof (Qabs_nonneg y).
  revert Hx Hy H H0. generalize (Qabs x) (Qabs y). intros a b. intros. nra.
Qed.

Lemma small_constants :
  0 < 2 ^ 500 /\ 64 * 2 ^ 500 <= 2 ^ 1023 /\
  64 * (2 ^ 500 * 2 ^ 500) <= 2 ^ 1023.
Proof.
  split; [apply pow2_pos|]. split.
  - change 64 with (2 ^ 6). rewrite <- pow2_add. apply pow2_mono. lia.
  - change 64 with (2 ^ 6). rewrite <- !pow2_add. apply pow2_mono. lia.
Qed.

(** The quotient of the rounded product by the rounded divisor, and what
    is made of it, stay within a few widths of the edge. *)
Lemma near_vertex_arith (A a b d p r q c xi : Q) :
  Qabs a <= 2 * Qabs A ->
  Qabs b <= Qabs d -> ~ d == 0 ->
  Qabs p <= 2 * Qabs (a * b) ->
  r * d == p ->
  Qabs q <= 2 * Qabs r ->
  Qabs (c - (q + xi)) <= Qabs (xi - (q + xi)) ->
  Qabs r <= 2 * Qabs a /\ Qabs q <= 8 * Qabs A /\
  Qabs (c - xi) <= 16 * Qabs A.
Proof.
  intros Ha Hb Hd Hp Er Hq Hc.
  assert (Hr : Qabs r <= 2 * Qabs a).
  { assert (E : Qabs r * Qabs d == Qabs p) by (now rewrite <- Qabs_Qmult, Er).
    rewrite Qabs_Qmult in Hp.
    assert (Pd : 0 < Qabs d).
    { destruct (Qabs_cases d) as [[? K]|[? K]]; rewrite K;
        destruct (Qlt_le_dec 0 d), (Qlt_le_dec d 0); try lra;
        exfalso; apply Hd; lra. }
    pose proof (Qabs_nonneg a) as Na. pose proof (Qabs_nonneg b) as Nb.
    revert E Hp Hb Pd Na Nb.
    generalize (Qabs r) (Qabs d) (Qabs p) (Qabs a) (Qabs b).
    intros mr md mp ma mb. intros.
    destruct (Qlt_le_dec (2 * ma) mr) as [C|C]; [exfalso; nra | exact C]. }
  assert (Hq' : Qabs q <= 8 * Qabs A) by lra.
  split; [exact Hr|]. split; [exact Hq'|].
  revert Hq' Hc. clear. qabs; lra.
Qed.

Lemma rounded_chain (xi yi xj yj y : Q) :
  small xi -> small yi -> small xj -> small yj -> small y ->
  (yi <= y /\ y < yj) \/ (yj <= y /\ y < yi) ->
  let a := round_double (xj - xi) in
  let b := round_double (y - yi) in
  let d := round_double (yj - yi) in
  let p := round_double (a * b) in
  let q := round_double (p / d) in
  (Qabs (xj - xi) <= 2 ^ 1023 /\ Qabs (y - yi) <= 2 ^ 1023 /\
   Qabs (yj - yi) <= 2 ^ 1023) /\
  (Qabs (a * b) <= 2 ^ 1023 /\ ~ d == 0 /\ Qabs (p / d) <= 2 ^ 1023 /\
   Qabs (q + xi) <= 2 ^ 1023) /\
  Qabs (crossX_rounded xi yi xj yj y - xi) <= 16 * Qabs (xj - xi).
Proof.
  intros [Dxi Bxi] [Dyi Byi] [Dxj Bxj] [Dyj Byj] [Dy By] S.
  intros a b d p q.
  destruct small_constants as (K0 & K1 & K2).
  assert (HA : Qabs (xj - xi) <= 2 * 2 ^ 500)
    by (revert Bxi Bxj; clear; qabs; lra).
  assert (HB : Qabs (y - yi) <= 2 * 2 ^ 500)
    by (revert Byi By; clear; qabs; lra).
  assert (HD : Qabs (yj - yi) <= 2 * 2 ^ 500)
    by (revert Byi Byj; clear; qabs; lra).
  pose proof (round_double_le2 (xj - xi)) as Ha. fold a in Ha.
  pose proof (round_double_le2 (y - yi)) as Hb. fold b in Hb.
  pose proof (round_double_le2 (a * b)) as Hp. fold p in Hp.
  pose proof (round_double_le2 (p / d)) as Hq. fold q in Hq.
  assert (Hab : Qabs (a * b) <= 16 * (2 ^ 500 * 2 ^ 500)).
  { setoid_replace (16 * (2 ^ 500 * 2 ^ 500))
      with ((4 * 2 ^ 500) * (4 * 2 ^ 500)) by ring.
    apply Qabs_mult_le; lra. }
  assert (Hd : ~ d == 0).
  { apply grid_diff_nonzero; try (apply is_double_on_grid; assumption).
    destruct S; lra. }
  assert (Hbd : Qabs b <= Qabs d).
  { pose proof (round_double_0) as R0.
    destruct S as [[S1 S2]|[S1 S2]].
    - pose proof (round_double_monotone 0 (y - yi) ltac:(lra)) as M1.
      pose proof (round_double_monotone (y - yi) (yj - yi) ltac:(lra)) as M2.
      fold b in M1, M2. fold d in M2. rewrite R0 in M1.
      revert M1 M2. clear. qabs; lra.
    - pose proof (round_double_monotone (y - yi) 0 ltac:(lra)) as M1.
      pose proof (round_double_monotone (yj - yi) (y - yi) ltac:(lra)) as M2.
      fold b in M1, M2. fold d in M2. rewrite R0 in M1.
      revert M1 M2. clear. qabs; lra. }
  assert (Er : p / d * d == p) by (field; exact Hd).
  pose proof (round_double_nearest (q + xi) xi (is_double_on_grid xi Dxi))
    as Hc.
  destruct (near_vertex_arith (xj - xi) a b d p (p / d) q
              (round_double (q + xi)) xi Ha Hbd Hd Hp Er Hq Hc)
    as (Hr & Hq8 & Hc16).
  split; [repeat split; lra|]. split; [|exact Hc16].
  split; [lra|]. split; [exact Hd|]. split; [lra|].
  revert Hq8 HA Bxi K0 K1. clear. qabs; lra.
Qed.

(** With doubles of magnitude at most [2^500] at the ends of an edge that
    changes side, no operation overflows. *)
Lemma crossX_small (xi yi xj yj y : Q) :
  small xi -> small yi -> small xj -> small yj -> small y ->
  crossesRow y yi yj = true ->
  exists c, crossX xi yi xj yj y = Finite c /\
            c == crossX_rounded xi yi xj yj y.
Proof.
  intros Sxi Syi Sxj Syj Sy C.
  apply (crossesRow_true y yi yj (proj1 Sy) (proj1 Syi) (proj1 Syj)) in C.
  destruct (rounded_chain xi yi xj yj y Sxi Syi Sxj Syj Sy C)
    as ((HA & HB & HD) & (Hab & Hd & Hr & Hs) & _).
  destruct (num_double xi (proj1 Sxi)) as [Nxi Fxi].
  destruct (num_double yi (proj1 Syi)) as [Nyi Fyi].
  destruct (num_double xj (proj1 Sxj)) as [Nxj Fxj].
  destruct (num_double yj (proj1 Syj)) as [Nyj Fyj].
  destruct (num_double y (proj1 Sy)) as [Ny Fy].
  unfold crossX. rewrite Nxi, Nyi, Nxj, Nyj, Ny. cbn [fsub].
  rewrite !fl_finite by (rewrite ?Fxi, ?Fyi, ?Fxj, ?Fyj, ?Fy; assumption).
  cbn [fmul].
  rewrite fl_finite by (rewrite ?Fxi, ?Fyi, ?Fxj, ?Fyj, ?Fy; assumption).
  cbn [fdiv].
  assert (Z0 : Qeq_bool (round_double (round_double yj - round_double yi)) 0
               = false).
  { destruct (Qeq_bool _ 0) eqn:E; [|reflexivity].
    apply Qeq_bool_iff in E. rewrite Fyj, Fyi in E. contradiction. }
  rewrite Z0.
  rewrite fl_finite by (rewrite ?Fxi, ?Fyi, ?Fxj, ?Fyj, ?Fy; assumption).
  cbn [fadd].
  rewrite fl_finite by (rewrite ?Fxi, ?Fyi, ?Fxj, ?Fyj, ?Fy; assumption).
  eexists. split; [reflexivity|].
  unfold crossX_rounded. now rewrite Fxi, Fyi, Fxj, Fyj, Fy.
Qed.

Lemma Qabs_plus_le (x y X Y : Q) :
  Qabs x <= X -> Qabs y <= Y -> Qabs (x + y) <= X + Y.
Proof. intros Hx Hy. revert Hx Hy. qabs; lra. Qed.

Lemma Qabs_sub_sym (x y : Q) : Qabs (x - y) == Qabs (y - x).
Proof. qabs; lra. Qed.

Lemma Qabs_pos_lt (x : Q) : ~ x == 0 -> 0 < Qabs x.
Proof.
  intros H. destruct (Qabs_cases x) as [[? K]|[? K]]; rewrite K;
    destruct (Qlt_le_dec 0 x), (Qlt_le_dec x 0); try lra;
    exfalso; apply H; lra.
Qed.

(** The rounding errors of the five operations, added up. *)
Lemma abscissa_error_arith (u eta eps A B D t a b d p r q c xi : Q) :
  0 < u -> u <= 1 # 100 -> 0 <= eta -> eta <= eps -> eta <= eps * Qabs D ->
  t * D == B -> 0 <= t <= 1 -> ~ D == 0 ->
  Qabs (a - A) <= u * Qabs A ->
  Qabs (b - B) <= u * Qabs B ->
  Qabs (d - D) <= u * Qabs D ->
  Qabs (p - a * b) <= u * Qabs (a * b) + eta ->
  r * d == p ->
  Qabs (q - r) <= u * Qabs r + eta ->
  Qabs (c - (q + xi)) <= u * Qabs (q + xi) ->
  Qabs (c - (A * t + xi)) <= 16 * u * (Qabs xi + Qabs A) + 8 * eps.
Proof.
  intros U0 U1 E0 E1 E2 Et Ht HD Ha Hb Hd Hp Er Hq Hc.
  pose proof (Qabs_nonneg A) as NA. pose proof (Qabs_nonneg B) as NB.
  pose proof (Qabs_pos_lt D HD) as PD.
  assert (HBD : Qabs B <= Qabs D).
  { rewrite <- Et, Qabs_Qmult, (Qabs_pos t) by lra.
    revert PD. generalize (Qabs D). intros mD PD. nra. }
  assert (Ht1 : Qabs t <= 1) by (rewrite Qabs_pos; lra).
  set (X := u * Qabs A).
  assert (X0 : 0 <= X) by (unfold X; nra).
  assert (XA : X <= (1 # 100) * Qabs A) by (unfold X; nra).
  (* the factors *)
  assert (Hb2 : Qabs b <= 2 * Qabs B).
  { assert (W : u * Qabs B <= Qabs B) by nra.
    revert Hb W. generalize (u * Qabs B). clear. intros w. qabs; lra. }
  (* the product *)
  assert (H3 : Qabs (a * b - A * B) <= 3 * (X * Qabs B)).
  { setoid_replace (a * b - A * B) with ((a - A) * b + A * (b - B)) by ring.
    setoid_replace (3 * (X * Qabs B))
      with (X * (2 * Qabs B) + Qabs A * (u * Qabs B)) by (unfold X; ring).
    apply Qabs_plus_le; apply Qabs_mult_le; auto; lra. }
  assert (H4 : Qabs (a * b) <= 2 * (Qabs A * Qabs B)).
  { assert (E : Qabs (A * B) == Qabs A * Qabs B) by apply Qabs_Qmult.
    assert (W : 3 * (X * Qabs B) <= Qabs A * Qabs B) by nra.
    revert H3 E W.
    generalize (3 * (X * Qabs B)) (Qabs A * Qabs B) (a * b) (A * B).
    clear. intros w m x y. qabs; lra. }
  assert (H6 : Qabs (p - A * B) <= 5 * (X * Qabs B) + eta).
  { assert (W : u * Qabs (a * b) <= 2 * (X * Qabs B)).
    { setoid_replace (2 * (X * Qabs B))
        with (u * (2 * (Qabs A * Qabs B))) by (unfold X; ring).
      revert H4 U0. generalize (Qabs (a * b)) (Qabs A * Qabs B). clear.
      intros m n. intros. nra. }
    revert Hp H3 W.
    generalize (u * Qabs (a * b)) (X * Qabs B) (a * b) (A * B).
    clear. intros w m x y. qabs; lra. }
  (* the quotient *)
  assert (H7 : Qabs ((r - A * t) * d) <= 6 * (X * Qabs D) + eta).
  { setoid_replace ((r - A * t) * d)
      with ((r * d - A * (t * D)) + (A * t) * (D - d)) by ring.
    rewrite Er, Et.
    assert (K : Qabs ((A * t) * (D - d)) <= (Qabs A * 1) * (u * Qabs D)).
    { apply Qabs_mult_le; [apply Qabs_mult_le; lra|].
      now rewrite Qabs_sub_sym. }
    assert (W : 5 * (X * Qabs B) + eta + Qabs A * 1 * (u * Qabs D)
                <= 6 * (X * Qabs D) + eta).
    { setoid_replace (Qabs A * 1 * (u * Qabs D)) with (X * Qabs D)
        by (unfold X; ring).
      assert (X * Qabs B <= X * Qabs D).
      { revert HBD X0. generalize X (Qabs B) (Qabs D). clear.
        intros x m n. intros. nra. }
      lra. }
    eapply Qle_trans; [|exact W].
    apply Qabs_plus_le; assumption. }
  assert (Hd2 : Qabs D <= 2 * Qabs d).
  { assert (W : u * Qabs D <= (1 # 2) * Qabs D) by nra.
    revert Hd W. generalize (u * Qabs D). clear. intros w. qabs; lra. }
  assert (H8 : Qabs (r - A * t) <= 12 * X + 2 * eps).
  { rewrite Qabs_Qmult in H7.
    pose proof (Qabs_nonneg (r - A * t)) as Ne.
    revert H7 Hd2 E2 PD X0 Ne.
    generalize (Qabs (r - A * t)) (Qabs d) (Qabs D).
    intros me md mD. intros.
    destruct (Qlt_le_dec (12 * X + 2 * eps) me) as [C|C]; [exfalso|exact C].
    assert (S1 : me * mD <= 2 * (me * md)) by nra.
    assert (S2 : (12 * X + 2 * eps) * mD < me * mD) by nra.
    nra. }
  assert (Hat : Qabs (A * t) <= Qabs A).
  { setoid_replace (Qabs A) with (Qabs A * 1) by ring.
    apply Qabs_mult_le; lra. }
  assert (H9 : Qabs r <= 2 * Qabs A + 2 * eps).
  { revert H8 Hat XA. generalize (A * t) (Qabs A). clear.
    intros y m. qabs; lra. }
  assert (H10 : Qabs (q - A * t) <= 14 * X + 4 * eps).
  { assert (W : u * Qabs r <= 2 * X + eps) by (unfold X; nra).
    revert Hq H8 W E1. generalize (u * Qabs r) (A * t). clear.
    intros w y. qabs; lra. }
  assert (H11 : Qabs (q + xi) <= Qabs xi + 2 * Qabs A + 4 * eps).
  { revert H10 Hat XA. generalize (A * t) (Qabs A). clear.
    intros y m. qabs; lra. }
  assert (W : u * Qabs (q + xi) <= u * Qabs xi + 2 * X + 4 * eps).
  { pose proof (Qabs_nonneg xi). unfold X. nra. }
  setoid_replace (16 * u * (Qabs xi + Qabs A) + 8 * eps)
    with (16 * (u * Qabs xi) + 16 * X + 8 * eps) by (unfold X; ring).
  assert (Nx : 0 <= u * Qabs xi) by (pose proof (Qabs_nonneg xi); nra).
  revert Hc H10 W X0 Nx.
  generalize (u * Qabs (q + xi)) (u * Qabs xi) (A * t) X. clear.
  intros w ux y X. qabs; lra.
Qed.

Lemma error_constants :
  0 < 2 ^ (-53) /\ 2 ^ (-53) <= 1 # 100 /\ 0 <= 2 ^ (-1075) /\
  2 ^ (-1075) <= 2 ^ (-575) /\
  2 ^ (-1075) == 2 ^ (-575) * 2 ^ (-500) /\
  16 * 2 ^ (-53) == 2 ^ (-49) /\ 8 * 2 ^ (-575) == 2 ^ (-572).
Proof.
  split; [apply pow2_pos|]. split.
  - apply Qle_trans with (2 ^ (-7)); [apply pow2_mono; lia|].
    unfold Qle; cbn; lia.
  - split; [apply Qlt_le_weak, pow2_pos|].
    split; [apply pow2_mono; lia|].
    split; [now rewrite <- pow2_add|].
    split; [change 16 with (2 ^ 4) | change 8 with (2 ^ 3)];
      now rewrite <- pow2_add.
Qed.

(** The position of the row between the two ends of the edge. *)
Lemma row_parameter (yi yj y : Q) :
  (yi <= y /\ y < yj) \/ (yj <= y /\ y < yi) ->
  let t := (y - yi) / (yj - yi) in
  t * (yj - yi) == y - yi /\ 0 <= t <= 1.
Proof.
  intros S t.
  assert (Hd : ~ yj - yi == 0) by (destruct S; lra).
  assert (E : t * (yj - yi) == y - yi) by (unfold t; field; exact Hd).
  split; [exact E|]. revert E. generalize t. clear t. intros t E.
  destruct S as [[S1 S2]|[S1 S2]]; split;
    match goal with
    | |- ?a <= ?b =>
        destruct (Qlt_le_dec b a) as [C|C]; [exfalso; nra | exact C]
    end.
Qed.

(** The computed abscissa is the exact one up to the tolerance, when the
    two ends are at least [2^-500] apart in height. *)
Lemma crossX_error (xi yi xj yj y : Q) :
  small xi -> small yi -> small xj -> small yj -> small y ->
  (yi <= y /\ y < yj) \/ (yj <= y /\ y < yi) ->
  2 ^ (-500) <= Qabs (yj - yi) ->
  Qabs (crossX_rounded xi yi xj yj y - crossX_exact xi yi xj yj y)
    <= tolerance xi xj.
Proof.
  intros Sxi Syi Sxj Syj Sy S Hh.
  destruct (rounded_chain xi yi xj yj y Sxi Syi Sxj Syj Sy S)
    as (_ & (_ & Hd & _) & _).
  destruct (row_parameter yi yj y S) as [Et Ht].
  destruct error_constants as (U0 & U1 & E0 & E1 & E2 & C1 & C2).
  assert (HD : ~ yj - yi == 0) by (destruct S; lra).
  assert (G : forall v, small v -> on_grid v)
    by (intros v [Dv _]; now apply is_double_on_grid).
  set (a := round_double (xj - xi)) in *.
  set (b := round_double (y - yi)) in *.
  set (d := round_double (yj - yi)) in *.
  set (p := round_double (a * b)) in *.
  set (q := round_double (p / d)) in *.
  assert (Hp : Qabs (p - a * b) <= 2 ^ (-53) * Qabs (a * b) + 2 ^ (-1075)).
  { pose proof (Qabs_nonneg (a * b)) as N.
    assert (0 <= 2 ^ (-53) * Qabs (a * b)) by nra.
    destruct (round_double_error (a * b)) as [H1|H1]; fold p in H1; lra. }
  assert (Hq : Qabs (q - p / d) <= 2 ^ (-53) * Qabs (p / d) + 2 ^ (-1075)).
  { pose proof (Qabs_nonneg (p / d)) as N.
    assert (0 <= 2 ^ (-53) * Qabs (p / d)) by nra.
    destruct (round_double_error (p / d)) as [H1|H1]; fold q in H1; lra. }
  assert (Er : p / d * d == p) by (field; exact Hd).
  assert (E3 : 2 ^ (-1075) <= 2 ^ (-575) * Qabs (yj - yi)).
  { rewrite E2. apply Qmult_le_l; [apply pow2_pos | exact Hh]. }
  pose proof (abscissa_error_arith (2 ^ (-53)) (2 ^ (-1075)) (2 ^ (-575))
                (xj - xi) (y - yi) (yj - yi) ((y - yi) / (yj - yi))
                a b d p (p / d) q (round_double (q + xi)) xi
                U0 U1 E0 E1 E3 Et Ht HD
                (grid_diff_error xj xi (G _ Sxj) (G _ Sxi))
                (grid_diff_error y yi (G _ Sy) (G _ Syi))
                (grid_diff_error yj yi (G _ Syj) (G _ Syi))
                Hp Er Hq
                (grid_sum_error q xi (round_double_on_grid _) (G _ Sxi)))
    as H.
  unfold tolerance. rewrite <- C1, <- C2.
  assert (Ex : crossX_exact xi yi xj yj y ==
               (xj - xi) * ((y - yi) / (yj - yi)) + xi)
    by (unfold crossX_exact; field; exact HD).
  rewrite Ex. exact H.
Qed.

(** On small doubles the test of the loop body is the comparison with
    the computed abscissa. *)
Lemma intersect_small (x y xi yi xj yj : Q) :
  is_double x -> small y -> small xi -> small yi -> small xj -> small yj ->
  intersect (x, y) (xi, yi) (xj, yj) =
  crossesRow y yi yj && Qltb x (crossX_rounded xi yi xj yj y).
Proof.
  intros Dx Sy Sxi Syi Sxj Syj. cbn [intersect].
  destruct (crossesRow y yi yj) eqn:C; [|reflexivity]. cbn [andb].
  destruct (crossX_small xi yi xj yj y Sxi Syi Sxj Syj Sy C) as (c & -> & Ec).
  destruct (num_double x Dx) as [-> Fx]. cbn [flt].
  now apply Qltb_comp.
Qed.

(** ** Points outside the bounding box *)

Lemma outside_above (p : point) (polygon : list point) :
  double_point p -> Forall double_point polygon ->
  above p polygon -> pointInPolygon p polygon = false.
Proof.
  intros [_ Dy] Dv H. rewrite Forall_forall in Dv.
  apply pointInPolygon_no_crossing. intros [xi yi] [xj yj] Ha Hb.
  destruct p as [x y]. cbn [intersect fst snd] in *.
  rewrite (crossesRow_double y yi yj Dy (proj2 (Dv _ Ha)) (proj2 (Dv _ Hb))).
  apply H in Ha, Hb. cbn [snd] in Ha, Hb.
  now rewrite (proj2 (Qgtb_false yi y) Ha), (proj2 (Qgtb_false yj y) Hb).
Qed.

Lemma outside_below (p : point) (polygon : list point) :
  double_point p -> Forall double_point polygon ->
  below p polygon -> pointInPolygon p polygon = false.
Proof.
  intros [_ Dy] Dv H. rewrite Forall_forall in Dv.
  apply pointInPolygon_no_crossing. intros [xi yi] [xj yj] Ha Hb.
  destruct p as [x y]. cbn [intersect fst snd] in *.
  rewrite (crossesRow_double y yi yj Dy (proj2 (Dv _ Ha)) (proj2 (Dv _ Hb))).
  apply H in Ha, Hb. cbn [snd] in Ha, Hb.
  now rewrite (proj2 (Qgtb_true yi y) Ha), (proj2 (Qgtb_true yj y) Hb).
Qed.

(** The computed abscissa of an edge that changes side is within sixteen
    widths of the edge from its first end. *)
Lemma crossX_rounded_near (xi yi xj yj y : Q) :
  small xi -> small yi -> small xj -> small yj -> small y ->
  crossesRow y yi yj = true ->
  Qabs (crossX_rounded xi yi xj yj y - xi) <= 16 * Qabs (xj - xi).
Proof.
  intros Sxi Syi Sxj Syj Sy C.
  apply (crossesRow_true y yi yj (proj1 Sy) (proj1 Syi) (proj1 Syj)) in C.
  apply (rounded_chain xi yi xj yj y Sxi Syi Sxj Syj Sy C).
Qed.

Lemma outside_right (p : point) (polygon : list point) (W : Q) :
  small_point p -> Forall small_point polygon -> wide polygon W ->
  far_right p polygon W -> pointInPolygon p polygon = false.
Proof.
  intros [[Dx _] Sy] Sv Hw H. rewrite Forall_forall in Sv.
  apply pointInPolygon_no_crossing. intros [xi yi] [xj yj] Ha Hb.
  destruct p as [x y]. cbn [fst snd] in *.
  destruct (Sv _ Ha) as [Sxi Syi], (Sv _ Hb) as [Sxj Syj].
  cbn [fst snd] in *.
  rewrite (intersect_small x y xi yi xj yj Dx Sy Sxi Syi Sxj Syj).
  destruct (crossesRow y yi yj) eqn:C; [|reflexivity]. cbn [andb].
  apply Qltb_false.
  pose proof (crossX_rounded_near xi yi xj yj y Sxi Syi Sxj Syj Sy C) as N.
  pose proof (Hw _ _ Ha Hb) as Hab. pose proof (H _ Ha) as Hx.
  cbn [fst] in Hab, Hx. revert N Hab Hx.
  generalize (crossX_rounded xi yi xj yj y). clear. intros c. qabs; lra.
Qed.

(** Far to the left each edge that changes side is crossed, and around
    the closed ring the side changes an even number of times. *)
Lemma outside_left (p : point) (polygon : list point) (W : Q) :
  small_point p -> Forall small_point polygon -> wide polygon W ->
  far_left p polygon W -> pointInPolygon p polygon = false.
Proof.
  intros [[Dx _] Sy] Sv Hw H. rewrite Forall_forall in Sv.
  rewrite pointInPolygon_walk.
  destruct polygon as [|v vs]; [reflexivity|].
  destruct p as [x y] eqn:Ep. cbn [fst snd] in *.
  rewrite (walk_ext _ (fun a b => xorb (fgt (num (snd a)) (num y))
                                       (fgt (num (snd b)) (num y)))).
  - rewrite walk_sides, !last_cons_default. cbn [xorb].
    apply xorb_nilpotent.
  - intros [xi yi] [xj yj] Ha Hb.
    assert (Hv : forall a, In a (last (v :: vs) origin :: v :: vs) ->
                           In a (v :: vs)).
    { intros a [<-|Hin]; [apply last_In; discriminate | exact Hin]. }
    apply Hv in Ha, Hb.
    destruct (Sv _ Ha) as [Sxi Syi], (Sv _ Hb) as [Sxj Syj].
    cbn [fst snd] in *.
    rewrite (intersect_small x y xi yi xj yj Dx Sy Sxi Syi Sxj Syj).
    fold (crossesRow y yi yj).
    destruct (crossesRow y yi yj) eqn:C; [|reflexivity]. cbn [andb].
    apply Qltb_true.
    pose proof (crossX_rounded_near xi yi xj yj y Sxi Syi Sxj Syj Sy C) as N.
    pose proof (Hw _ _ Ha Hb) as Hab. pose proof (H _ Ha) as Hx.
    cbn [fst] in Hab, Hx. revert N Hab Hx.
    generalize (crossX_rounded xi yi xj yj y). clear. intros c. qabs; lra.
Qed.

(** * Classifier: proofs *)

Lemma includes_In (l : list string) (s : string) :
  includes l s = true <-> In s l.
Proof.
  unfold includes. rewrite existsb_exists. split.
  - intros (x & Hx & E). apply String.eqb_eq in E. now subst.
  - intros H. exists s. split; [assumption | apply String.eqb_refl].
Qed.

(** The [if]/[else if] chain is the first match in the priority order. *)
Lemma sortByCategory_first_match (poi : POI) (tags : list string)
      (b : Buckets) :
  sortByCategory poi tags b =
  match first_match tags with
  | Some c => place c poi b
  | None => (poi, b)
  end.
Proof.
  unfold sortByCategory, first_match, priority. cbn [find tag_of].
  repeat (match goal with
          | |- context [includes tags ?s] => destruct (includes tags s)
          end; [reflexivity|]).
  reflexivity.
Qed.

Lemma Category_eqb_eq (c c' : Category) : Category_eqb c c' = true <-> c = c'.
Proof. destruct c, c'; cbn; split; congruence. Qed.

(** Only the bucket of the rule that fired grows, by the labelled POI. *)
Lemma place_bucket (c c' : Category) (poi : POI) (b : Buckets) :
  bucket c' (snd (place c poi b)) =
  if Category_eqb c c'
  then bucket c' b ++ [push_category poi (label_of c)]
  else bucket c' b.
Proof. destruct c, c'; reflexivity. Qed.

Lemma place_total (c : Category) (poi : POI) (b : Buckets) :
  total (snd (place c poi b)) = S (total b).
Proof.
  destruct c; unfold total, place, push; cbn;
    rewrite ?length_app; cbn; lia.
Qed.

(** After the [forEach], each bucket has received, in order, the labelled
    POIs whose first matching rule is its own. *)
Lemma categorize_bucket (c : Category) (l : list POI) :
  forall b,
    bucket c (categorize l b) =
    bucket c b ++
    map (fun poi => push_category poi (label_of c))
        (filter (fun poi =>
                   match first_match (categories poi) with
                   | Some c' => Category_eqb c' c
                   | None => false
                   end) l).
Proof.
  induction l as [|poi l IH]; intros b; cbn [categorize fold_left filter map].
  - now rewrite app_nil_r.
  - fold (categorize l (snd (sortByCategory poi (categories poi) b))).
    rewrite IH, sortByCategory_first_match.
    destruct (first_match (categories poi)) as [c'|]; [|reflexivity].
    rewrite place_bucket.
    destruct (Category_eqb c' c) eqn:E; [|reflexivity].
    apply Category_eqb_eq in E. subst c'. cbn [map].
    now rewrite <- app_assoc.
Qed.

Lemma before_priority (c : Category) :
  exists rest, priority = before c ++ c :: rest.
Proof. destruct c; cbn; eexists; reflexivity. Qed.

Lemma find_first (A : Type) (f : A -> bool) (l1 l2 : list A) (x : A) :
  (forall y, In y l1 -> f y = false) -> f x = true ->
  find f (l1 ++ x :: l2) = Some x.
Proof.
  intros H Hx. induction l1 as [|a l1 IH]; cbn [app find].
  - now rewrite Hx.
  - rewrite (H a) by (simpl; auto). apply IH. intros y Hy. apply H. simpl; auto.
Qed.

Lemma find_prefix_false (A : Type) (f : A -> bool) (l1 l2 : list A) (x : A) :
  find f (l1 ++ l2) = Some x -> ~ In x l1 ->
  forall y, In y l1 -> f y = false.
Proof.
  induction l1 as [|a l1 IH]; intros H Hx y Hy; [destruct Hy|].
  cbn [app find] in H. destruct (f a) eqn:Fa.
  - injection H as ->. exfalso. apply Hx. simpl; auto.
  - destruct Hy as [<-|Hy]; [exact Fa|].
    apply IH; auto. intros Hin. apply Hx. simpl; auto.
Qed.

Lemma not_before_self (c : Category) : ~ In c (before c).
Proof.
  destruct c; cbn; intros H;
    repeat (destruct H as [H|H]; [discriminate|]); exact H.
Qed.

Lemma first_match_iff (tags : list string) (c : Category) :
  first_match tags = Some c <->
  In (tag_of c) tags /\ forall c', In c' (before c) -> ~ In (tag_of c') tags.
Proof.
  unfold first_match. destruct (before_priority c) as [rest E]. rewrite E.
  split.
  - intros H. split.
    + apply includes_In.
      apply (find_some (fun c => includes tags (tag_of c)) _ H).
    + intros c' Hc' Hin. apply includes_In in Hin.
      pose proof (find_prefix_false _ _ _ _ _ H (not_before_self c) c' Hc')
        as F.
      cbv beta in F. congruence.
  - intros [Hin Hb]. apply find_first.
    + intros c' Hc'. destruct (includes tags (tag_of c')) eqn:F; [|reflexivity].
      apply includes_In in F. now apply Hb in F.
    + now apply includes_In.
Qed.

Lemma first_match_None (tags : list string) :
  first_match tags = None <-> forall c, ~ In (tag_of c) tags.
Proof.
  split.
  - intros H c Hin. apply includes_In in Hin.
    pose proof (find_none _ _ H c) as Hn. cbv beta in Hn.
    rewrite Hin in Hn. assert (In c priority) by (destruct c; simpl; tauto).
    specialize (Hn H0). discriminate.
  - intros H. unfold first_match, priority. cbn [find].
    repeat match goal with
           | |- context [includes tags (tag_of ?c)] =>
               let E := fresh in
               destruct (includes tags (tag_of c)) eqn:E;
               [apply includes_In in E; now apply H in E|]
           end.
    reflexivity.
Qed.

(** * Coordinate quantization: proofs *)

#[global] Instance toFixed_comp (f : nat) : Proper (Qeq ==> Qeq) (fun x => toFixed x f).
Proof.
  intros x x' E. unfold toFixed, Qltb.
  rewrite (Qleb_comp _ _ (Qeq_refl (10 ^ 21)) _ _ (Qabs_wd _ _ E)).
  destruct (Qle_bool (10 ^ 21) (Qabs x')); [exact E|].
  rewrite (Qleb_comp _ _ (Qeq_refl 0) _ _ E).
  assert (F : Qfloor (Qabs x * 10 ^ Z.of_nat f + (1 # 2)) =
              Qfloor (Qabs x' * 10 ^ Z.of_nat f + (1 # 2)))
    by (apply Qfloor_comp; now rewrite E).
  rewrite F. reflexivity.
Qed.

Lemma roundCord_comp (x x' : Q) (precision : nat) :
  x == x' -> roundCord x precision == roundCord x' precision.
Proof.
  intros E. unfold roundCord, parseFloat.
  apply round_double_comp. now apply (toFixed_comp precision).
Qed.

(** ** [toFixed] *)

Lemma pow10_pos (p : nat) : 0 < 10 ^ Z.of_nat p.
Proof. now apply Qpower_0_lt. Qed.

Lemma Qltb_0 (x : Q) : Qltb x 0 = true <-> x < 0.
Proof. apply Qltb_true. Qed.

Lemma Qfloor_unique (t : Q) (z : Z) :
  inject_Z z <= t < inject_Z z + 1 -> Qfloor t = z.
Proof.
  intros [H1 H2]. destruct (Qfloor_bounds t) as [F1 F2].
  assert (A : inject_Z (Qfloor t) < inject_Z (z + 1))
    by (rewrite inject_Z_plus; change (inject_Z 1) with 1; lra).
  assert (B : inject_Z z < inject_Z (Qfloor t + 1))
    by (rewrite inject_Z_plus; change (inject_Z 1) with 1; lra).
  rewrite <- Zlt_Qlt in A, B. lia.
Qed.

(** The decimal that [toFixed] writes, times [10^f], is an integer within
    one half of [x * 10^f]; a tie goes away from zero. *)
Lemma toFixed_spec (x : Q) (f : nat) :
  Qabs x < 10 ^ 21 ->
  exists n : Z,
    toFixed x f * 10 ^ Z.of_nat f == inject_Z n /\
    ((0 <= x /\ inject_Z n - (1 # 2) <= x * 10 ^ Z.of_nat f
                                     < inject_Z n + (1 # 2)) \/
     (x < 0 /\ inject_Z n - (1 # 2) < x * 10 ^ Z.of_nat f
                                    <= inject_Z n + (1 # 2))).
Proof.
  intros Hs. unfold toFixed.
  destruct (Qle_bool (10 ^ 21) (Qabs x)) eqn:C;
    [apply Qle_bool_iff in C; lra|].
  pose proof (pow10_pos f) as PP. set (P := 10 ^ Z.of_nat f) in *.
  destruct (Qfloor_bounds (Qabs x * P + (1 # 2))) as [F1 F2].
  set (N := Qfloor (Qabs x * P + (1 # 2))) in *.
  destruct (Qltb x 0) eqn:S.
  - apply Qltb_0 in S. exists (- N)%Z. rewrite inject_Z_opp. split.
    + field. lra.
    + right. rewrite (Qabs_neg x) in F1, F2 by lra. split; [exact S|].
      split; lra.
  - apply Qltb_false in S. exists N. split.
    + field. lra.
    + left. rewrite (Qabs_pos x) in F1, F2 by lra. split; [exact S|].
      split; lra.
Qed.

Lemma toFixed_unique (y : Q) (f : nat) (n : Z) :
  Qabs y < 10 ^ 21 ->
  (0 <= y /\ inject_Z n - (1 # 2) <= y * 10 ^ Z.of_nat f
                                  < inject_Z n + (1 # 2)) \/
  (y < 0 /\ inject_Z n - (1 # 2) < y * 10 ^ Z.of_nat f
                                 <= inject_Z n + (1 # 2)) ->
  toFixed y f * 10 ^ Z.of_nat f == inject_Z n.
Proof.
  intros Hs H. unfold toFixed.
  destruct (Qle_bool (10 ^ 21) (Qabs y)) eqn:C;
    [apply Qle_bool_iff in C; lra|].
  pose proof (pow10_pos f) as PP. set (P := 10 ^ Z.of_nat f) in *.
  destruct H as [[S [H1 H2]]|[S [H1 H2]]].
  - rewrite (proj2 (Qltb_false y 0) S).
    rewrite (Qfloor_unique (Qabs y * P + (1 # 2)) n)
      by (rewrite (Qabs_pos y) by lra; split; lra).
    field. lra.
  - rewrite (proj2 (Qltb_0 y) S).
    rewrite (Qfloor_unique (Qabs y * P + (1 # 2)) (- n))
      by (rewrite (Qabs_neg y), inject_Z_opp by lra; split; lra).
    rewrite inject_Z_opp. field. lra.
Qed.

Lemma toFixed_large (x : Q) (f : nat) :
  10 ^ 21 <= Qabs x -> toFixed x f = x.
Proof.
  intros H. unfold toFixed. apply Qle_bool_iff in H. now rewrite H.
Qed.

(** ** [roundCord] is idempotent on doubles *)

Lemma roundCord_on_grid (x : Q) (f : nat) : on_grid (roundCord x f).
Proof. apply round_double_on_grid. Qed.

Lemma roundCord_large (x : Q) (f : nat) :
  on_grid x -> 10 ^ 21 <= Qabs x -> roundCord x f == x.
Proof.
  intros G H. unfold roundCord, parseFloat. rewrite toFixed_large by exact H.
  now apply round_double_fixed.
Qed.

Lemma scaled_distance (a b P : Q) :
  0 < P -> Qabs (a - b) * P == Qabs (a * P - b * P).
Proof.
  intros HP. setoid_replace (a * P - b * P) with ((a - b) * P) by ring.
  now rewrite Qabs_Qmult, (Qabs_pos P) by lra.
Qed.

Lemma roundCord_idempotent_grid (x : Q) (f : nat) :
  (1 <= f)%nat -> on_grid x ->
  roundCord (roundCord x f) f == roundCord x f.
Proof.
  intros Hf Gx.
  destruct (Qlt_le_dec (Qabs x) (10 ^ 21)) as [Sx|Lx];
    [|apply roundCord_comp; now apply roundCord_large].
  pose proof (roundCord_on_grid x f) as Gy.
  destruct (Qlt_le_dec (Qabs (roundCord x f)) (10 ^ 21)) as [Sy|Ly];
    [|now apply roundCord_large].
  unfold roundCord at 1. unfold parseFloat at 1.
  unfold roundCord at 2. unfold parseFloat.
  apply round_double_comp.
  (* the decimal written for [roundCord x f] is the one written for [x] *)
  destruct (toFixed_spec x f Sx) as (n & En & Hx).
  pose proof (pow10_pos f) as PP.
  assert (Step : forall a b, on_grid a -> on_grid b ->
                             ~ (b - a) * 10 ^ Z.of_nat f == 1)
    by (intros a b; apply grid_step; lia).
  pose proof (Step x (roundCord x f) Gx Gy) as Sxy.
  pose proof (Step (roundCord x f) x Gy Gx) as Syx.
  pose proof (round_double_nearest (toFixed x f) x Gx) as Near.
  fold (parseFloat (toFixed x f)) in Near. fold (roundCord x f) in Near.
  apply (Qmult_le_r _ _ _ PP) in Near.
  rewrite !scaled_distance, En in Near by exact PP.
  assert (Zero : toFixed x f == 0 -> roundCord x f == 0).
  { intros Z0. unfold roundCord, parseFloat.
    rewrite (round_double_comp _ 0 Z0). reflexivity. }
  set (y := roundCord x f) in *. set (P := 10 ^ Z.of_nat f) in *.
  assert (Ey : toFixed y f * P == inject_Z n).
  { apply toFixed_unique; [exact Sy|]. fold P.
    assert (Hn0 : inject_Z n == 0 -> y == 0).
    { intros N0. apply Zero. rewrite N0 in En.
      revert En PP. generalize (toFixed x f). intros d En PP. nra. }
    assert (Hint : inject_Z n <= -1 \/ inject_Z n == 0 \/ 1 <= inject_Z n).
    { assert (K : (n <= -1 \/ n = 0 \/ 1 <= n)%Z) by lia.
      destruct K as [K|[K|K]]; [left | right; left | right; right].
      - rewrite Zle_Qle in K. exact K.
      - now rewrite K.
      - rewrite Zle_Qle in K. exact K. }
    assert (Ypos : 0 <= y -> 0 <= y * P) by (intros; nra).
    assert (Yneg : y < 0 -> y * P < 0) by (intros; nra).
    assert (Yzero : y == 0 -> y * P == 0) by (intros; nra).
    assert (Xpos : 0 <= x -> 0 <= x * P) by (intros; nra).
    assert (Xneg : x < 0 -> x * P < 0) by (intros; nra).
    assert (Dxy : ~ y * P - x * P == 1)
      by (intros H; apply Sxy; rewrite <- H; ring).
    assert (Dyx : ~ x * P - y * P == 1)
      by (intros H; apply Syx; rewrite <- H; ring).
    revert Near Hx Hn0 Hint Ypos Yneg Yzero Xpos Xneg Dxy Dyx.
    generalize (y * P) (x * P) (inject_Z n). intros Y X z.
    intros Near Hx Hn0 Hint Ypos Yneg Yzero Xpos Xneg Dxy Dyx.
    destruct (Qlt_le_dec y 0) as [Ny|Py]; [right | left];
      (split; [assumption|]).
    - specialize (Yneg Ny).
      destruct Hx as [[Px [X1 X2]]|[Nx [X1 X2]]].
      + specialize (Xpos Px). destruct Hint as [H|[H|H]].
        * exfalso. revert Near. qabs; lra.
        * specialize (Hn0 H). lra.
        * exfalso. revert Near. qabs; lra.
      + specialize (Xneg Nx).
        assert (Y1 : z - (1 # 2) <= Y <= z + (1 # 2))
          by (revert Near; qabs; lra).
        split; [|lra].
        destruct (Qeq_dec Y (z - (1 # 2))) as [Tie|NT]; [|lra].
        exfalso. apply Dyx.
        assert (X == z + (1 # 2)) by (revert Near; qabs; lra). lra.
    - specialize (Ypos Py).
      destruct Hx as [[Px [X1 X2]]|[Nx [X1 X2]]].
      + specialize (Xpos Px).
        assert (Y1 : z - (1 # 2) <= Y <= z + (1 # 2))
          by (revert Near; qabs; lra).
        split; [lra|].
        destruct (Qeq_dec Y (z + (1 # 2))) as [Tie|NT]; [|lra].
        exfalso. apply Dxy.
        assert (X == z - (1 # 2)) by (revert Near; qabs; lra). lra.
      + specialize (Xneg Nx). destruct Hint as [H|[H|H]].
        * exfalso. revert Near. qabs; lra.
        * specialize (Yzero (Hn0 H)). lra.
        * exfalso. revert Near. qabs; lra. }
  apply (Qmult_inj_r _ _ P); [lra|]. now rewrite Ey, En.
Qed.

(** * The Redis store: proofs *)

Lemma key_eqb_refl (k : Key) : key_eqb k k = true.
Proof.
  destruct k; cbn; [now rewrite !Qeq_bool_refl | apply String.eqb_refl].
Qed.

Lemma key_eqb_sym (k k' : Key) : key_eqb k k' = key_eqb k' k.
Proof.
  destruct k, k'; cbn; auto.
  - now rewrite (Qeq_bool_comm roundedLat), (Qeq_bool_comm roundedLon).
  - apply String.eqb_sym.
Qed.

Lemma key_eqb_trans (k1 k2 k3 : Key) :
  key_eqb k1 k2 = true -> key_eqb k2 k3 = true -> key_eqb k1 k3 = true.
Proof.
  destruct k1, k2, k3; cbn; try discriminate.
  - rewrite !andb_true_iff. intros [A B] [C D].
    split; eapply Qeq_bool_trans; eassumption.
  - rewrite !String.eqb_eq. congruence.
Qed.

(** Equal keys select the same entries. *)
Lemma key_eqb_congr (k1 k2 k : Key) :
  key_eqb k1 k2 = true -> key_eqb k k1 = key_eqb k k2.
Proof.
  intros H. destruct (key_eqb k k2) eqn:E.
  - eapply key_eqb_trans; [eassumption|]. now rewrite key_eqb_sym.
  - destruct (key_eqb k k1) eqn:E'; [|reflexivity].
    rewrite <- E. symmetry. eapply key_eqb_trans; eassumption.
Qed.

Lemma key_eqb_unique (i j : string) :
  key_eqb (UniqueKey i) (UniqueKey j) = true <-> i = j.
Proof. apply String.eqb_eq. Qed.

Module RedisFacts.
Import Redis.

Lemma find_congr (now : Z) (s : Store) (k k' : Key) :
  key_eqb k k' = true -> find now s k = find now s k'.
Proof.
  intros H. unfold find. induction s as [|e s IH]; cbn; [reflexivity|].
  now rewrite (key_eqb_congr k k' (key e) H), IH.
Qed.

Lemma find_remove_same (now : Z) (s : Store) (k k' : Key) :
  key_eqb k k' = true -> find now (remove s k) k' = None.
Proof.
  intros H. unfold find, remove.
  induction s as [|e s IH]; cbn; [reflexivity|].
  destruct (key_eqb (key e) k) eqn:E; cbn; [exact IH|].
  rewrite <- (key_eqb_congr k k' (key e) H), E. cbn. exact IH.
Qed.

Lemma find_remove_other (now : Z) (s : Store) (k k' : Key) :
  key_eqb k k' = false -> find now (remove s k) k' = find now s k'.
Proof.
  intros H. unfold find, remove.
  induction s as [|e s IH]; cbn; [reflexivity|].
  destruct (key_eqb (key e) k) eqn:E; cbn.
  - destruct (key_eqb (key e) k') eqn:E'; cbn; [|exact IH].
    rewrite (key_eqb_sym (key e) k) in E.
    now rewrite (key_eqb_trans _ _ _ E E') in H.
  - now rewrite IH.
Qed.

(** After [SET k v EX seconds] the key holds [v] until it expires, and
    nothing afterwards. *)
Lemma find_set_same (now now' : Z) (s : Store) (k k' : Key) (v : Json)
      (seconds : Z) :
  key_eqb k k' = true ->
  find now' (set now s k v seconds) k' =
  if (now' <? now + seconds * 1000)%Z
  then Some (mkEntry k v (Some (now + seconds * 1000)%Z))
  else None.
Proof.
  intros H. unfold set. unfold find at 1. cbn [List.find key].
  rewrite H. cbn [andb live expiry].
  destruct (now' <? now + seconds * 1000)%Z; [reflexivity|].
  now apply find_remove_same.
Qed.

Lemma find_set_other (now now' : Z) (s : Store) (k k' : Key) (v : Json)
      (seconds : Z) :
  key_eqb k k' = false ->
  find now' (set now s k v seconds) k' = find now' s k'.
Proof.
  intros H. unfold set. unfold find at 1. cbn [List.find key].
  rewrite H. cbn [andb]. now apply find_remove_other.
Qed.

Lemma get_set_same (now now' : Z) (s : Store) (k k' : Key) (v : Json)
      (seconds : Z) :
  key_eqb k k' = true ->
  (now' < now + seconds * 1000)%Z ->
  get now' (set now s k v seconds) k' = Some v.
Proof.
  intros H Hlt. unfold get. rewrite find_set_same by assumption.
  apply Z.ltb_lt in Hlt. now rewrite Hlt.
Qed.


(** [INCR] of a live counter: one more, same expiry. *)
Lemma incr_live (now : Z) (s : Store) (k : Key) (e : Entry) (n : Z) :
  find now s k = Some e -> value e = JNumber n ->
  incr now s k = Some (mkEntry k (JNumber (n + 1)) (expiry e) :: remove s k).
Proof. intros H V. unfold incr. now rewrite H, V. Qed.

Lemma find_cons_same (now' : Z) (s : Store) (k k' : Key) (v : Json)
      (ex : option Z) :
  key_eqb k k' = true ->
  find now' (mkEntry k v ex :: remove s k) k' =
  if live now' (mkEntry k v ex) then Some (mkEntry k v ex) else None.
Proof.
  intros H. unfold find at 1. cbn [List.find key]. rewrite H. cbn [andb].
  destruct (live now' _); [reflexivity|]. now apply find_remove_same.
Qed.

Lemma find_cons_other (now' : Z) (s : Store) (k k' : Key) (v : Json)
      (ex : option Z) :
  key_eqb k k' = false ->
  find now' (mkEntry k v ex :: remove s k) k' = find now' s k'.
Proof.
  intros H. unfold find at 1. cbn [List.find key]. rewrite H. cbn [andb].
  now apply find_remove_other.
Qed.


Lemma live_earlier (t t' : Z) (e : Entry) :
  (t <= t')%Z -> live t' e = true -> live t e = true.
Proof.
  unfold live. destruct (expiry e); [|reflexivity].
  rewrite !Z.ltb_lt. lia.
Qed.

Lemma find_later_None (t t' : Z) (s : Store) (k : Key) :
  (t <= t')%Z -> find t s k = None -> find t' s k = None.
Proof.
  intros Ht. unfold find. induction s as [|e s IH]; cbn; [reflexivity|].
  destruct (key_eqb (key e) k); cbn; [|exact IH].
  destruct (live t e) eqn:L; [discriminate|].
  destruct (live t' e) eqn:L'; [|exact IH].
  now rewrite (live_earlier t t' e Ht L') in L.
Qed.

Lemma find_later_Some (t t' : Z) (s : Store) (k : Key) (e : Entry) :
  (t <= t')%Z -> find t s k = Some e -> live t' e = true ->
  find t' s k = Some e.
Proof.
  intros Ht. unfold find. induction s as [|a s IH]; cbn; [discriminate|].
  destruct (key_eqb (key a) k); cbn; [|exact IH].
  destruct (live t a) eqn:L.
  - intros [= ->] L'. now rewrite L'.
  - intros H L'. destruct (live t' a) eqn:La; [|now apply IH].
    now rewrite (live_earlier t t' a Ht La) in L.
Qed.

End RedisFacts.

(** * The lookup pipeline and the route: proofs *)

Local Open Scope string_scope.

Lemma log_nil (w : World) : log w [] = w.
Proof. destruct w; unfold log; cbn. now rewrite app_nil_r. Qed.

Lemma log_log (w : World) (evs evs' : list Event) :
  log (log w evs) evs' = log w (evs ++ evs').
Proof. unfold log; cbn. now rewrite app_assoc. Qed.

(** ** [getNearbyPlaces] as a function of the two provider answers *)

Lemma getNearbyPlaces_outcome (env : Env) (lat lon : Q) (w : World) :
  getNearbyPlaces env lat lon w =
  (fst (lookup_outcome env lat lon), log w (snd (lookup_outcome env lat lon))).
Proof.
  unfold getNearbyPlaces, lookup_outcome, axios_places, bind, emit.
  cbn.
  destruct (places_api env lat lon) as [data|e]; [|reflexivity].
  destruct (pd_features data) as [features|]; [|reflexivity].
  unfold try_catch, fetchIsochrone, axios_isochrone, bind, emit, console_error,
    emit, ret, throw, filterPOI, log. cbn.
  destruct (isochrone_api env lat lon) as [[|f fs]|e]; cbn;
    rewrite <- ?app_assoc; cbn; try reflexivity.
  destruct (iso_coordinates f) as [|ring rings]; [destruct features|];
    reflexivity.
Qed.

(** ** The pieces of the route, one equation each *)

Ltac unfold_m :=
  unfold redis_get, redis_set, redis_incr, put_redis, findOne, insertOne,
    connectToDatabase, console_log, console_error, emit, try_catch, bind,
    ret, throw, log.

Lemma checkUniqueRequestLimit_eq (env : Env) (ip : string) (w : World) :
  checkUniqueRequestLimit env ip w =
  (Return (admits (Redis.get (now env) (redis w) (UniqueKey ip))),
   log w [RedisGet (UniqueKey ip)]).
Proof.
  unfold checkUniqueRequestLimit, admits. unfold_m. cbn.
  now destruct (truthy _ && at_least_5 _).
Qed.

Lemma incrementUniqueRequestCount_absent (env : Env) (ip : string) (w : World) :
  Redis.get (now env) (redis w) (UniqueKey ip) = None ->
  incrementUniqueRequestCount env (now env) ip w =
  (Return tt,
   log (set_redis w (Redis.set (now env) (redis w) (UniqueKey ip)
                               (JNumber 1) (60 * 60)))
       [RedisGet (UniqueKey ip); RedisSet (UniqueKey ip) (60 * 60)]).
Proof.
  intros H. unfold incrementUniqueRequestCount. unfold_m. cbn.
  rewrite H. cbn. now rewrite <- app_assoc.
Qed.

Lemma incrementUniqueRequestCount_live (env : Env) (ip : string) (w : World)
      (e : Redis.Entry) (n : Z) :
  Redis.find (now env) (redis w) (UniqueKey ip) = Some e ->
  Redis.value e = JNumber n ->
  incrementUniqueRequestCount env (now env) ip w =
  (Return tt,
   log (set_redis w (Redis.mkEntry (UniqueKey ip) (JNumber (n + 1))
                                   (Redis.expiry e)
                     :: Redis.remove (redis w) (UniqueKey ip)))
       [RedisGet (UniqueKey ip); RedisIncr (UniqueKey ip)]).
Proof.
  intros H V. unfold incrementUniqueRequestCount. unfold_m. cbn.
  unfold Redis.get. rewrite H. cbn.
  rewrite (RedisFacts.incr_live _ _ _ _ _ H V). cbn.
  now rewrite <- app_assoc.
Qed.

(** The same with the second command at its own instant. *)
Lemma incrementUniqueRequestCount_created (env : Env) (later : Z)
      (ip : string) (w : World) :
  Redis.find (now env) (redis w) (UniqueKey ip) = None ->
  incrementUniqueRequestCount env later ip w =
  (Return tt,
   log (set_redis w (Redis.set later (redis w) (UniqueKey ip)
                               (JNumber 1) (60 * 60)))
       [RedisGet (UniqueKey ip); RedisSet (UniqueKey ip) (60 * 60)]).
Proof.
  intros H. unfold incrementUniqueRequestCount. unfold_m. cbn.
  unfold Redis.get. rewrite H. cbn. now rewrite <- app_assoc.
Qed.

Lemma incrementUniqueRequestCount_kept (env : Env) (later : Z)
      (ip : string) (w : World) (e e' : Redis.Entry) (n : Z) :
  Redis.find (now env) (redis w) (UniqueKey ip) = Some e ->
  Redis.find later (redis w) (UniqueKey ip) = Some e' ->
  Redis.value e' = JNumber n ->
  incrementUniqueRequestCount env later ip w =
  (Return tt,
   log (set_redis w (Redis.mkEntry (UniqueKey ip) (JNumber (n + 1))
                                   (Redis.expiry e')
                     :: Redis.remove (redis w) (UniqueKey ip)))
       [RedisGet (UniqueKey ip); RedisIncr (UniqueKey ip)]).
Proof.
  intros H H' V. unfold incrementUniqueRequestCount. unfold_m. cbn.
  unfold Redis.get. rewrite H. cbn.
  rewrite (RedisFacts.incr_live _ _ _ _ _ H' V). cbn.
  now rewrite <- app_assoc.
Qed.

(** The counter that the [GET] saw has expired when the [INCR] is
    answered: [INCR] makes a new one, which has no expiry. *)
Lemma incrementUniqueRequestCount_recreated (env : Env) (later : Z)
      (ip : string) (w : World) (e : Redis.Entry) :
  Redis.find (now env) (redis w) (UniqueKey ip) = Some e ->
  Redis.find later (redis w) (UniqueKey ip) = None ->
  incrementUniqueRequestCount env later ip w =
  (Return tt,
   log (set_redis w (Redis.mkEntry (UniqueKey ip) (JNumber 1) None
                     :: Redis.remove (redis w) (UniqueKey ip)))
       [RedisGet (UniqueKey ip); RedisIncr (UniqueKey ip)]).
Proof.
  intros H H'. unfold incrementUniqueRequestCount. unfold_m. cbn.
  unfold Redis.get. rewrite H. cbn.
  unfold Redis.incr. rewrite H'. cbn.
  now rewrite <- app_assoc.
Qed.

Lemma connectToDatabase_eq (env : Env) (w : World) :
  connectToDatabase env w =
  (if connected env w then Return tt else Throw "MongoNetworkError",
   log (set_connected w (connected env w)) (connect_events w)).
Proof.
  unfold connectToDatabase, connected, connect_events, set_connected.
  unfold_m. destruct w as [r s c t]; cbn.
  destruct c; cbn; [now rewrite app_nil_r|].
  now destruct (mongo_connects env).
Qed.

Lemma checkMongo_hit (env : Env) (lat lon : Q) (w : World) (d : SavedPlaces) :
  mongo_reads env w = true ->
  durable w lat lon = Some d ->
  checkMongo env lat lon w =
  (Return (Some (mkResponse 200 (JSaved d))),
   log (set_connected
          (set_redis w (Redis.set (now env) (redis w) (cacheKey lat lon)
                                  (JSaved d) (60 * 60 * 6)))
          true)
       (connect_events w ++
        [MongoFindOne (roundCord lat 3, roundCord lon 3);
         ConsoleLog "MongoDB hit";
         RedisSet (cacheKey lat lon) (60 * 60 * 6)])).
Proof.
  unfold mongo_reads, durable. intros Hr Hd.
  apply andb_true_iff in Hr. destruct Hr as [Hc Hf].
  unfold checkMongo. unfold try_catch, bind at 1.
  rewrite connectToDatabase_eq, Hc.
  unfold_m. cbn. rewrite Hf. cbn. rewrite Hd. cbn.
  unfold set_connected, set_redis. cbn.
  now rewrite <- !app_assoc.
Qed.

Lemma checkMongo_miss (env : Env) (lat lon : Q) (w : World) :
  mongo_reads env w = false \/ durable w lat lon = None ->
  checkMongo env lat lon w =
  (Return None,
   log (set_connected w (connected env w)) (check_events env w lat lon)).
Proof.
  unfold mongo_reads, durable, check_events. intros H.
  unfold checkMongo. unfold try_catch, bind at 1.
  rewrite connectToDatabase_eq.
  destruct (connected env w) eqn:Hc.
  - unfold_m. cbn. destruct (mongo_finds env) eqn:Hf; cbn.
    + destruct H as [H|H]; [discriminate|]. rewrite H. cbn.
      unfold set_connected. cbn. now rewrite <- !app_assoc.
    + unfold set_connected. cbn. now rewrite <- !app_assoc.
  - unfold_m. cbn. unfold set_connected. cbn. now rewrite <- !app_assoc.
Qed.

(** The save never throws. *)
Lemma saveToMongo_eq (env : Env) (lat lon : Q) (e : Envelope) (w : World) :
  saveToMongo env lat lon e w = (Return tt, saved_world env lat lon e w).
Proof.
  unfold saveToMongo, saved_world. unfold try_catch, bind at 1.
  rewrite connectToDatabase_eq.
  destruct (connected env w) eqn:Hc.
  - unfold_m. cbn. destruct (mongo_inserts env); cbn;
      unfold set_connected; cbn; now rewrite <- !app_assoc.
  - unfold_m. cbn. unfold set_connected; cbn. now rewrite <- !app_assoc.
Qed.

Lemma saved_world_redis (env : Env) (lat lon : Q) (e : Envelope) (w : World) :
  redis (saved_world env lat lon e w) = redis w.
Proof.
  unfold saved_world.
  destruct (connected env w), (mongo_inserts env); reflexivity.
Qed.

Lemma freshLookup_denied (env : Env) (req : Request) (w : World) :
  admits (Redis.get (now env) (redis w) (UniqueKey (ip req))) = false ->
  freshLookup env req w =
  (Return (mkResponse 429 quota_error), log w (miss_log req)).
Proof.
  intros H. unfold freshLookup.
  unfold try_catch, bind at 1. unfold bind at 1.
  unfold console_log, emit at 1. unfold bind at 1.
  rewrite checkUniqueRequestLimit_eq. cbn [redis]. rewrite H.
  cbn. unfold_m. cbn. now rewrite <- app_assoc.
Qed.

Lemma freshLookup_admitted (env : Env) (req : Request) (w w1 : World) :
  admits (Redis.get (now env) (redis w) (UniqueKey (ip req))) = true ->
  incrementUniqueRequestCount env (now env) (ip req) (log w (miss_log req)) =
    (Return tt, w1) ->
  freshLookup env req w = finish env req w1.
Proof.
  intros H Hinc. unfold freshLookup.
  unfold try_catch, bind at 1. unfold bind at 1.
  unfold console_log, emit at 1. unfold bind at 1.
  rewrite checkUniqueRequestLimit_eq. cbn [redis]. rewrite H.
  cbn [negb]. unfold bind at 1.
  replace (log _ [RedisGet (UniqueKey (ip req))])
    with (log w (miss_log req))
    by (unfold log, miss_log; cbn; now rewrite <- app_assoc).
  rewrite Hinc. unfold bind at 1.
  rewrite getNearbyPlaces_outcome. unfold finish.
  destruct (fst (lookup_outcome env (lat req) (lon req))) as [sortedPoi|e].
  - destruct (error_of sortedPoi) as [err|].
    + reflexivity.
    + unfold bind at 1. unfold redis_set at 1. unfold bind at 1.
      unfold emit at 1. unfold put_redis. unfold bind at 1.
      rewrite saveToMongo_eq. unfold ret.
      f_equal. f_equal. unfold log, set_redis; cbn.
      now rewrite <- !app_assoc.
  - unfold_m. cbn. now rewrite <- !app_assoc.
Qed.

(** A counter that is not a number makes [INCR] fail; the outer [catch]
    answers. *)
Lemma freshLookup_broken (env : Env) (req : Request) (w : World)
      (e : Redis.Entry) :
  Redis.find (now env) (redis w) (UniqueKey (ip req)) = Some e ->
  (forall n, Redis.value e <> JNumber n) ->
  freshLookup env req w =
  (Return internal_error,
   log w (miss_log req ++
          [RedisGet (UniqueKey (ip req)); RedisIncr (UniqueKey (ip req));
           ConsoleError "Error:"])).
Proof.
  intros H V. unfold freshLookup.
  unfold try_catch, bind at 1. unfold bind at 1.
  unfold console_log, emit at 1. unfold bind at 1.
  rewrite checkUniqueRequestLimit_eq. cbn [redis].
  unfold admits, Redis.get. rewrite H. cbn [option_map truthy parseInt].
  assert (P : at_least_5 match Redis.value e with
                         | JNumber n => Some n | _ => None end = false)
    by (destruct (Redis.value e); try reflexivity; now destruct (V n)).
  rewrite P. cbn [andb negb]. unfold bind at 1.
  unfold incrementUniqueRequestCount, redis_get. unfold bind at 1 2.
  unfold emit at 1. cbn [log redis]. unfold Redis.get. rewrite H.
  cbn [option_map truthy]. unfold redis_incr, bind at 1. unfold emit at 1.
  cbn [redis]. unfold at_time. cbn [now]. unfold Redis.incr. rewrite H.
  destruct (Redis.value e) eqn:Ev; try (now destruct (V n));
    unfold_m; unfold miss_log; cbn; now rewrite <- !app_assoc.
Qed.

(** ** The three ways through the route *)

Lemma nearbyPlaces_fast_hit (env : Env) (req : Request) (w : World)
      (data : Json) :
  Redis.get (now env) (redis w) (cacheKey (lat req) (lon req)) = Some data ->
  nearbyPlaces env req w =
  (Return (mkResponse 200 data),
   log w [RedisGet (cacheKey (lat req) (lon req)); ConsoleLog "Cache hit"]).
Proof.
  intros H. unfold nearbyPlaces. unfold_m. cbn. rewrite H. cbn.
  now rewrite <- app_assoc.
Qed.

Lemma nearbyPlaces_durable_hit (env : Env) (req : Request) (w : World)
      (d : SavedPlaces) :
  Redis.get (now env) (redis w) (cacheKey (lat req) (lon req)) = None ->
  mongo_reads env w = true ->
  durable w (lat req) (lon req) = Some d ->
  nearbyPlaces env req w =
  (Return (mkResponse 200 (JSaved d)),
   log (set_connected
          (set_redis w (Redis.set (now env) (redis w)
                                  (cacheKey (lat req) (lon req))
                                  (JSaved d) (60 * 60 * 6)))
          true)
       (RedisGet (cacheKey (lat req) (lon req)) ::
        connect_events w ++
        [MongoFindOne (roundCord (lat req) 3, roundCord (lon req) 3);
         ConsoleLog "MongoDB hit";
         RedisSet (cacheKey (lat req) (lon req)) (60 * 60 * 6)])).
Proof.
  intros H Hr Hd. unfold nearbyPlaces.
  unfold bind at 1. unfold redis_get, bind at 1. unfold emit at 1.
  cbn [redis]. rewrite H. unfold bind at 1.
  rewrite (checkMongo_hit env (lat req) (lon req) _ d);
    [| exact Hr | exact Hd].
  unfold ret, log, set_connected, set_redis; cbn.
  now rewrite <- !app_assoc.
Qed.

Lemma nearbyPlaces_fresh (env : Env) (req : Request) (w : World) :
  Redis.get (now env) (redis w) (cacheKey (lat req) (lon req)) = None ->
  mongo_reads env w = false \/ durable w (lat req) (lon req) = None ->
  nearbyPlaces env req w = freshLookup env req (after_check env req w).
Proof.
  intros H Hm. unfold nearbyPlaces.
  unfold bind at 1. unfold redis_get, bind at 1. unfold emit at 1.
  cbn [redis]. rewrite H. unfold bind at 1.
  rewrite checkMongo_miss by exact Hm.
  f_equal. unfold after_check, log, set_connected; cbn.
  now rewrite <- !app_assoc.
Qed.

(** ** Cache-missing lookups and the quota counter *)

Lemma durable_hit_None (env : Env) (req : Request) (w : World) :
  durable_hit env req w = None ->
  mongo_reads env w = false \/ durable w (lat req) (lon req) = None.
Proof. unfold durable_hit. destruct (mongo_reads env w); auto. Qed.

Lemma finish_returns (env : Env) (req : Request) (w : World) :
  exists resp, fst (finish env req w) = Return resp /\
               (status resp = 200 \/ status resp = 500)%nat.
Proof.
  unfold finish.
  destruct (fst (lookup_outcome env (lat req) (lon req))) as [r|e];
    [destruct (error_of r)|]; cbn; eauto.
Qed.

Lemma finish_counter (env : Env) (req : Request) (w : World) (t : Z)
      (ip0 : string) :
  counter t (snd (finish env req w)) ip0 = counter t w ip0.
Proof.
  unfold finish, counter.
  destruct (fst (lookup_outcome env (lat req) (lon req))) as [r|e];
    [destruct (error_of r)|]; cbn [snd]; try reflexivity.
  rewrite saved_world_redis. cbn [log redis set_redis].
  now apply RedisFacts.find_set_other.
Qed.

Lemma admits_absent : admits None = true.
Proof. reflexivity. Qed.

Lemma admits_number (n : Z) : admits (Some (JNumber n)) = (n <? 5)%Z.
Proof.
  unfold admits. cbn. destruct (Z.leb_spec 5 n), (Z.ltb_spec n 5);
    try reflexivity; lia.
Qed.

(** The first unique lookup of a window: the counter is created. *)
Lemma lookup_creates (env : Env) (req : Request) (w : World) :
  cache_missing env req w = true ->
  counter (now env) w (ip req) = None ->
  exists resp w',
    nearbyPlaces env req w = (Return resp, w') /\
    denied (Return resp) = false /\
    forall t,
      counter t w' (ip req) =
      if (t <? now env + 60 * 60 * 1000)%Z
      then Some (Redis.mkEntry (UniqueKey (ip req)) (JNumber 1)
                               (Some (now env + 60 * 60 * 1000)%Z))
      else None.
Proof.
  unfold cache_missing, fast_hit. intros Hm Hc. unfold counter in Hc.
  destruct (Redis.get _ _ (cacheKey _ _)) eqn:Hf; [discriminate|].
  destruct (durable_hit env req w) eqn:Hd; [discriminate|].
  rewrite nearbyPlaces_fresh by (auto using durable_hit_None).
  assert (Hg : Redis.get (now env) (redis (after_check env req w))
                         (UniqueKey (ip req)) = None)
    by (unfold Redis.get; cbn [after_check log redis set_connected];
        now rewrite Hc).
  erewrite freshLookup_admitted;
    [| now rewrite Hg
     | apply incrementUniqueRequestCount_absent; exact Hg].
  destruct (finish_returns env req
              (log (set_redis (log (after_check env req w) (miss_log req))
                      (Redis.set (now env)
                         (redis (log (after_check env req w) (miss_log req)))
                         (UniqueKey (ip req)) (JNumber 1) (60 * 60)))
                   [RedisGet (UniqueKey (ip req));
                    RedisSet (UniqueKey (ip req)) (60 * 60)]))
    as (resp & Hr & Hs).
  eexists resp, _. split; [rewrite <- Hr; apply surjective_pairing|].
  split; [cbn; destruct Hs as [-> | ->]; reflexivity|].
  intros t. rewrite finish_counter. unfold counter.
  cbn [log redis set_redis after_check set_connected].
  rewrite RedisFacts.find_set_same by apply key_eqb_refl.
  reflexivity.
Qed.

(** The second [try], by the state of the counter. *)
Lemma freshLookup_eq (env : Env) (req : Request) (w : World) :
  freshLookup env req w =
  match counter (now env) w (ip req) with
  | None =>
      finish env req
        (recorded req w
           (Redis.set (now env) (redis w) (UniqueKey (ip req)) (JNumber 1)
                      (60 * 60))
           (RedisSet (UniqueKey (ip req)) (60 * 60)))
  | Some e =>
      match Redis.value e with
      | JNumber n =>
          if (n <? 5)%Z then
            finish env req
              (recorded req w
                 (Redis.mkEntry (UniqueKey (ip req)) (JNumber (n + 1))
                                (Redis.expiry e)
                  :: Redis.remove (redis w) (UniqueKey (ip req)))
                 (RedisIncr (UniqueKey (ip req))))
          else (Return (mkResponse 429 quota_error), log w (miss_log req))
      | _ =>
          (Return internal_error,
           log w (miss_log req ++
                  [RedisGet (UniqueKey (ip req));
                   RedisIncr (UniqueKey (ip req));
                   ConsoleError "Error:"]))
      end
  end.
Proof.
  unfold counter.
  destruct (Redis.find (now env) (redis w) (UniqueKey (ip req))) as [e|] eqn:Hc.
  - destruct (Redis.value e) eqn:V;
      try (apply (freshLookup_broken env req w e Hc); intros m; rewrite V;
           discriminate).
    assert (Hg : Redis.get (now env) (redis w) (UniqueKey (ip req)) =
                 Some (JNumber n))
      by (unfold Redis.get; rewrite Hc; cbn; now rewrite V).
    destruct (n <? 5)%Z eqn:Hn.
    + apply freshLookup_admitted; [now rewrite Hg, admits_number|].
      exact (incrementUniqueRequestCount_live env (ip req)
               (log w (miss_log req)) e n Hc V).
    + apply freshLookup_denied. now rewrite Hg, admits_number.
  - assert (Hg : Redis.get (now env) (redis w) (UniqueKey (ip req)) = None)
      by (unfold Redis.get; now rewrite Hc).
    apply freshLookup_admitted; [now rewrite Hg|].
    exact (incrementUniqueRequestCount_absent env (ip req)
             (log w (miss_log req)) Hg).
Qed.

(** The route, by what the tiers answer. *)
Lemma nearbyPlaces_eq (env : Env) (req : Request) (w : World) :
  nearbyPlaces env req w =
  match fast_hit env req w, durable_hit env req w with
  | Some data, _ =>
      (Return (mkResponse 200 data),
       log w [RedisGet (cacheKey (lat req) (lon req)); ConsoleLog "Cache hit"])
  | None, Some d =>
      (Return (mkResponse 200 (JSaved d)),
       log (set_connected
              (set_redis w (Redis.set (now env) (redis w)
                                      (cacheKey (lat req) (lon req))
                                      (JSaved d) (60 * 60 * 6)))
              true)
           (RedisGet (cacheKey (lat req) (lon req)) ::
            connect_events w ++
            [MongoFindOne (roundCord (lat req) 3, roundCord (lon req) 3);
             ConsoleLog "MongoDB hit";
             RedisSet (cacheKey (lat req) (lon req)) (60 * 60 * 6)]))
  | None, None => freshLookup env req (after_check env req w)
  end.
Proof.
  unfold fast_hit.
  destruct (Redis.get _ _ (cacheKey _ _)) as [data|] eqn:Hf.
  - now apply nearbyPlaces_fast_hit.
  - destruct (durable_hit env req w) as [d|] eqn:Hd.
    + unfold durable_hit in Hd.
      destruct (mongo_reads env w) eqn:Hr; [|discriminate].
      now apply nearbyPlaces_durable_hit.
    + apply nearbyPlaces_fresh; auto using durable_hit_None.
Qed.

(** Every request is answered: no exception leaves the route. *)
Lemma freshLookup_returns (env : Env) (req : Request) (w : World) :
  exists resp, fst (freshLookup env req w) = Return resp.
Proof.
  rewrite freshLookup_eq.
  destruct (counter _ _ _) as [e|];
    [destruct (Redis.value e); [destruct (_ <? _)%Z|..]|];
    try (cbn; eauto; fail);
    match goal with
    | |- context [finish ?e ?r ?w] =>
        destruct (finish_returns e r w) as (resp & H & _); eauto
    end.
Qed.

Lemma nearbyPlaces_returns (env : Env) (req : Request) (w : World) :
  exists resp, fst (nearbyPlaces env req w) = Return resp.
Proof.
  rewrite nearbyPlaces_eq.
  destruct (fast_hit env req w); [cbn; eauto|].
  destruct (durable_hit env req w); [cbn; eauto|].
  apply freshLookup_returns.
Qed.

Lemma counter_after_check (env : Env) (req : Request) (w : World) (t : Z)
      (ip0 : string) :
  counter t (after_check env req w) ip0 = counter t w ip0.
Proof. reflexivity. Qed.

(** A unique lookup under the limit: one more, same expiry. *)
Lemma lookup_counts (env : Env) (req : Request) (w : World)
      (e : Redis.Entry) (n : Z) :
  cache_missing env req w = true ->
  counter (now env) w (ip req) = Some e ->
  Redis.value e = JNumber n ->
  (n < 5)%Z ->
  exists resp w',
    nearbyPlaces env req w = (Return resp, w') /\
    denied (Return resp) = false /\
    forall t,
      counter t w' (ip req) =
      let e' := Redis.mkEntry (UniqueKey (ip req)) (JNumber (n + 1))
                              (Redis.expiry e) in
      if Redis.live t e' then Some e' else None.
Proof.
  unfold cache_missing. intros Hm Hc V Hn.
  rewrite nearbyPlaces_eq.
  destruct (fast_hit env req w); [discriminate|].
  destruct (durable_hit env req w); [discriminate|].
  rewrite freshLookup_eq, counter_after_check, Hc, V.
  apply Z.ltb_lt in Hn. rewrite Hn.
  match goal with
  | |- context [finish ?e ?r ?w] =>
      destruct (finish_returns e r w) as (resp & Hr & Hs);
      exists resp, (snd (finish e r w))
  end.
  split; [rewrite <- Hr; apply surjective_pairing|].
  split; [cbn; destruct Hs as [-> | ->]; reflexivity|].
  intros t. rewrite finish_counter. unfold counter.
  cbn [recorded log redis set_redis after_check set_connected].
  now rewrite RedisFacts.find_cons_same by apply key_eqb_refl.
Qed.

(** A unique lookup at the limit is refused and leaves Redis as it was. *)
Lemma lookup_denied (env : Env) (req : Request) (w : World)
      (e : Redis.Entry) (n : Z) :
  cache_missing env req w = true ->
  counter (now env) w (ip req) = Some e ->
  Redis.value e = JNumber n ->
  (5 <= n)%Z ->
  nearbyPlaces env req w =
  (Return (mkResponse 429 quota_error),
   log (after_check env req w) (miss_log req)).
Proof.
  unfold cache_missing. intros Hm Hc V Hn.
  rewrite nearbyPlaces_eq.
  destruct (fast_hit env req w); [discriminate|].
  destruct (durable_hit env req w); [discriminate|].
  rewrite freshLookup_eq, counter_after_check, Hc, V.
  apply Z.ltb_ge in Hn. now rewrite Hn.
Qed.

(** A request of another client, or one that a tier answers, leaves the
    counter alone. *)
Lemma counter_untouched (env : Env) (req : Request) (w : World) (ip0 : string) :
  ip req <> ip0 \/ cache_missing env req w = false ->
  forall t, counter t (snd (nearbyPlaces env req w)) ip0 = counter t w ip0.
Proof.
  unfold cache_missing. intros H t. rewrite nearbyPlaces_eq.
  destruct (fast_hit env req w) as [data|]; [reflexivity|].
  destruct (durable_hit env req w) as [d|].
  - unfold counter. cbn [snd log redis set_connected set_redis].
    now apply RedisFacts.find_set_other.
  - destruct H as [H|H]; [|discriminate].
    assert (K : key_eqb (UniqueKey (ip req)) (UniqueKey ip0) = false)
      by (destruct (key_eqb _ _) eqn:E; [apply key_eqb_unique in E|];
          congruence).
    rewrite freshLookup_eq.
    destruct (counter (now env) _ (ip req)) as [e|];
      [destruct (Redis.value e); [destruct (_ <? _)%Z|..]|];
      try reflexivity;
      rewrite finish_counter; unfold counter;
      cbn [recorded log redis set_redis after_check set_connected].
    + now apply RedisFacts.find_cons_other.
    + now apply RedisFacts.find_set_other.
Qed.

(** ** Runs of requests *)

Lemma counter_later_None (t t' : Z) (w : World) (ip0 : string) :
  (t <= t')%Z -> counter t w ip0 = None -> counter t' w ip0 = None.
Proof. apply RedisFacts.find_later_None. Qed.

Lemma counter_later_Some (t t' : Z) (w : World) (ip0 : string)
      (e : Redis.Entry) :
  (t <= t')%Z -> counter t w ip0 = Some e -> Redis.live t' e = true ->
  counter t' w ip0 = Some e.
Proof. apply RedisFacts.find_later_Some. Qed.

(** While the counter of [ip0] lives with value [n], at most [5 - n] more
    lookups of [ip0] get through. *)
Lemma window_live (ip0 : string) (rs : list (Env * Request)) :
  forall (w : World) (t T : Z) (e : Redis.Entry) (n : Z),
    counter t w ip0 = Some e ->
    Redis.value e = JNumber n ->
    (forall t', (t' < T)%Z -> Redis.live t' e = true) ->
    timely t T rs ->
    (admitted_by ip0 rs w <= Z.to_nat (5 - n))%nat.
Proof.
  induction rs as [|[env req] rs IH]; intros w t T e n Hc V L Ht;
    cbn [admitted_by]; [lia|].
  destruct Ht as [Hnow Ht].
  assert (Hc' : counter (now env) w ip0 = Some e)
    by (apply (counter_later_Some t); [lia | assumption | apply L; lia]).
  destruct (nearbyPlaces env req w) as [r w'] eqn:E.
  destruct (String.eqb (ip req) ip0 && cache_missing env req w) eqn:C.
  - apply andb_true_iff in C. destruct C as [Hip Hm].
    apply String.eqb_eq in Hip. subst ip0.
    destruct (Z.lt_ge_cases n 5) as [Hn|Hn].
    + destruct (lookup_counts env req w e n Hm Hc' V Hn)
        as (resp & w1 & E1 & Hd & Hv).
      rewrite E in E1. injection E1 as -> ->. rewrite Hd. cbn [andb negb].
      assert (Lnow : Redis.live (now env)
                (Redis.mkEntry (UniqueKey (ip req)) (JNumber (n + 1))
                               (Redis.expiry e)) = true)
        by (apply (L (now env)); lia).
      specialize (Hv (now env)). cbn zeta in Hv. rewrite Lnow in Hv.
      specialize (IH w1 (now env) T _ (n + 1)%Z Hv eq_refl L Ht). lia.
    + rewrite (lookup_denied env req w e n Hm Hc' V Hn) in E.
      injection E as <- <-. cbn [denied status negb andb Nat.eqb].
      replace (Z.to_nat (5 - n)) with 0%nat by lia.
      cbn [Nat.add].
      replace 0%nat with (Z.to_nat (5 - n)) by lia.
      apply (IH _ (now env) T e n); auto.
  - cbn [andb Nat.add].
    assert (Hu : ip req <> ip0 \/ cache_missing env req w = false).
    { apply andb_false_iff in C. destruct C as [C|C]; [left|now right].
      intros Heq. rewrite Heq, String.eqb_refl in C. discriminate. }
    pose proof (counter_untouched env req w ip0 Hu (now env)) as U.
    rewrite E in U. cbn [snd] in U.
    apply (IH w' (now env) T e n); auto. now rewrite U.
Qed.

(** From a state without live counter, at most five lookups of [ip0] get
    through within the hour. *)
Lemma window_absent (ip0 : string) (rs : list (Env * Request)) :
  forall (w : World) (t T : Z),
    counter t w ip0 = None ->
    (T <= t + hour)%Z ->
    timely t T rs ->
    (admitted_by ip0 rs w <= 5)%nat.
Proof.
  induction rs as [|[env req] rs IH]; intros w t T Hc HT Ht;
    cbn [admitted_by]; [lia|].
  destruct Ht as [Hnow Ht].
  assert (Hc' : counter (now env) w ip0 = None)
    by (apply (counter_later_None t); [lia | assumption]).
  destruct (nearbyPlaces env req w) as [r w'] eqn:E.
  destruct (String.eqb (ip req) ip0 && cache_missing env req w) eqn:C.
  - apply andb_true_iff in C. destruct C as [Hip Hm].
    apply String.eqb_eq in Hip. subst ip0.
    destruct (lookup_creates env req w Hm Hc') as (resp & w1 & E1 & Hd & Hv).
    rewrite E in E1. injection E1 as -> ->. rewrite Hd. cbn [andb negb].
    assert (B : (admitted_by (ip req) rs w1 <= Z.to_nat (5 - 1))%nat).
    { apply (window_live (ip req) rs w1 (now env) T
               (Redis.mkEntry (UniqueKey (ip req)) (JNumber 1)
                              (Some (now env + 60 * 60 * 1000)%Z)) 1).
      - rewrite Hv. replace (_ <? _)%Z with true; [reflexivity|].
        symmetry. apply Z.ltb_lt. lia.
      - reflexivity.
      - intros t' Ht'. cbn. apply Z.ltb_lt. unfold hour in HT. lia.
      - exact Ht. }
    change (Z.to_nat (5 - 1)) with 4%nat in B. lia.
  - cbn [andb Nat.add].
    assert (Hu : ip req <> ip0 \/ cache_missing env req w = false).
    { apply andb_false_iff in C. destruct C as [C|C]; [left|now right].
      intros Heq. rewrite Heq, String.eqb_refl in C. discriminate. }
    pose proof (counter_untouched env req w ip0 Hu (now env)) as U.
    rewrite E in U. cbn [snd] in U.
    apply (IH w' (now env) T); [now rewrite U | lia | exact Ht].
Qed.

(** Only the quota guard answers 429. *)
Lemma denied_quota_error (env : Env) (req : Request) (w : World) :
  denied (fst (nearbyPlaces env req w)) = true ->
  fst (nearbyPlaces env req w) = Return (mkResponse 429 quota_error).
Proof.
  rewrite nearbyPlaces_eq.
  destruct (fast_hit env req w); [discriminate|].
  destruct (durable_hit env req w); [discriminate|].
  rewrite freshLookup_eq.
  destruct (counter _ _ _) as [e|];
    [destruct (Redis.value e); [destruct (_ <? _)%Z|..]|];
    try discriminate; try reflexivity;
    match goal with
    | |- context [finish ?e ?r ?w] =>
        destruct (finish_returns e r w) as (resp & -> & [H|H]);
        cbn; rewrite H; discriminate
    end.
Qed.

Lemma serve_cons (env : Env) (req : Request) (rs : list (Env * Request))
      (w : World) :
  serve ((env, req) :: rs) w =
  (fst (nearbyPlaces env req w) :: fst (serve rs (snd (nearbyPlaces env req w))),
   snd (serve rs (snd (nearbyPlaces env req w)))).
Proof.
  cbn [serve]. destruct (nearbyPlaces env req w) as [r w'].
  cbn [fst snd]. now destruct (serve rs w').
Qed.

(** Consecutive unique lookups of one client while its counter lives with
    value [n]: lookup number [i] is refused exactly when [n + i] has
    reached five. *)
Lemma serve_live (ip0 : string) (rs : list (Env * Request)) :
  forall (w : World) (t T : Z) (e : Redis.Entry) (n : Z),
    counter t w ip0 = Some e ->
    Redis.value e = JNumber n ->
    (forall t', (t' < T)%Z -> Redis.live t' e = true) ->
    timely t T rs ->
    Forall (fun er => ip (snd er) = ip0) rs ->
    all_missing rs w ->
    map denied (fst (serve rs w)) =
    map (fun i => (5 <=? n + Z.of_nat i)%Z) (seq 0 (List.length rs)).
Proof.
  induction rs as [|[env req] rs IH]; intros w t T e n Hc V L Ht Hip Hm;
    [reflexivity|].
  destruct Ht as [Hnow Ht]. destruct Hm as [Hm Hms].
  inversion Hip as [|? ? Hip0 Hips]; subst. cbn [snd] in *.
  assert (Hc' : counter (now env) w (ip req) = Some e)
    by (apply (counter_later_Some t); [lia | assumption | apply L; lia]).
  rewrite serve_cons. cbn [fst map List.length seq].
  rewrite <- seq_shift, map_map.
  destruct (Z.lt_ge_cases n 5) as [Hn|Hn].
  - destruct (lookup_counts env req w e n Hm Hc' V Hn)
      as (resp & w1 & E1 & Hd & Hv).
    rewrite E1 in *. cbn [fst snd] in *. rewrite Hd.
    assert (Lnow : Redis.live (now env)
              (Redis.mkEntry (UniqueKey (ip req)) (JNumber (n + 1))
                             (Redis.expiry e)) = true)
      by (apply (L (now env)); lia).
    specialize (Hv (now env)). cbn zeta in Hv. rewrite Lnow in Hv.
    rewrite (IH w1 (now env) T _ (n + 1)%Z Hv eq_refl L Ht Hips Hms).
    f_equal; [symmetry; apply Z.leb_gt; lia|].
    apply map_ext. intros i. f_equal. lia.
  - rewrite (lookup_denied env req w e n Hm Hc' V Hn) in *.
    cbn [fst snd denied status Nat.eqb] in *.
    rewrite (IH (log (after_check env req w) (miss_log req)) (now env) T e n
                Hc' V L Ht Hips Hms).
    f_equal; [symmetry; apply Z.leb_le; lia|].
    apply map_ext. intros i.
    transitivity true; [|symmetry]; apply Z.leb_le; lia.
Qed.

(** Consecutive unique lookups of one client within an hour, from a state
    without live counter: the first five get through, the later ones are
    refused. *)
Lemma serve_absent (ip0 : string) (rs : list (Env * Request)) (w : World)
      (t : Z) :
  counter t w ip0 = None ->
  timely t (t + hour) rs ->
  Forall (fun er => ip (snd er) = ip0) rs ->
  all_missing rs w ->
  map denied (fst (serve rs w)) =
  map (fun i => (5 <=? i)%nat) (seq 0 (List.length rs)).
Proof.
  destruct rs as [|[env req] rs]; intros Hc Ht Hip Hm; [reflexivity|].
  destruct Ht as [Hnow Ht]. destruct Hm as [Hm Hms].
  inversion Hip as [|? ? Hip0 Hips]; subst. cbn [snd] in *.
  assert (Hc' : counter (now env) w (ip req) = None)
    by (apply (counter_later_None t); [lia | assumption]).
  rewrite serve_cons. cbn [fst map List.length seq].
  rewrite <- seq_shift, map_map.
  destruct (lookup_creates env req w Hm Hc') as (resp & w1 & E1 & Hd & Hv).
  rewrite E1 in *. cbn [fst snd] in *. rewrite Hd.
  rewrite (serve_live (ip req) rs w1 (now env) (t + hour)
             (Redis.mkEntry (UniqueKey (ip req)) (JNumber 1)
                            (Some (now env + 60 * 60 * 1000)%Z)) 1).
  - f_equal. apply map_ext. intros i.
    destruct (Z.leb_spec 5 (1 + Z.of_nat i)), (Nat.leb_spec 5 (S i));
      try reflexivity; lia.
  - rewrite Hv. replace (_ <? _)%Z with true; [reflexivity|].
    symmetry. apply Z.ltb_lt. lia.
  - reflexivity.
  - intros t' Ht'. cbn. apply Z.ltb_lt. unfold hour in Ht'. lia.
  - exact Ht.
  - exact Hips.
  - exact Hms.
Qed.

Lemma serve_denied_quota_error (rs : list (Env * Request)) :
  forall w r, In r (fst (serve rs w)) -> denied r = true ->
              r = Return (mkResponse 429 quota_error).
Proof.
  induction rs as [|[env req] rs IH]; intros w r; [intros []|].
  rewrite serve_cons. cbn [fst]. intros [<-|Hin] Hd.
  - now apply denied_quota_error.
  - now apply (IH _ _ Hin).
Qed.

(** No request served before the expiry moves it. *)
Lemma expiry_kept (ip0 : string) (E : Z) (env : Env) (req : Request)
      (w : World) :
  expires_at E w ip0 ->
  (now env < E)%Z ->
  expires_at E (snd (nearbyPlaces env req w)) ip0.
Proof.
  intros [n Hv] Hnow.
  assert (Hc : counter (now env) w ip0 =
               Some (Redis.mkEntry (UniqueKey ip0) (JNumber n) (Some E)))
    by (rewrite Hv; apply Z.ltb_lt in Hnow; now rewrite Hnow).
  destruct (String.eqb (ip req) ip0 && cache_missing env req w) eqn:C.
  - apply andb_true_iff in C. destruct C as [Hip Hm].
    apply String.eqb_eq in Hip. subst ip0.
    destruct (Z.lt_ge_cases n 5) as [Hn|Hn].
    + destruct (lookup_counts env req w _ n Hm Hc eq_refl Hn)
        as (resp & w1 & E1 & _ & Hv1).
      rewrite E1. exists (n + 1)%Z. intros t. now rewrite Hv1.
    + rewrite (lookup_denied env req w _ n Hm Hc eq_refl Hn).
      exists n. exact Hv.
  - assert (Hu : ip req <> ip0 \/ cache_missing env req w = false).
    { apply andb_false_iff in C. destruct C as [C|C]; [left|now right].
      intros Heq. rewrite Heq, String.eqb_refl in C. discriminate. }
    exists n. intros t. now rewrite (counter_untouched env req w ip0 Hu).
Qed.

Lemma expiry_kept_run (ip0 : string) (E : Z) (rs : list (Env * Request)) :
  forall (w : World) (t : Z),
    expires_at E w ip0 ->
    timely t E rs ->
    expires_at E (snd (serve rs w)) ip0.
Proof.
  induction rs as [|[env req] rs IH]; intros w t Hx Ht; [exact Hx|].
  destruct Ht as [Hnow Ht]. rewrite serve_cons. cbn [snd].
  apply (IH _ (now env)); [|exact Ht].
  apply expiry_kept; [exact Hx | lia].
Qed.

(** * The properties of the specification *)

Local Open Scope string_scope.

(** ** Geometry filter *)

(** C1.  [pointInPolygon] is the even-odd ray-casting test, in binary64
    arithmetic: it visits one edge per vertex, the edge from the previous
    vertex (the last vertex for the first one), and returns true exactly
    when the number of edges the horizontal ray crosses is odd.  An edge
    counts as crossed when its ends are on different sides of the line of
    the ray and the abscissa of its point at that height, as the code
    computes it, is to the right of the point; for doubles of magnitude
    at most [2^500] at ends that are [2^-500] or more apart in height,
    the computed abscissa is the exact one up to
    [2^-49 * (|xi| + |xj - xi|) + 2^-572].  In the square
    [(0,0),(0,4),(4,4),(4,0)] the point [(2,2)] is inside and [(5,5)]
    outside.  A point at or above, or below, every vertex of a polygon,
    convex or not, is outside; so is, for coordinates of magnitude at
    most [2^500], a point sixteen widths of the bounding box to its right
    or to its left. *)
Theorem pointInPolygon_even_odd :
  (forall p polygon,
      pointInPolygon p polygon = Nat.odd (crossings p polygon)) /\
  (forall polygon, List.length (edges polygon) = List.length polygon) /\
  (forall polygon i,
      (i < List.length polygon)%nat ->
      nth i (edges polygon) (origin, origin) =
      (nth i polygon origin,
       nth (if (i =? 0)%nat then List.length polygon - 1 else i - 1)%nat
           polygon origin)) /\
  (forall x y xi yi xj yj,
      intersect (x, y) (xi, yi) (xj, yj) =
      crossesRow y yi yj && flt (num x) (crossX xi yi xj yj y)) /\
  (forall y yi yj,
      is_double y -> is_double yi -> is_double yj ->
      crossesRow y yi yj = true <->
      (yi <= y /\ y < yj) \/ (yj <= y /\ y < yi)) /\
  (forall x y xi yi xj yj,
      is_double x -> small y ->
      small xi -> small yi -> small xj -> small yj ->
      2 ^ (-500) <= Qabs (yj - yi) ->
      (intersect (x, y) (xi, yi) (xj, yj) = true ->
       ((yi <= y /\ y < yj) \/ (yj <= y /\ y < yi)) /\
       x < crossX_exact xi yi xj yj y + tolerance xi xj) /\
      ((yi <= y /\ y < yj) \/ (yj <= y /\ y < yi) ->
       x < crossX_exact xi yi xj yj y - tolerance xi xj ->
       intersect (x, y) (xi, yi) (xj, yj) = true)) /\
  (forall xi yi xj yj y,
      (yi <= y /\ y < yj) \/ (yj <= y /\ y < yi) ->
      exists t, 0 <= t <= 1 /\
                yi + t * (yj - yi) == y /\
                crossX_exact xi yi xj yj y == xi + t * (xj - xi)) /\
  pointInPolygon (2, 2) square = true /\
  pointInPolygon (5, 5) square = false /\
  (forall p polygon,
      double_point p -> Forall double_point polygon ->
      above p polygon \/ below p polygon ->
      pointInPolygon p polygon = false) /\
  (forall p polygon W,
      small_point p -> Forall small_point polygon -> wide polygon W ->
      far_left p polygon W \/ far_right p polygon W ->
      pointInPolygon p polygon = false).
Proof.
  split; [exact pointInPolygon_parity|].
  split; [exact edges_length|].
  split; [exact edges_nth|].
  split.
  { intros x y xi yi xj yj. cbn [intersect].
    now destruct (crossesRow y yi yj). }
  split; [exact crossesRow_true|].
  split.
  { intros x y xi yi xj yj Dx Sy Sxi Syi Sxj Syj Hh.
    rewrite (intersect_small x y xi yi xj yj Dx Sy Sxi Syi Sxj Syj).
    pose proof (crossesRow_true y yi yj (proj1 Sy) (proj1 Syi) (proj1 Syj))
      as R.
    split.
    - intros H. apply andb_true_iff in H. destruct H as [C L].
      apply R in C. apply Qltb_true in L. split; [exact C|].
      pose proof (crossX_error xi yi xj yj y Sxi Syi Sxj Syj Sy C Hh) as E.
      revert L E.
      generalize (crossX_rounded xi yi xj yj y) (crossX_exact xi yi xj yj y)
                 (tolerance xi xj).
      clear. intros c e t. qabs; lra.
    - intros C L.
      pose proof (crossX_error xi yi xj yj y Sxi Syi Sxj Syj Sy C Hh) as E.
      apply andb_true_iff. split; [now apply R|]. apply Qltb_true.
      revert L E.
      generalize (crossX_rounded xi yi xj yj y) (crossX_exact xi yi xj yj y)
                 (tolerance xi xj).
      clear. intros c e t. qabs; lra. }
  split.
  { intros xi yi xj yj y S.
    destruct (row_parameter yi yj y S) as [Et Ht].
    exists ((y - yi) / (yj - yi)). split; [exact Ht|]. split; [lra|].
    unfold crossX_exact. field. destruct S; lra. }
  split; [reflexivity|].
  split; [reflexivity|].
  split.
  { intros p polygon Dp Dv [H|H];
      [now apply outside_above | now apply outside_below]. }
  intros p polygon W Sp Sv Hw [H|H];
    [now apply (outside_left p polygon W) |
     now apply (outside_right p polygon W)].
Qed.

(** Small integers are doubles. *)
Lemma small_integer (n : Z) :
  (Z.abs n < 2 ^ 53)%Z -> small (inject_Z n).
Proof.
  intros H. split.
  - exists n, 0%Z. split; [exact H|]. split; [lia|].
    change (2 ^ 0) with 1. ring.
  - rewrite Qabs_inject_Z.
    apply Qle_trans with (inject_Z (2 ^ 53)); [rewrite <- Zle_Qle; lia|].
    rewrite pow2_Z by lia. apply pow2_mono. lia.
Qed.

Lemma pointInPolygon_even_odd_witness :
  far_left (-100, 2) arrow 4 /\ pointInPolygon (-100, 2) arrow = false.
Proof.
  assert (H : far_left (-100, 2) arrow 4).
  { intros v Hv. cbn in Hv.
    repeat (destruct Hv as [<-|Hv]; [cbn; lra|]). destruct Hv. }
  assert (S : forall n : Z, (Z.abs n < 1000)%Z -> small (inject_Z n))
    by (intros n Hn; apply small_integer; lia).
  split; [exact H|].
  refine (proj2 (proj2 (proj2 (proj2 (proj2 (proj2 (proj2 (proj2 (proj2
            (proj2 pointInPolygon_even_odd)))))))))
            (-100, 2) arrow 4 _ _ _ (or_introl H)).
  - split; [apply (S (-100)%Z) | apply (S 2%Z)]; reflexivity.
  - unfold arrow.
    repeat (apply Forall_cons;
            [split; cbn [fst snd];
             match goal with |- small (?n # 1) => apply (S n); reflexivity end
            |]).
    apply Forall_nil.
  - intros v v' Hv Hv'. cbn in Hv, Hv'.
    repeat (destruct Hv as [<-|Hv]; [|]);
      repeat (destruct Hv' as [<-|Hv']; [|]);
      try contradiction; cbn; unfold Qle; cbn; lia.
Defined.

Lemma power_of_two_double (e : Z) :
  (0 <= e <= 971)%Z -> is_double (2 ^ e).
Proof.
  intros H. exists 1%Z, e. split; [reflexivity|]. split; [lia|].
  change (inject_Z 1) with 1. ring.
Qed.

(** C1 as stated fails for coordinates of any magnitude.  The point
    [(2^800, 2^700)] is far to the right of the triangle, by more than
    sixteen of its widths; the product [(xj - xi) * (y - yi)] of the
    closing edge overflows, [x < Infinity] holds, that edge alone is
    counted, and the point is reported inside. *)
Lemma far_outside_reported_inside :
  double_point (2 ^ 800, 2 ^ 700) /\
  Forall double_point huge_triangle /\
  wide huge_triangle (2 ^ 700) /\
  far_right (2 ^ 800, 2 ^ 700) huge_triangle (2 ^ 700) /\
  pointInPolygon (2 ^ 800, 2 ^ 700) huge_triangle = true.
Proof.
  assert (Z0 : is_double 0).
  { exists 0%Z, 0%Z. split; [reflexivity|]. split; [lia | reflexivity]. }
  assert (P : forall e, (0 <= e <= 971)%Z -> is_double (2 ^ e))
    by exact power_of_two_double.
  split; [split; apply P; lia|].
  split.
  { repeat constructor; cbn [fst snd]; try exact Z0; apply P; lia. }
  split.
  { intros v v' Hv Hv'. cbn in Hv, Hv'.
    repeat (destruct Hv as [<-|Hv]; [|]);
      repeat (destruct Hv' as [<-|Hv']; [|]);
      try contradiction; vm_compute; intros K; discriminate K. }
  split.
  { intros v Hv. cbn in Hv.
    repeat (destruct Hv as [<-|Hv]; [|]); try contradiction;
      vm_compute; intros K; discriminate K. }
  vm_compute. reflexivity.
Qed.

(** Outside the bounding box by less than the rounding of the abscissa,
    a point can be reported inside: here it is to the right of every
    vertex. *)
Lemma just_outside_reported_inside :
  (forall v, In v sliver -> fst v < fst beside_sliver) /\
  pointInPolygon beside_sliver sliver = true.
Proof.
  split; [|vm_compute; reflexivity].
  intros v Hv. cbn [sliver In] in Hv.
  repeat (destruct Hv as [<-|Hv]; [vm_compute; reflexivity|]).
  destruct Hv.
Qed.

(** C9.  [pointInPolygon] is total and never divides by zero: the loop
    with the division checked returns the same result, the loop has left
    after [polygon.length] iterations whatever fuel is left, and on an
    edge whose endpoints have the same [y] the test [yi > y !== yj > y]
    is false for every point, so that the division is not evaluated and
    the edge does not toggle the flag; wherever the test is true the
    denominator [yj - yi] is not zero. *)
Theorem pointInPolygon_never_divides_by_zero :
  (forall p polygon,
      pointInPolygon_checked p polygon = Some (pointInPolygon p polygon)) /\
  (forall p polygon fuel,
      (List.length polygon <= fuel)%nat ->
      pip_loop fuel p polygon 0 (List.length polygon - 1) false =
      pointInPolygon p polygon) /\
  (forall y yi yj, yi == yj -> crossesRow y yi yj = false) /\
  (forall p xi yi xj yj,
      yi == yj ->
      intersect p (xi, yi) (xj, yj) = false /\
      intersect_checked p (xi, yi) (xj, yj) = Some false) /\
  (forall y yi yj, crossesRow y yi yj = true -> ~ yj - yi == 0).
Proof.
  split; [intros p polygon; apply pip_loop_checked_ok|].
  split; [exact pip_loop_fuel|].
  split; [exact crossesRow_horizontal|].
  split; [|exact crossesRow_denominator].
  intros [x y] xi yi xj yj E.
  assert (I : intersect (x, y) (xi, yi) (xj, yj) = false)
    by (cbn; now rewrite crossesRow_horizontal).
  split; [exact I|]. now rewrite intersect_checked_ok, I.
Qed.

Lemma pointInPolygon_never_divides_by_zero_witness :
  crossesRow 4 4 4 = false /\
  intersect (2, 4) (0, 4) (4, 4) = false /\
  pointInPolygon_checked (2, 4) square = Some false.
Proof.
  split;
    [exact (proj1 (proj2 (proj2 pointInPolygon_never_divides_by_zero))
                  4 4 4 (Qeq_refl 4))|].
  split;
    [exact (proj1 (proj1 (proj2 (proj2 (proj2
              pointInPolygon_never_divides_by_zero)))
              (2, 4) 0 4 4 4 (Qeq_refl 4)))|].
  exact (proj1 pointInPolygon_never_divides_by_zero (2, 4) square).
Defined.

(** ** Classifier *)

(** C2.  [sortByCategory] puts a POI into at most one bucket, that of the
    first rule in the order supermarket > pharmacy > restaurant >
    fastfood > hotel whose tag is among the POI's tags, and pushes that
    rule's label, and only it, onto the POI's categories; the other
    buckets stay as they are.  A POI with none of the five tags is put
    nowhere and is left unchanged.  A POI tagged with the supermarket and
    restaurant tags lands in [supermarket] only, one tagged with the
    fast-food tag in [fastfood] only, one tagged [leisure.park] in no
    bucket. *)
Theorem sortByCategory_first_match_only :
  (forall poi tags b,
      let poi' := fst (sortByCategory poi tags b) in
      let b' := snd (sortByCategory poi tags b) in
      match first_match tags with
      | Some c =>
          poi' = push_category poi (label_of c) /\
          categories poi' = (categories poi ++ [label_of c])%list /\
          bucket c b' = (bucket c b ++ [poi'])%list /\
          (forall c', c' <> c -> bucket c' b' = bucket c' b) /\
          total b' = S (total b)
      | None => poi' = poi /\ b' = b
      end) /\
  (forall tags c,
      first_match tags = Some c <->
      In (tag_of c) tags /\
      forall c', In c' (before c) -> ~ In (tag_of c') tags) /\
  (forall tags,
      first_match tags = None <-> forall c, ~ In (tag_of c) tags) /\
  sortByCategory shop (categories shop) emptyBuckets =
    (push_category shop "supermarket",
     mkBuckets [push_category shop "supermarket"] [] [] [] []) /\
  sortByCategory kebab (categories kebab) emptyBuckets =
    (push_category kebab "fastfood",
     mkBuckets [] [] [] [push_category kebab "fastfood"] []) /\
  sortByCategory park (categories park) emptyBuckets = (park, emptyBuckets).
Proof.
  split.
  { intros poi tags b. cbv zeta. rewrite sortByCategory_first_match.
    destruct (first_match tags) as [c|]; [|split; reflexivity].
    split; [reflexivity|]. split; [reflexivity|].
    split; [rewrite place_bucket;
            now rewrite (proj2 (Category_eqb_eq c c) eq_refl)|].
    split; [|apply place_total].
    intros c' Hc'. rewrite place_bucket.
    destruct (Category_eqb c c') eqn:E; [|reflexivity].
    apply Category_eqb_eq in E. congruence. }
  split; [exact first_match_iff|].
  split; [exact first_match_None|].
  repeat split.
Qed.

Lemma sortByCategory_first_match_only_witness :
  first_match (categories shop) = Some Supermarket /\
  bucket Restaurant (snd (sortByCategory shop (categories shop) emptyBuckets))
  = [].
Proof.
  split; [reflexivity|].
  exact (proj1 (proj2 (proj2 (proj2
           (proj1 sortByCategory_first_match_only shop (categories shop)
                  emptyBuckets))))
           Restaurant ltac:(discriminate)).
Defined.

(** ** Quantization *)

Lemma pair_eqb_congr (c : Q * Q) (a b a' b' : Q) :
  a == a' -> b == b' -> pair_eqb c (a, b) = pair_eqb c (a', b').
Proof.
  intros Ea Eb. unfold pair_eqb. cbn [fst snd].
  now rewrite (Qeqb_comp _ _ (Qeq_refl (fst c)) _ _ Ea),
              (Qeqb_comp _ _ (Qeq_refl (snd c)) _ _ Eb).
Qed.

Lemma durable_congr (w : World) (lat lon lat' lon' : Q) :
  roundCord lat 3 == roundCord lat' 3 ->
  roundCord lon 3 == roundCord lon' 3 ->
  durable w lat lon = durable w lat' lon'.
Proof.
  intros Ea Eb. unfold durable.
  induction (savedPlaces w) as [|d l IH]; [reflexivity|]. cbn [List.find].
  now rewrite (pair_eqb_congr _ _ _ _ _ Ea Eb), IH.
Qed.

Lemma cacheKey_congr (lat lon lat' lon' : Q) :
  roundCord lat 3 == roundCord lat' 3 ->
  roundCord lon 3 == roundCord lon' 3 ->
  key_eqb (cacheKey lat lon) (cacheKey lat' lon') = true.
Proof.
  intros Ea Eb. unfold cacheKey. cbn [key_eqb].
  apply andb_true_iff. split; now apply Qeq_bool_iff.
Qed.

(** C5.  Quantization to three decimals is deterministic (equal numbers
    have equal quantized values) and idempotent on every finite double
    [x]: [roundCord(roundCord(x, 3), 3)] is [roundCord(x, 3)].  Two
    coordinates with the same quantized values have the same cache key,
    read the same Redis entry and the same MongoDB document, whichever is
    asked first.  The double written [12.34567] is quantized to the
    double written [12.346]. *)
Theorem roundCord_deterministic_idempotent :
  (forall x x', x == x' -> roundCord x 3 == roundCord x' 3) /\
  (forall x, is_double x -> roundCord (roundCord x 3) 3 == roundCord x 3) /\
  (forall lat lon lat' lon',
      roundCord lat 3 == roundCord lat' 3 ->
      roundCord lon 3 == roundCord lon' 3 ->
      key_eqb (cacheKey lat lon) (cacheKey lat' lon') = true /\
      key_eqb (cacheKey lat' lon') (cacheKey lat lon) = true /\
      (forall t s,
          Redis.get t s (cacheKey lat lon) = Redis.get t s (cacheKey lat' lon')) /\
      (forall w, durable w lat lon = durable w lat' lon')) /\
  roundCord (parseFloat (1234567 # 100000)) 3 == parseFloat (12346 # 1000).
Proof.
  split; [intros x x'; apply roundCord_comp|].
  split.
  { intros x Hx. apply roundCord_idempotent_grid; [lia|].
    now apply is_double_on_grid. }
  split.
  { intros lat lon lat' lon' Ea Eb.
    pose proof (cacheKey_congr _ _ _ _ Ea Eb) as K.
    split; [exact K|]. split; [now rewrite key_eqb_sym|].
    split; [|intros w; now apply durable_congr].
    intros t s. unfold Redis.get. now rewrite (RedisFacts.find_congr t s _ _ K). }
  vm_compute. reflexivity.
Qed.

Lemma roundCord_deterministic_idempotent_witness :
  is_double (parseFloat (1234567 # 100000)) /\
  roundCord (roundCord (parseFloat (1234567 # 100000)) 3) 3 ==
  roundCord (parseFloat (1234567 # 100000)) 3.
Proof.
  assert (H : is_double (parseFloat (1234567 # 100000))).
  { exists 6949994351454889%Z, (-49)%Z.
    split; [reflexivity|]. split; [lia|]. vm_compute. reflexivity. }
  split; [exact H|].
  exact (proj1 (proj2 roundCord_deterministic_idempotent) _ H).
Defined.

(** ** Quota guard *)

(** C3 as stated fails.  Six consecutive unique lookups of one client
    within an hour (here within two seconds) are all let through when the
    hour of an earlier counter ends among them, which makes nine lookups
    let through in little more than an hour; and a coordinate that is in
    the durable tier is refused with 429 when MongoDB cannot be read and
    the quota is used up. *)
Lemma quota_six_in_an_hour_all_admitted :
  (Forall (fun er => ip (snd er) = "203.0.113.7") quota_six /\
   timely 3599000 (3599000 + hour) quota_six /\
   all_missing quota_six quota_world /\
   map denied (fst (serve quota_six quota_world)) =
     [false; false; false; false; false; false] /\
   admitted_by "203.0.113.7" (quota_history ++ quota_six) emptyWorld = 9%nat) /\
  (durable stale_world 10 0 <> None /\
   fst (nearbyPlaces (env_mongo_down 21602000)
                     (lookup_of "203.0.113.7" 10) stale_world) =
   Return (mkResponse 429 quota_error)).
Proof.
  split.
  - split; [repeat constructor|].
    split; [cbn; unfold hour; lia|].
    split; [vm_compute; repeat split|].
    split; vm_compute; reflexivity.
  - split; [vm_compute; discriminate | vm_compute; reflexivity].
Qed.

(** C3, amended.  The quota is counted in fixed windows: from a state in
    which the client has no live counter, consecutive unique (cache
    missing) lookups of that client within the following hour are let
    through for the first five and refused from the sixth on, with status
    429 and code [UNIQUE_REQUESTS_LIMIT_EXCEEDED]; and whatever other
    requests are served in between, at most five unique lookups of the
    client are let through in that hour, and while a counter with value
    [n] lives at most [5 - n] more.  A request whose coordinate is
    in the fast tier, or in the durable tier when MongoDB answers the
    read, is served with status 200 without reading or changing any
    quota counter. *)
Theorem quota_fixed_window :
  (forall ip0 rs w t,
      counter t w ip0 = None ->
      timely t (t + hour) rs ->
      Forall (fun er => ip (snd er) = ip0) rs ->
      all_missing rs w ->
      map denied (fst (serve rs w)) =
        map (fun i => (5 <=? i)%nat) (seq 0 (List.length rs)) /\
      forall r, In r (fst (serve rs w)) -> denied r = true ->
                r = Return (mkResponse 429 quota_error)) /\
  (forall ip0 rs w t,
      counter t w ip0 = None ->
      timely t (t + hour) rs ->
      (admitted_by ip0 rs w <= 5)%nat) /\
  (forall ip0 rs w t T e n,
      counter t w ip0 = Some e ->
      Redis.value e = JNumber n ->
      (forall t', (t' < T)%Z -> Redis.live t' e = true) ->
      timely t T rs ->
      (admitted_by ip0 rs w <= Z.to_nat (5 - n))%nat) /\
  (forall env req w data,
      fast_hit env req w = Some data ->
      nearbyPlaces env req w =
      (Return (mkResponse 200 data),
       log w [RedisGet (cacheKey (lat req) (lon req));
              ConsoleLog "Cache hit"])) /\
  (forall env req w d,
      fast_hit env req w = None ->
      mongo_reads env w = true ->
      durable w (lat req) (lon req) = Some d ->
      fst (nearbyPlaces env req w) = Return (mkResponse 200 (JSaved d)) /\
      trace (snd (nearbyPlaces env req w)) =
        (trace w ++
         RedisGet (cacheKey (lat req) (lon req)) ::
         connect_events w ++
         [MongoFindOne (roundCord (lat req) 3, roundCord (lon req) 3);
          ConsoleLog "MongoDB hit";
          RedisSet (cacheKey (lat req) (lon req)) (60 * 60 * 6)])%list /\
      forall t ip0, counter t (snd (nearbyPlaces env req w)) ip0 =
                    counter t w ip0).
Proof.
  split.
  { intros ip0 rs w t Hc Ht Hip Hm. split.
    - now apply (serve_absent ip0 rs w t).
    - apply serve_denied_quota_error. }
  split.
  { intros ip0 rs w t Hc Ht.
    apply (window_absent ip0 rs w t (t + hour)); auto. lia. }
  split; [intros ip0 rs; apply window_live|].
  split; [exact nearbyPlaces_fast_hit|].
  intros env req w d Hf Hr Hd.
  rewrite (nearbyPlaces_durable_hit env req w d Hf Hr Hd). cbn [fst snd].
  split; [reflexivity|]. split; [reflexivity|].
  intros t ip0. unfold counter. cbn [log redis set_connected set_redis].
  now apply RedisFacts.find_set_other.
Qed.

Lemma quota_fixed_window_witness :
  map denied (fst (serve six_lookups emptyWorld)) =
  [false; false; false; false; false; true].
Proof.
  refine (proj1 (proj1 quota_fixed_window "203.0.113.7" six_lookups
                       emptyWorld 0%Z _ _ _ _)).
  - reflexivity.
  - cbn. unfold hour. lia.
  - repeat constructor.
  - vm_compute. repeat split.
Defined.

(** C10.  [incrementUniqueRequestCount] sets an absent counter to 1 with
    an expiry of one hour, and increments a counter that is there with
    [INCR], which keeps the expiry it has: the window of a counter is not
    extended.  But the [GET] and the [INCR] are two commands: when the
    counter that the [GET] saw has expired by the time the [INCR] is
    answered, [INCR] makes a new counter with value 1 and no expiry.
    That counter is there at every later time; once it has reached five,
    every unique lookup of the client is refused, whenever it comes.  So
    it is with a counter at 3 that expires at the end of the hour, the
    [GET] answered one millisecond before and the [INCR] at that
    instant. *)
Theorem quota_counter_without_expiry :
  (forall env later ip0 w,
      counter (now env) w ip0 = None ->
      exists w',
        incrementUniqueRequestCount env later ip0 w = (Return tt, w') /\
        trace w' = (trace w ++ [RedisGet (UniqueKey ip0);
                                RedisSet (UniqueKey ip0) (60 * 60)])%list /\
        forall t,
          counter t w' ip0 =
          if (t <? later + hour)%Z
          then Some (Redis.mkEntry (UniqueKey ip0) (JNumber 1)
                                   (Some (later + hour)%Z))
          else None) /\
  (forall env later ip0 w e e' n,
      counter (now env) w ip0 = Some e ->
      counter later w ip0 = Some e' ->
      Redis.value e' = JNumber n ->
      exists w',
        incrementUniqueRequestCount env later ip0 w = (Return tt, w') /\
        trace w' = (trace w ++ [RedisGet (UniqueKey ip0);
                                RedisIncr (UniqueKey ip0)])%list /\
        forall t,
          counter t w' ip0 =
          if Redis.live t e'
          then Some (Redis.mkEntry (UniqueKey ip0) (JNumber (n + 1))
                                   (Redis.expiry e'))
          else None) /\
  (forall env later ip0 w e,
      counter (now env) w ip0 = Some e ->
      counter later w ip0 = None ->
      exists w',
        incrementUniqueRequestCount env later ip0 w = (Return tt, w') /\
        trace w' = (trace w ++ [RedisGet (UniqueKey ip0);
                                RedisIncr (UniqueKey ip0)])%list /\
        forall t,
          counter t w' ip0 =
          Some (Redis.mkEntry (UniqueKey ip0) (JNumber 1) None)) /\
  (forall env req w e n,
      cache_missing env req w = true ->
      counter (now env) w (ip req) = Some e ->
      Redis.value e = JNumber n -> (5 <= n)%Z ->
      Redis.expiry e = None ->
      fst (nearbyPlaces env req w) = Return (mkResponse 429 quota_error) /\
      forall t, (now env <= t)%Z ->
                counter t (snd (nearbyPlaces env req w)) (ip req) = Some e) /\
  (counter (hour - 1) expiring_world "203.0.113.7" =
     Some (Redis.mkEntry (UniqueKey "203.0.113.7") (JNumber 3) (Some hour)) /\
   counter hour expiring_world "203.0.113.7" = None /\
   forall t,
     counter t
       (snd (incrementUniqueRequestCount (env_at (hour - 1)) hour
               "203.0.113.7" expiring_world))
       "203.0.113.7" =
     Some (Redis.mkEntry (UniqueKey "203.0.113.7") (JNumber 1) None)).
Proof.
  assert (Gone : forall env later ip0 w e,
      counter (now env) w ip0 = Some e ->
      counter later w ip0 = None ->
      exists w',
        incrementUniqueRequestCount env later ip0 w = (Return tt, w') /\
        trace w' = (trace w ++ [RedisGet (UniqueKey ip0);
                                RedisIncr (UniqueKey ip0)])%list /\
        forall t,
          counter t w' ip0 =
          Some (Redis.mkEntry (UniqueKey ip0) (JNumber 1) None)).
  { intros env later ip0 w e Hc Hl.
    eexists.
    split; [now apply (incrementUniqueRequestCount_recreated env later ip0 w e)|].
    split; [reflexivity|].
    intros t. unfold counter. cbn [log redis set_redis].
    rewrite RedisFacts.find_cons_same by apply key_eqb_refl. reflexivity. }
  split.
  { intros env later ip0 w Hc.
    eexists. split; [now apply incrementUniqueRequestCount_created|].
    split; [reflexivity|].
    intros t. unfold counter. cbn [log redis set_redis].
    rewrite RedisFacts.find_set_same by apply key_eqb_refl. reflexivity. }
  split.
  { intros env later ip0 w e e' n Hc Hl V.
    eexists.
    split; [now apply (incrementUniqueRequestCount_kept env later ip0 w e e' n)|].
    split; [reflexivity|].
    intros t. unfold counter. cbn [log redis set_redis].
    rewrite RedisFacts.find_cons_same by apply key_eqb_refl. reflexivity. }
  split; [exact Gone|].
  split.
  { intros env req w e n Hm Hc V Hn He.
    rewrite (lookup_denied env req w e n Hm Hc V Hn). cbn [fst snd].
    split; [reflexivity|]. intros t Ht.
    change (counter t (log (after_check env req w) (miss_log req)) (ip req))
      with (counter t (after_check env req w) (ip req)).
    rewrite counter_after_check.
    apply (counter_later_Some (now env) t w (ip req) e Ht Hc).
    unfold Redis.live. now rewrite He. }
  split; [reflexivity|]. split; [reflexivity|].
  destruct (Gone (env_at (hour - 1)) hour "203.0.113.7" expiring_world
                 (Redis.mkEntry (UniqueKey "203.0.113.7") (JNumber 3)
                                (Some hour)))
    as (w' & E & _ & H); [reflexivity | reflexivity |].
  rewrite E. exact H.
Qed.

(** ** Tiered cache *)

(** C4.  The read path asks Redis first and answers from it at once,
    without touching MongoDB.  When Redis has no entry it asks MongoDB
    for the document of the quantized coordinate; when there is one it
    writes it to Redis under the cache key with an expiry of six hours,
    and answers with it.  After such a hit, a request for a coordinate
    with the same quantized values, made before the six hours have
    passed, is answered from Redis. *)
Theorem cache_read_path_promotes :
  (forall env req w data,
      fast_hit env req w = Some data ->
      nearbyPlaces env req w =
      (Return (mkResponse 200 data),
       log w [RedisGet (cacheKey (lat req) (lon req));
              ConsoleLog "Cache hit"])) /\
  (forall env req w d,
      fast_hit env req w = None ->
      mongo_reads env w = true ->
      durable w (lat req) (lon req) = Some d ->
      nearbyPlaces env req w =
      (Return (mkResponse 200 (JSaved d)),
       log (set_connected
              (set_redis w (Redis.set (now env) (redis w)
                                      (cacheKey (lat req) (lon req))
                                      (JSaved d) (60 * 60 * 6)))
              true)
           (RedisGet (cacheKey (lat req) (lon req)) ::
            connect_events w ++
            [MongoFindOne (roundCord (lat req) 3, roundCord (lon req) 3);
             ConsoleLog "MongoDB hit";
             RedisSet (cacheKey (lat req) (lon req)) (60 * 60 * 6)]))) /\
  (forall env req w d env' req',
      fast_hit env req w = None ->
      mongo_reads env w = true ->
      durable w (lat req) (lon req) = Some d ->
      roundCord (lat req') 3 == roundCord (lat req) 3 ->
      roundCord (lon req') 3 == roundCord (lon req) 3 ->
      (now env' < now env + 6 * hour)%Z ->
      let w' := snd (nearbyPlaces env req w) in
      fast_hit env' req' w' = Some (JSaved d) /\
      nearbyPlaces env' req' w' =
      (Return (mkResponse 200 (JSaved d)),
       log w' [RedisGet (cacheKey (lat req') (lon req'));
               ConsoleLog "Cache hit"])).
Proof.
  split; [exact nearbyPlaces_fast_hit|].
  split; [exact nearbyPlaces_durable_hit|].
  intros env req w d env' req' Hf Hr Hd Ea Eb Hlt. cbv zeta.
  assert (F : fast_hit env' req' (snd (nearbyPlaces env req w)) =
              Some (JSaved d)).
  { rewrite (nearbyPlaces_durable_hit env req w d Hf Hr Hd).
    unfold fast_hit. cbn [snd log redis set_connected set_redis].
    apply RedisFacts.get_set_same.
    - apply cacheKey_congr; now symmetry.
    - unfold hour in Hlt. lia. }
  split; [exact F|]. now apply nearbyPlaces_fast_hit.
Qed.

Lemma cache_read_path_promotes_witness :
  fast_hit (env_mongo_down 1000)
           (mkRequest "203.0.113.7" (parseFloat (40001 # 10000)) 4)
           (snd (nearbyPlaces (env_at 0) (mkRequest "203.0.113.7" 4 4)
                              durable_only)) =
  Some (JSaved corner_places).
Proof.
  refine (proj1 (proj2 (proj2 cache_read_path_promotes) (env_at 0)
                       (mkRequest "203.0.113.7" 4 4) durable_only
                       corner_places (env_mongo_down 1000)
                       (mkRequest "203.0.113.7" (parseFloat (40001 # 10000)) 4)
                       _ _ _ _ _ _)).
  - reflexivity.
  - reflexivity.
  - vm_compute. reflexivity.
  - vm_compute. reflexivity.
  - vm_compute. reflexivity.
  - vm_compute. reflexivity.
Defined.

(** ** Lookup orchestrator *)



(** ** Failures *)

Lemma finish_independent (env env' : Env) (req : Request) (w w' : World) :
  now env = now env' ->
  places_api env = places_api env' ->
  isochrone_api env = isochrone_api env' ->
  redis w = redis w' ->
  fst (finish env req w) = fst (finish env' req w') /\
  redis (snd (finish env req w)) = redis (snd (finish env' req w')).
Proof.
  intros Hn Hp Hi Hr. unfold finish, lookup_outcome. rewrite Hp, Hi.
  destruct (places_api env' (lat req) (lon req)) as [data|e];
    [|split; [reflexivity | exact Hr]].
  destruct (pd_features data) as [features|].
  - destruct (isochrone_api env' (lat req) (lon req)) as [[|f fs]|e];
      cbn [fst snd].
    + destruct (error_of _); cbn [fst snd];
        rewrite ?saved_world_redis; cbn [log redis set_redis];
        now rewrite ?Hn, ?Hr.
    + destruct (iso_coordinates f) as [|ring rings];
        [destruct features|]; cbn [fst snd error_of];
        rewrite ?saved_world_redis; cbn [log redis set_redis];
        now rewrite ?Hn, ?Hr.
    + destruct (error_of _); cbn [fst snd];
        rewrite ?saved_world_redis; cbn [log redis set_redis];
        now rewrite ?Hn, ?Hr.
  - cbn [fst snd]. destruct (error_of _); cbn [fst snd];
      rewrite ?saved_world_redis; cbn [log redis set_redis];
      now rewrite ?Hn, ?Hr.
Qed.

(** The answer of the second [try], and what it leaves in Redis, depend
    on the clock, the providers and Redis only. *)
Lemma freshLookup_independent (env env' : Env) (req : Request) (w w' : World) :
  now env = now env' ->
  places_api env = places_api env' ->
  isochrone_api env = isochrone_api env' ->
  redis w = redis w' ->
  fst (freshLookup env req w) = fst (freshLookup env' req w') /\
  redis (snd (freshLookup env req w)) = redis (snd (freshLookup env' req w')).
Proof.
  intros Hn Hp Hi Hr. rewrite !freshLookup_eq. unfold counter.
  rewrite <- Hn, <- Hr.
  destruct (Redis.find (now env) (redis w) (UniqueKey (ip req))) as [e|];
    [destruct (Redis.value e); [destruct (_ <? _)%Z|..]|];
    try (split; [reflexivity | exact Hr]);
    apply finish_independent; auto;
    unfold recorded; cbn [log redis set_redis]; now rewrite <- ?Hn, <- ?Hr.
Qed.

(** C8.  Failures of MongoDB stay inside the route.  Every request gets
    a response.  When the read of the durable tier fails, the error is
    logged and the request goes on to the fresh lookup, with Redis and
    the collection as they were.  The answer of the fresh lookup, and
    what it writes to Redis, are the same whether MongoDB connects, reads
    and inserts or not; in particular, a unique lookup that the guard
    lets through and whose providers answer gets status 200 with the
    envelope, also when the save fails. *)
Theorem mongo_failures_absorbed :
  (forall env req w, exists resp, fst (nearbyPlaces env req w) = Return resp) /\
  (forall env req w,
      fast_hit env req w = None ->
      mongo_reads env w = false ->
      nearbyPlaces env req w = freshLookup env req (after_check env req w) /\
      redis (after_check env req w) = redis w /\
      savedPlaces (after_check env req w) = savedPlaces w /\
      In (ConsoleError "MongoDB error during cache check:")
         (trace (after_check env req w))) /\
  (forall env req w connects finds inserts,
      fst (freshLookup (with_mongo env connects finds inserts) req w) =
        fst (freshLookup env req w) /\
      redis (snd (freshLookup (with_mongo env connects finds inserts) req w)) =
        redis (snd (freshLookup env req w))) /\
  (forall env req w connects finds inserts,
      fast_hit env req w = None ->
      durable w (lat req) (lon req) = None ->
      fst (nearbyPlaces (with_mongo env connects finds inserts) req w) =
      fst (nearbyPlaces env req w)) /\
  (forall env req w data features f fs ring rings,
      cache_missing env req w = true ->
      counter (now env) w (ip req) = None ->
      places_api env (lat req) (lon req) = Return data ->
      pd_features data = Some features ->
      isochrone_api env (lat req) (lon req) = Return (f :: fs) ->
      iso_coordinates f = ring :: rings ->
      fst (nearbyPlaces env req w) =
      Return (mkResponse 200
                (JPlaces (mkEnvelope (lat req, lon req) (ip req)
                   (Sorted (categorize
                      (filter (fun poi =>
                                 pointInPolygon (coordinates poi) ring)
                              features)
                      emptyBuckets)))))).
Proof.
  split; [exact nearbyPlaces_returns|].
  split.
  { intros env req w Hf Hr.
    split; [apply nearbyPlaces_fresh; auto|].
    split; [reflexivity|]. split; [reflexivity|].
    unfold after_check, check_events, mongo_reads in *.
    cbn [log trace set_connected].
    apply in_or_app. right. right. apply in_or_app. right.
    destruct (connected env w); cbn [andb] in Hr;
      [rewrite Hr; right|]; left; reflexivity. }
  split.
  { intros env req w connects finds inserts.
    now apply freshLookup_independent. }
  split.
  { intros env req w connects finds inserts Hf Hd.
    assert (D : forall e, durable_hit e req w = None)
      by (intros e; unfold durable_hit; rewrite Hd; now destruct (mongo_reads e w)).
    rewrite !nearbyPlaces_eq, !D.
    replace (fast_hit (with_mongo env connects finds inserts) req w)
      with (fast_hit env req w) by reflexivity.
    rewrite Hf. now apply freshLookup_independent. }
  intros env req w data features f fs ring rings Hm Hc Hp Hf Hi Hg.
  unfold cache_missing in Hm. rewrite nearbyPlaces_eq.
  destruct (fast_hit env req w); [discriminate|].
  destruct (durable_hit env req w); [discriminate|].
  rewrite freshLookup_eq, counter_after_check, Hc.
  unfold finish, lookup_outcome. rewrite Hp, Hf, Hi, Hg. reflexivity.
Qed.

Lemma mongo_failures_absorbed_witness :
  fst (nearbyPlaces (env_mongo_down 0) (mkRequest "203.0.113.7" 4 4)
                    durable_only) =
  Return (mkResponse 200
            (JPlaces (mkEnvelope (4, 4) "203.0.113.7" (Sorted emptyBuckets)))).
Proof.
  exact (proj2 (proj2 (proj2 (proj2 mongo_failures_absorbed)))
               (env_mongo_down 0) (mkRequest "203.0.113.7" 4 4) durable_only
               (mkProviderData (Some []) None "") [] (mkIsoFeature [square])
               [] square [] eq_refl eq_refl eq_refl eq_refl eq_refl eq_refl).
Defined.

(** C6, what the code does.  A places answer without [features] makes
    [getNearbyPlaces] return the answer as it is, without an exception and
    without asking for the isochrone.  The route reports it, with status
    500 and code [API_ERROR], only when the answer has a truthy [error]
    property.  An answer without it is taken for the result: the route
    answers 200 with the provider's answer as [POIbyCategory], stores it
    in both tiers, and serves it from the cache afterwards. *)
Theorem provider_exhaustion_needs_error_field :
  (forall env lat lon w data,
      places_api env lat lon = Return data ->
      pd_features data = None ->
      getNearbyPlaces env lat lon w =
      (Return (ProviderBody data), log w [PlacesCall lat lon])) /\
  (forall env req w data e,
      cache_missing env req w = true ->
      counter (now env) w (ip req) = None ->
      places_api env (lat req) (lon req) = Return data ->
      pd_features data = None ->
      pd_error data = Some e -> e <> "" ->
      fst (nearbyPlaces env req w) =
      Return (mkResponse 500 (JError e (Some "API_ERROR")))) /\
  (let w' := snd (nearbyPlaces (env_exhausted 0)
                               (mkRequest "203.0.113.7" 4 4) emptyWorld) in
   fst (nearbyPlaces (env_exhausted 0) (mkRequest "203.0.113.7" 4 4)
                     emptyWorld) =
     Return (mkResponse 200 (JPlaces exhausted_envelope)) /\
   map saved (savedPlaces w') = [exhausted_envelope] /\
   fst (nearbyPlaces (env_at 1000) (mkRequest "198.51.100.2" 4 4) w') =
     Return (mkResponse 200 (JPlaces exhausted_envelope))).
Proof.
  split.
  { intros env lat lon w data Hp Hf.
    rewrite getNearbyPlaces_outcome. unfold lookup_outcome.
    now rewrite Hp, Hf. }
  split.
  { intros env req w data e Hm Hc Hp Hf He Hne.
    unfold cache_missing in Hm. rewrite nearbyPlaces_eq.
    destruct (fast_hit env req w); [discriminate|].
    destruct (durable_hit env req w); [discriminate|].
    rewrite freshLookup_eq, counter_after_check, Hc.
    unfold finish, lookup_outcome. rewrite Hp, Hf.
    cbn [fst snd error_of]. rewrite He. cbn [truthy_string].
    destruct (String.eqb e "") eqn:E; [apply String.eqb_eq in E; contradiction|].
    reflexivity. }
  cbv zeta. split; [|split]; vm_compute; reflexivity.
Qed.

Lemma provider_exhaustion_needs_error_field_witness :
  getNearbyPlaces (env_exhausted 0) 4 4 emptyWorld =
  (Return (ProviderBody exhausted_body), log emptyWorld [PlacesCall 4 4]).
Proof.
  exact (proj1 provider_exhaustion_needs_error_field (env_exhausted 0) 4 4
               emptyWorld exhausted_body eq_refl eq_refl).
Defined.

(** * Further properties of the code *)

Local Close Scope string_scope.

(** ** The polygon as a ring *)

Lemma walk_app (c : point -> point -> bool) (l1 l2 : list point) :
  forall prev inside,
    walk c prev (l1 ++ l2) inside =
    walk c (last l1 prev) l2 (walk c prev l1 inside).
Proof.
  induction l1 as [|v l1 IH]; intros prev inside; [reflexivity|].
  cbn [app walk]. rewrite IH. now rewrite last_cons_default.
Qed.

Lemma walk_xor (c : point -> point -> bool) (vs : list point) :
  forall prev inside,
    walk c prev vs inside = xorb inside (walk c prev vs false).
Proof.
  induction vs as [|v vs IH]; intros prev inside; cbn [walk].
  - now destruct inside.
  - rewrite IH. rewrite (IH v (if c v prev then negb false else false)).
    destruct (c v prev), inside, (walk c v vs false); reflexivity.
Qed.

Lemma last_app_cons (A : Type) (l1 l2 : list A) (a : A) :
  forall d d', last (l1 ++ a :: l2) d = last (a :: l2) d'.
Proof.
  induction l1 as [|b l1 IH]; intros d d'.
  - cbn [app]. now rewrite !last_cons_default.
  - cbn [app]. rewrite last_cons_default. apply IH.
Qed.

(** The ring cut at a vertex: the walk over the two pieces. *)
Lemma pointInPolygon_pieces (p a b : point) (l1 l2 : list point) :
  pointInPolygon p ((a :: l1) ++ b :: l2) =
  xorb (walk (intersect p) (last l2 b) (a :: l1) false)
       (walk (intersect p) (last l1 a) (b :: l2) false).
Proof.
  rewrite pointInPolygon_walk, walk_app.
  rewrite (last_app_cons _ (a :: l1) l2 b origin origin).
  rewrite !last_cons_default.
  now rewrite walk_xor.
Qed.

(** An edge between a vertex and itself is never crossed. *)
Lemma intersect_same (p v : point) : intersect p v v = false.
Proof.
  destruct p as [x y], v as [xi yi]. cbn.
  now rewrite crossesRow_horizontal.
Qed.

(** A vertex that follows itself, at the head of the ring. *)
Lemma pointInPolygon_repeated_head (p v : point) (vs : list point) :
  pointInPolygon p (v :: v :: vs) = pointInPolygon p (v :: vs).
Proof.
  rewrite !pointInPolygon_walk.
  rewrite (last_cons_default _ (v :: vs) v origin).
  cbn [walk]. rewrite intersect_same.
  now rewrite !last_cons_default.
Qed.

(** The same ring, cut at another vertex. *)
Lemma ring_swap (p : point) (l1 l2 : list point) :
  pointInPolygon p (l1 ++ l2) = pointInPolygon p (l2 ++ l1).
Proof.
  destruct l1 as [|a l1], l2 as [|b l2]; rewrite ?app_nil_r;
    try reflexivity.
  rewrite (pointInPolygon_pieces p a b l1 l2),
          (pointInPolygon_pieces p b a l2 l1).
  apply xorb_comm.
Qed.

(** A ring of fewer than two vertices has no inside. *)
Lemma pointInPolygon_small (p : point) (ring : list point) :
  (List.length ring <= 1)%nat -> pointInPolygon p ring = false.
Proof.
  destruct ring as [|v [|v' vs]]; cbn [List.length]; intros H;
    [reflexivity| |lia].
  unfold pointInPolygon.
  cbn [List.length pip_loop Nat.ltb Nat.leb Nat.sub nth].
  now rewrite intersect_same.
Qed.

(** ** Axis-parallel edges *)

Lemma crossesRow_sym (y a b : Q) : crossesRow y a b = crossesRow y b a.
Proof. apply xorb_comm. Qed.

Lemma intersect_horizontal (x y xi xj b : Q) :
  intersect (x, y) (xi, b) (xj, b) = false.
Proof. cbn. now rewrite crossesRow_horizontal. Qed.

Lemma fl_of_double (z x : Q) :
  is_double x -> z == x -> fl z = Finite (round_double z) /\ round_double z == x.
Proof.
  intros D E. destruct (num_double x D) as [N F].
  assert (R : round_double z == x) by (now rewrite E).
  split; [|exact R]. unfold fl.
  destruct (Qle_bool (2 ^ 1024) (Qabs (round_double z))) eqn:C;
    [|reflexivity].
  exfalso. apply Qle_bool_iff in C. rewrite R in C.
  pose proof (is_double_bound x D). lra.
Qed.

Lemma fl_zero (z : Q) : z == 0 -> fl z = Finite (round_double z) /\ round_double z == 0.
Proof.
  intros E. apply fl_of_double; [|exact E].
  exists 0%Z, 0%Z. split; [reflexivity|]. split; [lia | reflexivity].
Qed.

(** On a vertical edge the computed abscissa is that of the edge. *)
Lemma intersect_vertical (x y a yi yj : Q) :
  is_double x -> is_double a -> tame y -> tame yi -> tame yj ->
  intersect (x, y) (a, yi) (a, yj) = crossesRow y yi yj && Qltb x a.
Proof.
  intros Dx Da [Dy By] [Dyi Byi] [Dyj Byj]. cbn [intersect].
  destruct (crossesRow y yi yj) eqn:Hc; [|reflexivity]. cbn [andb].
  pose proof (crossesRow_divisor y yi yj Hc) as Hd.
  unfold crossX. revert Hd.
  destruct (num_double x Dx) as [-> Fx], (num_double a Da) as [-> Fa],
    (num_double y Dy) as [-> Fy], (num_double yi Dyi) as [-> Fyi],
    (num_double yj Dyj) as [-> Fyj].
  cbn [fsub].
  assert (T : 2 * 2 ^ 1022 == 2 ^ 1023)
    by (change 2 with (2 ^ 1) at 1; now rewrite <- pow2_add).
  assert (HB : Qabs (round_double y - round_double yi) <= 2 ^ 1023)
    by (rewrite Fy, Fyi, <- T; revert By Byi; clear; qabs; lra).
  assert (HD : Qabs (round_double yj - round_double yi) <= 2 ^ 1023)
    by (rewrite Fyj, Fyi, <- T; revert Byj Byi; clear; qabs; lra).
  rewrite (fl_finite _ HB), (fl_finite _ HD).
  destruct (fl_zero (round_double a - round_double a)) as [-> A0]; [ring|].
  cbn [fmul is_zero].
  destruct (fl_zero (round_double (round_double a - round_double a)
                     * round_double (round_double y - round_double yi)))
    as [-> P0]; [rewrite A0; ring|].
  intros Hd. cbn [fdiv]. rewrite Hd.
  match goal with
  | |- context [fl (?p / ?d)] =>
      destruct (fl_zero (p / d)) as [-> Q0];
      [rewrite P0; unfold Qdiv; ring|]
  end.
  cbn [fadd].
  match goal with
  | |- context [fl (?q + ?r)] =>
      destruct (fl_of_double (q + r) a Da) as [-> C0];
      [rewrite Q0, Fa; ring|]
  end.
  cbn [flt]. apply Qltb_comp; assumption.
Qed.

Section Rectangle.

Variables x0 y0 x1 y1 x y : Q.
Hypothesis Dx0 : is_double x0.
Hypothesis Dx1 : is_double x1.
Hypothesis Dx : is_double x.
Hypothesis Ty0 : tame y0.
Hypothesis Ty1 : tame y1.
Hypothesis Ty : tame y.

Lemma rectangle_sides :
  pointInPolygon (x, y) (rectangle x0 y0 x1 y1) =
  xorb (crossesRow y y1 y0 && Qltb x x0) (crossesRow y y0 y1 && Qltb x x1).
Proof.
  unfold pointInPolygon, rectangle.
  cbn [List.length pip_loop Nat.ltb Nat.leb Nat.sub nth].
  rewrite !intersect_horizontal, !intersect_vertical by assumption.
  destruct (crossesRow y y1 y0 && Qltb x x0),
    (crossesRow y y0 y1 && Qltb x x1); reflexivity.
Qed.

Lemma rectangle_rev_sides :
  pointInPolygon (x, y) (rev (rectangle x0 y0 x1 y1)) =
  xorb (crossesRow y y1 y0 && Qltb x x0) (crossesRow y y0 y1 && Qltb x x1).
Proof.
  unfold pointInPolygon, rectangle.
  cbn [rev app List.length pip_loop Nat.ltb Nat.leb Nat.sub nth].
  rewrite !intersect_horizontal, !intersect_vertical by assumption.
  rewrite (crossesRow_sym y y1 y0).
  destruct (crossesRow y y0 y1), (Qltb x x0), (Qltb x x1); reflexivity.
Qed.

Lemma sides_inside :
  x0 <= x1 -> y0 <= y1 ->
  xorb (crossesRow y y1 y0 && Qltb x x0) (crossesRow y y0 y1 && Qltb x x1)
    = true <->
  (x0 <= x /\ x < x1) /\ (y0 <= y /\ y < y1).
Proof.
  intros Hx Hy. rewrite (crossesRow_sym y y1 y0).
  destruct (crossesRow y y0 y1) eqn:C.
  - apply (crossesRow_true y y0 y1 (proj1 Ty) (proj1 Ty0) (proj1 Ty1)) in C.
    destruct (Qltb x x0) eqn:L0, (Qltb x x1) eqn:L1; cbn;
      (apply Qltb_true in L0 || apply Qltb_false in L0);
      (apply Qltb_true in L1 || apply Qltb_false in L1);
      (split; intros H;
       [first [discriminate | lra] | first [reflexivity | exfalso; lra]]).
  - cbn. split; intros H; [discriminate|].
    assert (K : crossesRow y y0 y1 = true).
    { apply (crossesRow_true y y0 y1 (proj1 Ty) (proj1 Ty0) (proj1 Ty1)).
      lra. }
    congruence.
Qed.

End Rectangle.

(** ** The three properties *)

(** X1.  The result of [pointInPolygon] does not depend on the vertex at
    which the ring starts: cutting the vertex list anywhere and swapping
    the two pieces gives the same answer for every point. *)
Theorem pointInPolygon_rotation (p : point) (l1 l2 : list point) :
  pointInPolygon p (l1 ++ l2) = pointInPolygon p (l2 ++ l1).
Proof.
  destruct l1 as [|a l1]; [now rewrite app_nil_r|].
  destruct l2 as [|b l2]; [now rewrite app_nil_r|].
  rewrite (pointInPolygon_pieces p a b l1 l2).
  rewrite (pointInPolygon_pieces p b a l2 l1).
  apply xorb_comm.
Qed.

(** X2.  Open and closed rings are treated alike: a ring whose last
    vertex repeats the first one (as GeoJSON rings do) gives the same
    answer as the ring without the repetition, and so does a ring in
    which any vertex is listed twice in a row.  The empty ring and the
    ring of one vertex contain no point. *)
Theorem pointInPolygon_closed_ring :
  (forall p v vs,
      pointInPolygon p (v :: vs ++ [v]) = pointInPolygon p (v :: vs)) /\
  (forall p v l1 l2,
      pointInPolygon p (l1 ++ v :: v :: l2) = pointInPolygon p (l1 ++ v :: l2)) /\
  (forall p, pointInPolygon p [] = false) /\
  (forall p v, pointInPolygon p [v] = false).
Proof.
  split; [|split; [|split]].
  - intros p v vs.
    change (v :: vs ++ [v]) with ((v :: vs) ++ [v]).
    rewrite ring_swap. cbn [app]. apply pointInPolygon_repeated_head.
  - intros p v l1 l2.
    rewrite (ring_swap p l1 (v :: v :: l2)), (ring_swap p l1 (v :: l2)).
    cbn [app]. apply pointInPolygon_repeated_head.
  - intros p. apply pointInPolygon_small. cbn. lia.
  - intros p v. apply pointInPolygon_small. cbn. lia.
Qed.

(** X3.  For an axis-parallel rectangle, listed in either direction,
    whose corners and the point are doubles, with the [y] coordinates of
    magnitude at most [2^1022] so that their differences do not overflow,
    the test is the half-open box: the point is inside exactly when
    [x0 <= x < x1] and [y0 <= y < y1].  Points on the left and the lower
    side are inside, points on the right and the upper side, and the
    corner [(x1, y1)], are outside. *)
Theorem pointInPolygon_rectangle (x0 y0 x1 y1 x y : Q) :
  is_double x0 -> is_double x1 -> is_double x ->
  tame y0 -> tame y1 -> tame y ->
  x0 <= x1 -> y0 <= y1 ->
  (pointInPolygon (x, y) (rectangle x0 y0 x1 y1) = true <->
   (x0 <= x /\ x < x1) /\ (y0 <= y /\ y < y1)) /\
  (pointInPolygon (x, y) (rev (rectangle x0 y0 x1 y1)) = true <->
   (x0 <= x /\ x < x1) /\ (y0 <= y /\ y < y1)).
Proof.
  intros Dx0 Dx1 Dx Ty0 Ty1 Ty Hx Hy.
  rewrite rectangle_sides, rectangle_rev_sides by assumption.
  split; now apply sides_inside.
Qed.

Lemma tame_integer (n : Z) : (Z.abs n < 2 ^ 53)%Z -> tame (inject_Z n).
Proof.
  intros H. split.
  - exists n, 0%Z. split; [exact H|]. split; [lia|].
    change (2 ^ 0) with 1. ring.
  - rewrite Qabs_inject_Z.
    apply Qle_trans with (inject_Z (2 ^ 53)); [rewrite <- Zle_Qle; lia|].
    rewrite pow2_Z by lia. apply pow2_mono. lia.
Qed.

Lemma pointInPolygon_rectangle_witness :
  pointInPolygon (0, 0) (rectangle 0 0 4 3) = true /\
  pointInPolygon (0, 0) (rev (rectangle 0 0 4 3)) = true.
Proof.
  assert (T : forall n : Z, (Z.abs n < 10)%Z -> tame (inject_Z n))
    by (intros n Hn; apply tame_integer; lia).
  destruct (pointInPolygon_rectangle 0 0 4 3 0 0) as [H1 H2];
    try (apply (T 0%Z); reflexivity);
    try (apply (T 4%Z); reflexivity);
    try (apply (T 3%Z); reflexivity);
    try lra.
  split; [apply H1 | apply H2]; lra.
Defined.

(** ** The cells of the quantization *)

Lemma toFixed_near (x : Q) :
  Qabs x < 10 ^ 21 -> Qabs (toFixed x 3 - x) <= 1 # 2000.
Proof.
  intros Hs. destruct (toFixed_spec x 3 Hs) as (n & E & B).
  change (10 ^ Z.of_nat 3) with 1000 in E, B.
  revert E B. generalize (toFixed x 3) (inject_Z n). intros d N E B.
  qabs; lra.
Qed.

Lemma roundCord_near (x : Q) :
  on_grid x -> Qabs (roundCord x 3 - x) <= 1 # 1000.
Proof.
  intros G. destruct (Qlt_le_dec (Qabs x) (10 ^ 21)) as [Hs|Hl].
  - pose proof (toFixed_near x Hs) as T.
    pose proof (round_double_nearest (toFixed x 3) x G) as N.
    unfold roundCord, parseFloat. revert T N.
    generalize (round_double (toFixed x 3)) (toFixed x 3). intros r d T N.
    qabs; lra.
  - rewrite (roundCord_large x 3 G Hl).
    setoid_replace (x - x) with 0 by ring. cbn. lra.
Qed.

Lemma pow10_Z (f : nat) :
  inject_Z (10 ^ (21 + Z.of_nat f)) == 10 ^ 21 * 10 ^ Z.of_nat f.
Proof.
  rewrite Zpower_Qpower by lia.
  change (inject_Z 10) with 10.
  apply Qpower_plus. discriminate.
Qed.

Lemma inject_Z_lt_succ (a b : Z) :
  inject_Z a < inject_Z b + 1 -> inject_Z a <= inject_Z b.
Proof.
  intros H. rewrite <- Zle_Qle.
  change 1 with (inject_Z 1) in H. rewrite <- inject_Z_plus in H.
  rewrite <- Zlt_Qlt in H. lia.
Qed.

(** Below [10^21] the decimal text denotes a number of the same sign, of
    absolute value at most [10^21]. *)
Lemma toFixed_small (x : Q) (f : nat) :
  Qabs x < 10 ^ 21 ->
  - 10 ^ 21 <= toFixed x f <= 10 ^ 21 /\
  (0 <= x -> 0 <= toFixed x f) /\ (x < 0 -> toFixed x f <= 0).
Proof.
  intros Hs. destruct (toFixed_spec x f Hs) as (n & E & B).
  pose proof (pow10_pos f) as PP. pose proof (pow10_Z f) as PZ.
  revert E B PP PZ.
  generalize (toFixed x f) (10 ^ Z.of_nat f)
             (10 ^ (21 + Z.of_nat f))%Z.
  intros d P N E B PP PZ.
  assert (U : x * P < 10 ^ 21 * P) by (revert Hs; qabs; nra).
  assert (L : - (10 ^ 21 * P) < x * P) by (revert Hs; qabs; nra).
  assert (H1 : inject_Z n <= inject_Z N).
  { apply inject_Z_lt_succ. revert B U PZ.
    generalize (inject_Z n) (inject_Z N). intros; lra. }
  assert (H2 : inject_Z (- N) <= inject_Z n).
  { apply inject_Z_lt_succ. rewrite inject_Z_opp. revert B L PZ.
    generalize (inject_Z n) (inject_Z N). intros; lra. }
  rewrite inject_Z_opp in H2.
  assert (S0 : 0 <= x -> inject_Z 0 <= inject_Z n).
  { intros Hx. assert (0 <= x * P) by nra.
    apply inject_Z_lt_succ. change (inject_Z 0) with 0. revert B.
    generalize (inject_Z n). intros; lra. }
  assert (S1 : x < 0 -> inject_Z n <= inject_Z 0).
  { intros Hx. assert (x * P < 0) by nra.
    apply inject_Z_lt_succ. change (inject_Z 0) with 0. revert B.
    generalize (inject_Z n). intros; lra. }
  change (inject_Z 0) with 0 in S0, S1.
  revert E H1 H2 S0 S1 PZ. generalize (inject_Z n) (inject_Z N).
  intros a b E H1 H2 S0 S1 PZ.
  split; [split|split; intros Hx]; nra.
Qed.

Lemma toFixed_monotone (x y : Q) (f : nat) :
  x <= y -> toFixed x f <= toFixed y f.
Proof.
  intros H.
  destruct (Qlt_le_dec (Qabs x) (10 ^ 21)) as [Sx|Lx],
    (Qlt_le_dec (Qabs y) (10 ^ 21)) as [Sy|Ly].
  - destruct (toFixed_spec x f Sx) as (n & E & B).
    destruct (toFixed_spec y f Sy) as (m & E' & B').
    pose proof (pow10_pos f) as PP.
    assert (Hnm : inject_Z n <= inject_Z m).
    { assert (M : x * 10 ^ Z.of_nat f <= y * 10 ^ Z.of_nat f) by nra.
      apply inject_Z_lt_succ. revert B B' M.
      generalize (x * 10 ^ Z.of_nat f) (y * 10 ^ Z.of_nat f)
                 (inject_Z n) (inject_Z m).
      intros; lra. }
    revert E E' Hnm PP.
    generalize (toFixed x f) (toFixed y f) (10 ^ Z.of_nat f)
               (inject_Z n) (inject_Z m).
    intros d d' P a b E E' Hnm PP. nra.
  - rewrite (toFixed_large y f Ly).
    destruct (toFixed_small x f Sx) as [[_ B] _].
    assert (10 ^ 21 <= y) by (revert Sx Ly; qabs; lra). lra.
  - rewrite (toFixed_large x f Lx).
    destruct (toFixed_small y f Sy) as [[B _] _].
    assert (x <= - 10 ^ 21) by (revert Sy Lx; qabs; lra). lra.
  - now rewrite (toFixed_large x f Lx), (toFixed_large y f Ly).
Qed.

Lemma roundCord_monotone (x y : Q) (f : nat) :
  x <= y -> roundCord x f <= roundCord y f.
Proof.
  intros H. apply round_double_monotone. now apply toFixed_monotone.
Qed.

(** ** Two properties of the quantization *)

(** X4.  Quantizing to three decimals moves a coordinate by at most
    [0.001]: for every finite double [x], [roundCord(x, 3)] is within
    [1/1000] of [x].  Hence two coordinates that get the same quantized
    value, and so the same cache entry, are at most [0.002] apart. *)
Theorem roundCord_error_bound (x y : Q) :
  is_double x -> is_double y ->
  Qabs (roundCord x 3 - x) <= 1 # 1000 /\
  (roundCord x 3 == roundCord y 3 -> Qabs (x - y) <= 2 # 1000).
Proof.
  intros Dx Dy.
  pose proof (roundCord_near x (is_double_on_grid x Dx)) as Nx.
  pose proof (roundCord_near y (is_double_on_grid y Dy)) as Ny.
  split; [exact Nx|]. intros E. revert Nx Ny E.
  generalize (roundCord x 3) (roundCord y 3). intros a b Nx Ny E.
  qabs; lra.
Qed.

Lemma roundCord_error_bound_witness :
  is_double (parseFloat (1234567 # 100000)) /\
  is_double (1 # 8) /\
  Qabs (roundCord (parseFloat (1234567 # 100000)) 3
        - parseFloat (1234567 # 100000)) <= 1 # 1000.
Proof.
  assert (H : is_double (parseFloat (1234567 # 100000))).
  { exists 6949994351454889%Z, (-49)%Z.
    split; [reflexivity|]. split; [lia|]. vm_compute. reflexivity. }
  assert (H' : is_double (1 # 8)).
  { exists 1%Z, (-3)%Z.
    split; [reflexivity|]. split; [lia|]. vm_compute. reflexivity. }
  split; [exact H|]. split; [exact H'|].
  exact (proj1 (roundCord_error_bound _ _ H H')).
Defined.

(** X5.  Quantization keeps the order of the coordinates: if [x <= y]
    then [roundCord(x, f) <= roundCord(y, f)].  Hence the coordinates that
    share a quantized value form an interval: a coordinate between two
    coordinates with the same quantized value has that value too. *)
Theorem roundCord_order_preserving (x y z : Q) (f : nat) :
  x <= z -> z <= y ->
  roundCord x f <= roundCord z f /\
  roundCord z f <= roundCord y f /\
  (roundCord x f == roundCord y f -> roundCord z f == roundCord x f).
Proof.
  intros H1 H2.
  pose proof (roundCord_monotone x z f H1) as M1.
  pose proof (roundCord_monotone z y f H2) as M2.
  split; [exact M1|]. split; [exact M2|]. intros E. lra.
Qed.

Lemma roundCord_order_preserving_witness :
  roundCord (1 # 8) 3 <= roundCord (1251 # 10000) 3 /\
  roundCord (1251 # 10000) 3 <= roundCord (1254 # 10000) 3.
Proof.
  destruct (roundCord_order_preserving (1 # 8) (1254 # 10000)
              (1251 # 10000) 3) as (A & B & _);
    [unfold Qle; cbn; lia | unfold Qle; cbn; lia |].
  split; [exact A | exact B].
Defined.

(** ** The route, request by request *)

Local Open Scope string_scope.

Lemma calls_app (f : Event -> bool) (l l' : list Event) :
  calls f (l ++ l')%list = (calls f l + calls f l')%nat.
Proof. unfold calls. now rewrite filter_app, length_app. Qed.

Lemma skipn_exact (A : Type) (l l' : list A) :
  skipn (List.length l) (l ++ l')%list = l'.
Proof. induction l; auto. Qed.

(** The route by cases: the two hits, then the guard, then the lookup. *)
Ltac route_cases env req w :=
  rewrite (nearbyPlaces_eq env req w);
  destruct (fast_hit env req w) as [data|] eqn:Hfast;
  [| destruct (durable_hit env req w) as [d|] eqn:Hdur;
     [| rewrite freshLookup_eq, counter_after_check;
        destruct (counter (now env) w (ip req)) as [e|] eqn:Hcnt;
        [destruct (Redis.value e) as [n| | |] eqn:Hval;
         [destruct (n <? 5)%Z eqn:Hn|..]|]]].

(** The lookup by cases, where the request got that far. *)
Ltac finish_cases env req :=
  match goal with |- context [finish _ _ _] => idtac end;
  unfold finish;
  destruct (lookup_outcome env (lat req) (lon req)) as [[r|err] evs] eqn:Hlook;
  cbn [fst snd];
  [destruct (error_of r) as [msg|] eqn:Herr|].

Ltac worlds :=
  unfold saved_world, recorded, after_check, connected, connect_events, log,
    set_redis, set_connected;
  cbn [trace redis savedPlaces cachedDb fst snd].

(** The events of the two provider calls. *)
Lemma lookup_outcome_calls (env : Env) (lat lon : Q) :
  let evs := snd (lookup_outcome env lat lon) in
  calls is_places_call evs = 1%nat /\
  (calls is_isochrone_call evs <= 1)%nat /\
  calls is_connect evs = 0%nat /\
  forall ev, In ev evs ->
             is_places_call ev || is_isochrone_call ev = true ->
             ev = PlacesCall lat lon \/ ev = IsochroneCall lat lon.
Proof.
  unfold lookup_outcome.
  destruct (places_api env lat lon) as [data|e];
    [destruct (pd_features data) as [features|];
     [destruct (isochrone_api env lat lon) as [[|f fs]|e]|]|];
    cbn; (split; [reflexivity|]); (split; [lia|]); (split; [reflexivity|]);
    intros ev H K; repeat destruct H as [<-|H]; try discriminate;
    try contradiction; auto.
Qed.

Lemma saved_world_trace (env : Env) (lat lon : Q) (e : Envelope) (w : World) :
  trace (saved_world env lat lon e w) =
  (trace w ++ save_events env (cachedDb w) lat lon)%list.
Proof.
  unfold saved_world, save_events, connected, connect_events.
  destruct (cachedDb w), (mongo_connects env), (mongo_inserts env);
    reflexivity.
Qed.

Lemma saved_world_cachedDb (env : Env) (lat lon : Q) (e : Envelope)
      (w : World) :
  cachedDb (saved_world env lat lon e w) = connected env w.
Proof.
  unfold saved_world.
  destruct (connected env w), (mongo_inserts env); reflexivity.
Qed.

Lemma saved_world_savedPlaces (env : Env) (lat lon : Q) (e : Envelope)
      (w : World) :
  savedPlaces (saved_world env lat lon e w) =
  (savedPlaces w ++
   if connected env w && mongo_inserts env
   then [mkSavedPlaces e (roundCord lat 3, roundCord lon 3) (now env)
                       (now env + 4 * 24 * 60 * 60 * 1000)%Z]
   else [])%list.
Proof.
  unfold saved_world.
  destruct (connected env w), (mongo_inserts env); cbn;
    now rewrite ?app_nil_r.
Qed.

Lemma quiet_app (l l' : list Event) :
  quiet l -> quiet l' -> quiet (l ++ l')%list.
Proof.
  intros H H' ev Hin. apply in_app_or in Hin. destruct Hin; auto.
Qed.

Lemma quiet_cons (ev : Event) (l : list Event) :
  is_provider_call ev = false -> quiet l -> quiet (ev :: l).
Proof. intros H H' ev' [<-|Hin]; auto. Qed.

Lemma quiet_nil : quiet [].
Proof. intros ev []. Qed.

Lemma quiet_calls (f : Event -> bool) (l : list Event) :
  f = is_places_call \/ f = is_isochrone_call ->
  quiet l -> calls f l = 0%nat.
Proof.
  intros Hf H. unfold calls. induction l as [|ev l IH]; [reflexivity|].
  cbn [filter].
  assert (K : f ev = false).
  { specialize (H ev (or_introl eq_refl)). unfold is_provider_call in H.
    apply orb_false_iff in H. destruct Hf as [-> | ->]; tauto. }
  rewrite K. apply IH. intros ev' Hin. apply H. now right.
Qed.

Ltac quiet :=
  repeat first
    [ apply quiet_nil
    | apply quiet_app
    | apply quiet_cons; [reflexivity|]
    | assumption
    | match goal with
      | |- quiet (if ?b then _ else _) => destruct b
      end ].

Lemma quiet_connect_events (w : World) : quiet (connect_events w).
Proof. unfold connect_events. quiet. Qed.

Lemma quiet_check_events (env : Env) (w : World) (lat lon : Q) :
  quiet (check_events env w lat lon).
Proof. unfold check_events, connect_events. quiet. Qed.

Lemma quiet_save_events (env : Env) (c : bool) (lat lon : Q) :
  quiet (save_events env c lat lon).
Proof. unfold save_events. quiet. Qed.

Lemma quiet_miss_log (req : Request) : quiet (miss_log req).
Proof. unfold miss_log. quiet. Qed.

(** The events of a request: some that are no provider calls, the events
    of [getNearbyPlaces] when the request gets that far, and again some
    that are no provider calls. *)
Lemma request_trace (env : Env) (req : Request) (w : World) :
  exists pre post,
    trace (snd (nearbyPlaces env req w)) =
    (trace w ++ pre ++
     (if looked_up env req w
      then snd (lookup_outcome env (lat req) (lon req)) else []) ++
     post)%list /\
    quiet pre /\ quiet post.
Proof.
  pose proof (quiet_check_events env w (lat req) (lon req)) as Q1.
  pose proof (quiet_connect_events w) as Q2.
  pose proof (quiet_save_events env (connected env w) (lat req) (lon req))
    as Q3.
  pose proof (quiet_miss_log req) as Q4.
  unfold looked_up, cache_missing.
  route_cases env req w; try finish_cases env req; rewrite ?Hn;
    cbn [fst snd andb]; rewrite ?saved_world_trace;
    cbn [trace log recorded after_check set_redis set_connected cachedDb];
    rewrite <- ?app_assoc;
    try (eexists; exists []; split;
         [cbn [app]; rewrite app_nil_r; reflexivity|];
         split; [quiet|apply quiet_nil]);
    match goal with
    | |- exists pre post,
        (trace w ++ ?A ++ ?B ++ ?C ++ ?E ++ ?D)%list = _ /\ _ =>
        is_var E; exists (A ++ B ++ C)%list, D
    | |- exists pre post,
        (trace w ++ ?A ++ ?B ++ ?C ++ ?E)%list = _ /\ _ =>
        is_var E; exists (A ++ B ++ C)%list, []
    end;
    (split; [rewrite <- ?app_assoc, ?app_nil_r; reflexivity|]);
    split; quiet.
Qed.

Lemma events_of_split (env : Env) (req : Request) (w : World) :
  exists pre post,
    events_of env req w =
    (pre ++
     (if looked_up env req w
      then snd (lookup_outcome env (lat req) (lon req)) else []) ++
     post)%list /\
    trace (snd (nearbyPlaces env req w)) = (trace w ++ events_of env req w)%list /\
    quiet pre /\ quiet post.
Proof.
  destruct (request_trace env req w) as (pre & post & E & Q1 & Q2).
  exists pre, post. unfold events_of. rewrite E, skipn_exact. auto.
Qed.

(** A request that gets to [getNearbyPlaces] is not refused by the
    guard. *)
Lemma looked_up_not_denied (env : Env) (req : Request) (w : World) :
  looked_up env req w = true ->
  cache_missing env req w = true /\
  denied (fst (nearbyPlaces env req w)) = false.
Proof.
  unfold looked_up. intros H. apply andb_true_iff in H.
  destruct H as [Hm H]. split; [exact Hm|]. revert H Hm.
  unfold cache_missing.
  route_cases env req w; try discriminate; intros _ _;
    match goal with
    | |- context [finish ?e ?r ?w] =>
        destruct (finish_returns e r w) as (resp & -> & [K|K]);
        cbn; now rewrite K
    end.
Qed.

Lemma calls_of_request (env : Env) (req : Request) (w : World)
      (f : Event -> bool) :
  f = is_places_call \/ f = is_isochrone_call ->
  calls f (events_of env req w) =
  if looked_up env req w
  then calls f (snd (lookup_outcome env (lat req) (lon req)))
  else 0%nat.
Proof.
  intros Hf.
  destruct (events_of_split env req w) as (pre & post & -> & _ & Q1 & Q2).
  rewrite !calls_app, (quiet_calls f pre Hf Q1), (quiet_calls f post Hf Q2).
  destruct (looked_up env req w); cbn; lia.
Qed.

Lemma calls_for_admitted (f : Event -> bool) (ip0 : string)
      (rs : list (Env * Request)) :
  f = is_places_call \/ f = is_isochrone_call ->
  forall w, (calls_for f ip0 rs w <= admitted_by ip0 rs w)%nat.
Proof.
  intros Hf. induction rs as [|[env req] rs IH]; intros w; [reflexivity|].
  cbn [calls_for admitted_by].
  rewrite (calls_of_request env req w f Hf).
  pose proof (looked_up_not_denied env req w) as L.
  pose proof (lookup_outcome_calls env (lat req) (lon req)) as (C1 & C2 & _).
  destruct (nearbyPlaces env req w) as [r w'] eqn:E. cbn [fst snd] in *.
  specialize (IH w').
  destruct (String.eqb (ip req) ip0); cbn [andb]; [|lia].
  destruct (looked_up env req w).
  - destruct (L eq_refl) as [-> ->]. cbn [andb negb].
    destruct Hf as [-> | ->]; lia.
  - lia.
Qed.

(** X6.  Upstream calls of one request.  The trace only grows.  A request
    makes at most one call of the places API and at most one call of the
    isochrone API, the second only after the first; both are made with
    the coordinates as the caller sent them, not the quantized ones.  A
    request answered by a cache tier, or refused by the quota guard,
    makes no upstream call at all. *)
Theorem upstream_calls_per_request (env : Env) (req : Request) (w : World) :
  trace (snd (nearbyPlaces env req w)) =
    (trace w ++ events_of env req w)%list /\
  (calls is_places_call (events_of env req w) <= 1)%nat /\
  (calls is_isochrone_call (events_of env req w)
   <= calls is_places_call (events_of env req w))%nat /\
  (cache_missing env req w = false \/
   denied (fst (nearbyPlaces env req w)) = true ->
   forall ev, In ev (events_of env req w) -> is_provider_call ev = false) /\
  (forall ev, In ev (events_of env req w) -> is_provider_call ev = true ->
              ev = PlacesCall (lat req) (lon req) \/
              ev = IsochroneCall (lat req) (lon req)).
Proof.
  pose proof (lookup_outcome_calls env (lat req) (lon req))
    as (C1 & C2 & _ & C4).
  pose proof (looked_up_not_denied env req w) as L.
  rewrite !calls_of_request by auto.
  destruct (events_of_split env req w) as (pre & post & E & T & Q1 & Q2).
  split; [exact T|].
  split; [destruct (looked_up env req w); lia|].
  split; [destruct (looked_up env req w); lia|].
  rewrite E. split.
  - intros H ev Hin.
    destruct (looked_up env req w).
    + destruct (L eq_refl) as [L1 L2]. destruct H; congruence.
    + apply in_app_or in Hin. destruct Hin as [Hin|Hin]; [now apply Q1|].
      now apply Q2.
  - intros ev Hin K.
    apply in_app_or in Hin. destruct Hin as [Hin|Hin];
      [rewrite (Q1 ev Hin) in K; discriminate|].
    apply in_app_or in Hin. destruct Hin as [Hin|Hin];
      [|rewrite (Q2 ev Hin) in K; discriminate].
    destruct (looked_up env req w); [|destruct Hin].
    now apply C4.
Qed.

(** X7.  Upstream calls of one client, when requests are served one
    after the other, each handled to its end before the next one starts
    (this is what [serve] does; lookups that overlap are not covered).
    From a state in which the client has no live counter, whatever
    requests of whatever clients are so served within the following hour,
    the requests of that client cause at most five calls of the places
    API and at most five calls of the isochrone API. *)
Theorem upstream_calls_per_client (ip0 : string) (rs : list (Env * Request))
        (w : World) (t T : Z) :
  counter t w ip0 = None ->
  (T <= t + hour)%Z ->
  timely t T rs ->
  (calls_for is_places_call ip0 rs w <= 5)%nat /\
  (calls_for is_isochrone_call ip0 rs w <= 5)%nat.
Proof.
  intros Hc HT Ht.
  pose proof (window_absent ip0 rs w t T Hc HT Ht) as B.
  pose proof (calls_for_admitted is_places_call ip0 rs (or_introl eq_refl) w).
  pose proof (calls_for_admitted is_isochrone_call ip0 rs (or_intror eq_refl) w).
  lia.
Qed.

Lemma upstream_calls_per_client_witness :
  List.length seven_lookups = 7%nat /\
  (calls_for is_places_call "203.0.113.7" seven_lookups emptyWorld <= 5)%nat.
Proof.
  split; [reflexivity|].
  refine (proj1 (upstream_calls_per_client "203.0.113.7" seven_lookups
                   emptyWorld 0%Z 3600000%Z _ _ _)).
  - reflexivity.
  - unfold hour. lia.
  - cbn. lia.
Defined.

(** ** What a lookup leaves in the two tiers *)

(** The end of the second [try] when the lookup gives a result without
    [error]. *)
Lemma finish_stored (env : Env) (req : Request) (w : World)
      (r : LookupResult) :
  fst (lookup_outcome env (lat req) (lon req)) = Return r ->
  error_of r = None ->
  fst (finish env req w) = Return (mkResponse 200 (JPlaces (envelope req r))) /\
  redis (snd (finish env req w)) =
    Redis.set (now env) (redis w) (cacheKey (lat req) (lon req))
              (JPlaces (envelope req r)) (60 * 60 * 6) /\
  savedPlaces (snd (finish env req w)) =
    (savedPlaces w ++
     if connected env w && mongo_inserts env
     then [document env req (envelope req r)] else [])%list /\
  cachedDb (snd (finish env req w)) = connected env w.
Proof.
  intros Hl He. unfold finish. rewrite Hl, He. cbn [fst snd].
  rewrite saved_world_redis, saved_world_savedPlaces, saved_world_cachedDb.
  repeat split.
Qed.

(** The other ends of the second [try]. *)
Lemma finish_failed (env : Env) (req : Request) (w : World) :
  (forall r, fst (lookup_outcome env (lat req) (lon req)) = Return r ->
             error_of r <> None) ->
  (exists resp, fst (finish env req w) = Return resp /\ status resp = 500%nat) /\
  redis (snd (finish env req w)) = redis w /\
  savedPlaces (snd (finish env req w)) = savedPlaces w /\
  cachedDb (snd (finish env req w)) = cachedDb w.
Proof.
  intros H. unfold finish.
  destruct (fst (lookup_outcome env (lat req) (lon req))) as [r|err].
  - specialize (H r eq_refl). destruct (error_of r); [|congruence].
    cbn. eauto 6.
  - cbn. eauto 6.
Qed.

Lemma finish_status (env : Env) (req : Request) (w : World) :
  (exists r, fst (lookup_outcome env (lat req) (lon req)) = Return r /\
             error_of r = None) \/
  (forall r, fst (lookup_outcome env (lat req) (lon req)) = Return r ->
             error_of r <> None).
Proof.
  destruct (fst (lookup_outcome env (lat req) (lon req))) as [r|err].
  - destruct (error_of r) eqn:E; [right|left; eauto].
    intros r' [= <-]. congruence.
  - right. discriminate.
Qed.

(** A request that misses both tiers: refused, or stopped by a counter
    that is no number, or continued by the lookup in a world that differs
    from the one before in the counter of the client only. *)
Lemma fresh_cases (env : Env) (req : Request) (w : World) :
  cache_missing env req w = true ->
  (looked_up env req w = false /\
   (exists resp, fst (nearbyPlaces env req w) = Return resp /\
                 (resp = mkResponse 429 quota_error \/ resp = internal_error)) /\
   redis (snd (nearbyPlaces env req w)) = redis w /\
   savedPlaces (snd (nearbyPlaces env req w)) = savedPlaces w /\
   cachedDb (snd (nearbyPlaces env req w)) = connected env w) \/
  (looked_up env req w = true /\
   exists w1,
     nearbyPlaces env req w = finish env req w1 /\
     savedPlaces w1 = savedPlaces w /\
     cachedDb w1 = connected env w /\
     forall t a b, Redis.find t (redis w1) (NearbyKey a b) =
                   Redis.find t (redis w) (NearbyKey a b)).
Proof.
  unfold looked_up. intros Hm. rewrite Hm. cbn [andb]. revert Hm.
  unfold cache_missing.
  route_cases env req w; try discriminate; intros _;
    try (left; split; [reflexivity|]; cbn; eauto 8; fail);
    right; (split; [reflexivity|]); eexists; (split; [reflexivity|]);
    cbn [recorded after_check log set_redis set_connected savedPlaces
         cachedDb redis];
    (split; [reflexivity|]); (split; [reflexivity|]); intros t a b.
  - now apply RedisFacts.find_cons_other.
  - now apply RedisFacts.find_set_other.
Qed.

Lemma fresh_200 (env : Env) (req : Request) (w : World) (resp : Response) :
  cache_missing env req w = true ->
  fst (nearbyPlaces env req w) = Return resp ->
  status resp = 200%nat ->
  exists r w1,
    fst (lookup_outcome env (lat req) (lon req)) = Return r /\
    error_of r = None /\
    resp = mkResponse 200 (JPlaces (envelope req r)) /\
    nearbyPlaces env req w = finish env req w1 /\
    savedPlaces w1 = savedPlaces w /\
    cachedDb w1 = connected env w /\
    forall t a b, Redis.find t (redis w1) (NearbyKey a b) =
                  Redis.find t (redis w) (NearbyKey a b).
Proof.
  intros Hm Hr Hs.
  destruct (fresh_cases env req w Hm)
    as [(_ & (resp' & Hr' & Hc) & _)|(_ & w1 & E & H1 & H2 & H3)].
  - rewrite Hr in Hr'. injection Hr' as <-.
    destruct Hc as [-> | ->]; discriminate.
  - rewrite E in Hr.
    destruct (finish_status env req w) as [(r & Hl & He)|Hf].
    + destruct (finish_stored env req w1 r Hl He) as (F1 & _).
      rewrite Hr in F1. injection F1 as ->. eauto 10.
    + destruct (finish_failed env req w1 Hf) as ((resp' & F1 & F2) & _).
      rewrite Hr in F1. injection F1 as <-. congruence.
Qed.

(** X8.  Write, then read.  When a request that misses both tiers is
    answered with status 200, the answer is the envelope with the
    caller's own coordinates and address, and for the next six hours
    every request whose coordinates quantize to the same values, from
    whatever client, gets this same answer from Redis: the trace of such
    a request is the Redis read and the log line, nothing else. *)
Theorem fresh_answer_served_from_fast_tier
        (env : Env) (req : Request) (w : World) (resp : Response) :
  cache_missing env req w = true ->
  fst (nearbyPlaces env req w) = Return resp ->
  status resp = 200%nat ->
  (exists sortedPoi,
      body resp = JPlaces (mkEnvelope (lat req, lon req) (ip req) sortedPoi)) /\
  forall env2 req2,
    roundCord (lat req2) 3 == roundCord (lat req) 3 ->
    roundCord (lon req2) 3 == roundCord (lon req) 3 ->
    (now env2 < now env + 6 * 60 * 60 * 1000)%Z ->
    nearbyPlaces env2 req2 (snd (nearbyPlaces env req w)) =
    (Return resp,
     log (snd (nearbyPlaces env req w))
         [RedisGet (cacheKey (lat req2) (lon req2)); ConsoleLog "Cache hit"]).
Proof.
  intros Hm Hr Hs.
  destruct (fresh_200 env req w resp Hm Hr Hs)
    as (r & w1 & Hl & He & -> & E & _).
  split; [exists r; reflexivity|].
  intros env2 req2 Ea Eb Ht.
  apply nearbyPlaces_fast_hit.
  rewrite E. destruct (finish_stored env req w1 r Hl He) as (_ & -> & _).
  apply RedisFacts.get_set_same; [|lia].
  apply cacheKey_congr; now symmetry.
Qed.

Lemma fresh_answer_served_from_fast_tier_witness :
  fst (nearbyPlaces (env_markets 1000)
         (mkRequest "198.51.100.2" (parseFloat (40001 # 10000)) 4)
         (snd (nearbyPlaces (env_markets 0) (mkRequest "203.0.113.7" 4 4)
                            emptyWorld))) =
  fst (nearbyPlaces (env_markets 0) (mkRequest "203.0.113.7" 4 4) emptyWorld).
Proof.
  destruct (fresh_answer_served_from_fast_tier (env_markets 0)
              (mkRequest "203.0.113.7" 4 4) emptyWorld
              (mkResponse 200
                 (JPlaces (envelope (mkRequest "203.0.113.7" 4 4)
                    (Sorted (mkBuckets
                       [push_category (market "North" 1 3) "supermarket";
                        push_category (market "South" 2 1) "supermarket"]
                       [] [] [] [])))))
              eq_refl eq_refl eq_refl) as [_ H].
  rewrite (H (env_markets 1000)
             (mkRequest "198.51.100.2" (parseFloat (40001 # 10000)) 4)).
  - reflexivity.
  - vm_compute. reflexivity.
  - vm_compute. reflexivity.
  - vm_compute. reflexivity.
Defined.

Lemma find_app (A : Type) (f : A -> bool) (l l' : list A) :
  List.find f (l ++ l')%list =
  match List.find f l with
  | Some x => Some x
  | None => List.find f l'
  end.
Proof.
  induction l as [|a l IH]; [reflexivity|]. cbn. now destruct (f a).
Qed.

Lemma pair_eqb_refl (c : Q * Q) : pair_eqb c c = true.
Proof.
  unfold pair_eqb. apply andb_true_iff. split; apply Qeq_bool_iff; reflexivity.
Qed.

(** X9.  Write, then read from the durable tier.  When a request that
    misses both tiers is answered with status 200 while MongoDB is
    reachable and takes the insert, the collection gets one more
    document: the envelope with the quantized coordinates, the time of
    the request and a time four days later.  If the collection had no
    document for these coordinates, then once the Redis entry has
    expired, after six hours, a request with the same quantized
    coordinates that can read MongoDB is answered with this document. *)
Theorem fresh_answer_served_from_durable_tier
        (env : Env) (req : Request) (w : World) (resp : Response) :
  cache_missing env req w = true ->
  fst (nearbyPlaces env req w) = Return resp ->
  status resp = 200%nat ->
  connected env w = true ->
  mongo_inserts env = true ->
  exists e,
    body resp = JPlaces e /\
    savedPlaces (snd (nearbyPlaces env req w)) =
      (savedPlaces w ++
       [mkSavedPlaces e (roundCord (lat req) 3, roundCord (lon req) 3)
                      (now env) (now env + 4 * 24 * 60 * 60 * 1000)%Z])%list /\
    (durable w (lat req) (lon req) = None ->
     forall env2 req2,
       roundCord (lat req2) 3 == roundCord (lat req) 3 ->
       roundCord (lon req2) 3 == roundCord (lon req) 3 ->
       (now env + 6 * 60 * 60 * 1000 <= now env2)%Z ->
       mongo_finds env2 = true ->
       fst (nearbyPlaces env2 req2 (snd (nearbyPlaces env req w))) =
       Return (mkResponse 200
                 (JSaved (mkSavedPlaces e
                            (roundCord (lat req) 3, roundCord (lon req) 3)
                            (now env)
                            (now env + 4 * 24 * 60 * 60 * 1000)%Z)))).
Proof.
  intros Hm Hr Hs Hc Hi.
  destruct (fresh_200 env req w resp Hm Hr Hs)
    as (r & w1 & Hl & He & -> & E & S1 & C1 & R1).
  destruct (finish_stored env req w1 r Hl He) as (_ & F2 & F3 & F4).
  assert (Hc1 : connected env w1 = true)
    by (unfold connected; rewrite C1, Hc; reflexivity).
  rewrite Hc1, Hi, S1 in F3. cbn [andb] in F3.
  exists (envelope req r). split; [reflexivity|].
  rewrite E. split; [exact F3|].
  intros Hd env2 req2 Ea Eb Ht Hf.
  rewrite (nearbyPlaces_durable_hit env2 req2 _
             (document env req (envelope req r))); [reflexivity|..].
  - rewrite F2. unfold Redis.get.
    rewrite RedisFacts.find_set_same by (apply cacheKey_congr; now symmetry).
    replace (_ <? _)%Z with false; [reflexivity|].
    symmetry. apply Z.ltb_ge. lia.
  - unfold mongo_reads, connected. rewrite F4, Hc1, Hf. reflexivity.
  - rewrite (durable_congr _ _ _ (lat req) (lon req) Ea Eb).
    unfold durable in *. rewrite F3, find_app, Hd. cbn [List.find document
      generalCoordinates]. now rewrite pair_eqb_refl.
Qed.

Lemma fresh_answer_served_from_durable_tier_witness :
  fst (nearbyPlaces (env_markets 21600000)
         (mkRequest "198.51.100.2" (parseFloat (40001 # 10000)) 4)
         (snd (nearbyPlaces (env_markets 0) (mkRequest "203.0.113.7" 4 4)
                            emptyWorld))) =
  Return (mkResponse 200
            (JSaved (document (env_markets 0) (mkRequest "203.0.113.7" 4 4)
               (envelope (mkRequest "203.0.113.7" 4 4)
                  (Sorted (mkBuckets
                     [push_category (market "North" 1 3) "supermarket";
                      push_category (market "South" 2 1) "supermarket"]
                     [] [] [] [])))))).
Proof.
  destruct (fresh_answer_served_from_durable_tier (env_markets 0)
              (mkRequest "203.0.113.7" 4 4) emptyWorld
              (mkResponse 200
                 (JPlaces (envelope (mkRequest "203.0.113.7" 4 4)
                    (Sorted (mkBuckets
                       [push_category (market "North" 1 3) "supermarket";
                        push_category (market "South" 2 1) "supermarket"]
                       [] [] [] [])))))
              eq_refl eq_refl eq_refl eq_refl eq_refl) as (e & He & _ & H).
  injection He as <-.
  apply (H eq_refl (env_markets 21600000)
           (mkRequest "198.51.100.2" (parseFloat (40001 # 10000)) 4)).
  - vm_compute. reflexivity.
  - vm_compute. reflexivity.
  - vm_compute. discriminate.
  - reflexivity.
Defined.

(** ** Answers that are errors *)

Lemma hit_200 (env : Env) (req : Request) (w : World) :
  cache_missing env req w = false ->
  exists resp, fst (nearbyPlaces env req w) = Return resp /\
               status resp = 200%nat.
Proof.
  unfold cache_missing. rewrite nearbyPlaces_eq.
  destruct (fast_hit env req w); [cbn; eauto|].
  destruct (durable_hit env req w); [cbn; eauto|discriminate].
Qed.

(** X10.  Only an answer with status 200 writes to the caches.  When the
    route answers 429 or 500, the collection is as before and so is every
    cache entry in Redis; after a 429 all of Redis is as before. *)
Theorem error_answers_write_nothing
        (env : Env) (req : Request) (w : World) (resp : Response) :
  fst (nearbyPlaces env req w) = Return resp ->
  status resp <> 200%nat ->
  (status resp = 429%nat \/ status resp = 500%nat) /\
  savedPlaces (snd (nearbyPlaces env req w)) = savedPlaces w /\
  (forall t a b,
      Redis.get t (redis (snd (nearbyPlaces env req w))) (NearbyKey a b) =
      Redis.get t (redis w) (NearbyKey a b)) /\
  (status resp = 429%nat -> redis (snd (nearbyPlaces env req w)) = redis w).
Proof.
  intros Hr Hs.
  destruct (cache_missing env req w) eqn:Hm.
  - destruct (fresh_cases env req w Hm)
      as [(_ & (resp' & Hr' & Hc) & R & S & _)|(_ & w1 & E & H1 & H2 & H3)].
    + rewrite Hr in Hr'. injection Hr' as <-. rewrite R, S.
      split; [destruct Hc as [-> | ->]; auto|]. auto.
    + rewrite E in *.
      destruct (finish_status env req w) as [(r & Hl & He)|Hf].
      * destruct (finish_stored env req w1 r Hl He) as (F1 & _).
        rewrite Hr in F1. injection F1 as ->. now destruct Hs.
      * destruct (finish_failed env req w1 Hf)
          as ((resp' & F1 & F2) & F3 & F4 & _).
        rewrite Hr in F1. injection F1 as <-. rewrite F3, F4.
        split; [auto|]. split; [exact H1|].
        split; [|intros K; rewrite F2 in K; discriminate].
        intros t a b. unfold Redis.get. now rewrite H3.
  - destruct (hit_200 env req w Hm) as (resp' & Hr' & Hs').
    rewrite Hr in Hr'. injection Hr' as <-. now destruct Hs.
Qed.

Lemma error_answers_write_nothing_witness :
  savedPlaces (snd (nearbyPlaces
                      (mkEnv 0 true true true three_markets isochrone_down)
                      (mkRequest "203.0.113.7" 4 4) emptyWorld)) = [].
Proof.
  refine (proj1 (proj2 (error_answers_write_nothing
                   (mkEnv 0 true true true three_markets isochrone_down)
                   (mkRequest "203.0.113.7" 4 4) emptyWorld
                   (mkResponse 500
                      (JError ("Error getting mb isochrone:" ++
                               "AxiosError: Request failed with status code 503")
                              (Some "API_ERROR")))
                   _ _))).
  - reflexivity.
  - discriminate.
Defined.



(** ** The connection to MongoDB *)

Lemma lookup_outcome_events (env : Env) (lat lon : Q) (ev : Event) :
  In ev (snd (lookup_outcome env lat lon)) ->
  ev = PlacesCall lat lon \/ ev = IsochroneCall lat lon \/
  ev = ConsoleError "Error getting mapbox isochrone:".
Proof.
  unfold lookup_outcome.
  destruct (places_api env lat lon) as [data|e];
    [destruct (pd_features data) as [features|];
     [destruct (isochrone_api env lat lon) as [[|f fs]|e]|]|];
    cbn; intros H; repeat destruct H as [<-|H]; auto; contradiction.
Qed.

Ltac split_in H :=
  first [ apply in_app_or in H; destruct H as [H|H]; split_in H
        | destruct H as [<-|H]; [|split_in H]
        | idtac ].

Lemma request_connects (env : Env) (req : Request) (w : World) :
  cachedDb w = true ->
  cachedDb (snd (nearbyPlaces env req w)) = true /\
  exists evs,
    trace (snd (nearbyPlaces env req w)) = (trace w ++ evs)%list /\
    forall ev, In ev evs -> is_connect ev = false.
Proof.
  intros Hdb.
  pose proof (lookup_outcome_events env (lat req) (lon req)) as L.
  route_cases env req w; try finish_cases env req;
    cbn [fst snd]; rewrite ?saved_world_trace, ?saved_world_cachedDb;
    unfold connected, save_events;
    cbn [trace log recorded after_check set_redis set_connected cachedDb];
    unfold check_events, connect_events, connected;
    cbn [cachedDb]; rewrite ?Hdb; cbn [orb];
    (split; [reflexivity|]);
    rewrite <- ?app_assoc;
    (eexists; split; [reflexivity|]);
    intros ev Hin; destruct (mongo_finds env), (mongo_inserts env);
    split_in Hin; try reflexivity; try contradiction;
    destruct (L ev Hin) as [-> | [-> | ->]]; reflexivity.
Qed.

Lemma run_connects (rs : list (Env * Request)) :
  forall w,
    cachedDb w = true ->
    cachedDb (snd (serve rs w)) = true /\
    exists evs,
      trace (snd (serve rs w)) = (trace w ++ evs)%list /\
      forall ev, In ev evs -> is_connect ev = false.
Proof.
  induction rs as [|[env req] rs IH]; intros w Hdb.
  - split; [exact Hdb|]. exists []. cbn. now rewrite app_nil_r.
  - rewrite serve_cons. cbn [snd].
    destruct (request_connects env req w Hdb) as (Hdb' & evs & E & N).
    destruct (IH _ Hdb') as (Hdb'' & evs' & E' & N').
    split; [exact Hdb''|]. exists (evs ++ evs')%list.
    rewrite E', E, app_assoc. split; [reflexivity|].
    intros ev Hin. apply in_app_or in Hin. destruct Hin; auto.
Qed.

(** X12.  The connection to MongoDB is made once and kept.  A request
    that Redis answers does not touch the connection; any other request
    leaves the server connected exactly when it was connected before or
    MongoDB accepts the connection now.  Once the server is connected it
    stays connected, and no later request, however many are served,
    connects again. *)
Theorem connection_is_made_once :
  (forall env req w,
      cachedDb (snd (nearbyPlaces env req w)) =
      match fast_hit env req w with
      | Some _ => cachedDb w
      | None => cachedDb w || mongo_connects env
      end) /\
  (forall rs w,
      cachedDb w = true ->
      cachedDb (snd (serve rs w)) = true /\
      trace (snd (serve rs w)) = (trace w ++ run_events rs w)%list /\
      forall ev, In ev (run_events rs w) -> is_connect ev = false).
Proof.
  split.
  - intros env req w.
    route_cases env req w; try finish_cases env req;
      cbn [fst snd]; rewrite ?saved_world_cachedDb; unfold connected;
      cbn [log recorded after_check set_redis set_connected cachedDb];
      unfold connected; try reflexivity;
      try (now destruct (cachedDb w), (mongo_connects env)).
    all: unfold durable_hit, mongo_reads, connected in Hdur;
      destruct (cachedDb w), (mongo_connects env); try reflexivity;
      discriminate.
  - intros rs w Hdb.
    destruct (run_connects rs w Hdb) as (H & evs & E & N).
    split; [exact H|]. unfold run_events. rewrite E, skipn_exact. auto.
Qed.

(** ** The collection *)

Lemma request_savedPlaces (env : Env) (req : Request) (w : World) :
  exists added,
    savedPlaces (snd (nearbyPlaces env req w)) = (savedPlaces w ++ added)%list /\
    (List.length added <= 1)%nat.
Proof.
  route_cases env req w; try finish_cases env req;
    cbn [fst snd]; rewrite ?saved_world_savedPlaces;
    cbn [log recorded after_check set_redis set_connected savedPlaces];
    try (exists []; rewrite app_nil_r; split; [reflexivity|cbn; lia]);
    (eexists; split; [reflexivity|]);
    match goal with
    | |- context [if ?b then _ else _] => destruct b; cbn; lia
    end.
Qed.

Lemma run_savedPlaces (rs : list (Env * Request)) :
  forall w,
    exists added,
      savedPlaces (snd (serve rs w)) = (savedPlaces w ++ added)%list /\
      (List.length added <= List.length rs)%nat.
Proof.
  induction rs as [|[env req] rs IH]; intros w.
  - exists []. cbn. now rewrite app_nil_r.
  - rewrite serve_cons. cbn [snd].
    destruct (request_savedPlaces env req w) as (a & E & L).
    destruct (IH (snd (nearbyPlaces env req w))) as (a' & E' & L').
    exists (a ++ a')%list. rewrite E', E, app_assoc, length_app.
    split; [reflexivity|]. cbn [List.length]. lia.
Qed.

(** X13.  The collection only grows, and the first document of a
    coordinate is the one that is read.  Serving requests never removes
    or changes a document, and adds at most one per request; so once the
    collection holds a document for a pair of quantized coordinates,
    [findOne] gives that same document after any further requests, also
    when later documents for the same coordinates have been inserted. *)
Theorem collection_only_grows (rs : list (Env * Request)) (w : World) :
  (exists added,
      savedPlaces (snd (serve rs w)) = (savedPlaces w ++ added)%list /\
      (List.length added <= List.length rs)%nat) /\
  (forall lat lon d,
      durable w lat lon = Some d ->
      durable (snd (serve rs w)) lat lon = Some d).
Proof.
  destruct (run_savedPlaces rs w) as (added & E & L).
  split; [eauto|].
  intros lat lon d H. unfold durable in *. now rewrite E, find_app, H.
Qed.

(** ** What Redis holds and what the route answers *)

Lemma well_formed_cons (s : Redis.Store) (e : Redis.Entry) (k : Key) :
  forallb well_formed_entry s = true ->
  well_formed_entry e = true ->
  forallb well_formed_entry (e :: Redis.remove s k) = true.
Proof.
  intros Hs He. cbn [forallb]. rewrite He. cbn [andb].
  unfold Redis.remove. rewrite forallb_forall in *.
  intros x Hx. apply filter_In in Hx. now apply Hs.
Qed.

Lemma well_formed_found (t : Z) (s : Redis.Store) (k : Key)
      (e : Redis.Entry) :
  forallb well_formed_entry s = true ->
  Redis.find t s k = Some e ->
  well_formed_entry e = true /\ key_eqb (Redis.key e) k = true.
Proof.
  intros Hs Hf. unfold Redis.find in Hf. apply find_some in Hf.
  destruct Hf as [Hin Hk]. apply andb_true_iff in Hk.
  rewrite forallb_forall in Hs. split; [now apply Hs|tauto].
Qed.

Lemma request_well_formed (env : Env) (req : Request) (w : World) :
  well_formed w = true ->
  well_formed (snd (nearbyPlaces env req w)) = true /\
  expected (fst (nearbyPlaces env req w)) = true.
Proof.
  unfold well_formed. intros Hw.
  route_cases env req w; try finish_cases env req;
    cbn [fst snd]; rewrite ?saved_world_redis;
    cbn [log recorded after_check set_redis set_connected redis];
    unfold Redis.set;
    repeat match goal with
      | |- _ /\ _ => split
      | |- forallb _ (_ :: Redis.remove _ _) = true =>
          apply well_formed_cons
      end;
    try assumption; try reflexivity.
  - unfold fast_hit, Redis.get in Hfast.
    destruct (Redis.find _ _ _) as [e|] eqn:Hf; [|discriminate].
    injection Hfast as <-.
    destruct (well_formed_found _ _ _ _ Hw Hf) as [We Hk].
    unfold well_formed_entry in We. unfold cacheKey in Hk.
    cbn [expected body status].
    destruct (Redis.expiry e); [|discriminate].
    destruct (Redis.key e); [|discriminate].
    destruct (Redis.value e); try discriminate; reflexivity.
  - destruct (well_formed_found _ _ _ _ Hw Hcnt) as [We Hk].
    unfold well_formed_entry in *. cbn [Redis.expiry Redis.key Redis.value].
    rewrite Hval in We.
    destruct (Redis.expiry e); [|discriminate].
    destruct (Redis.key e); [discriminate|].
    apply andb_true_iff in We. destruct We as [W1 W2].
    apply Z.leb_le in W1. apply Z.ltb_lt in Hn.
    apply andb_true_iff. split; apply Z.leb_le; lia.
  - destruct (well_formed_found _ _ _ _ Hw Hcnt) as [We Hk].
    unfold well_formed_entry in *. cbn [Redis.expiry Redis.key Redis.value].
    rewrite Hval in We.
    destruct (Redis.expiry e); [|discriminate].
    destruct (Redis.key e); [discriminate|].
    apply andb_true_iff in We. destruct We as [W1 W2].
    apply Z.leb_le in W1. apply Z.ltb_lt in Hn.
    apply andb_true_iff. split; apply Z.leb_le; lia.
  - destruct (well_formed_found _ _ _ _ Hw Hcnt) as [We Hk].
    unfold well_formed_entry in *. cbn [Redis.expiry Redis.key Redis.value].
    rewrite Hval in We.
    destruct (Redis.expiry e); [|discriminate].
    destruct (Redis.key e); [discriminate|].
    apply andb_true_iff in We. destruct We as [W1 W2].
    apply Z.leb_le in W1. apply Z.ltb_lt in Hn.
    apply andb_true_iff. split; apply Z.leb_le; lia.
Qed.

Lemma run_well_formed (rs : list (Env * Request)) :
  forall w,
    well_formed w = true ->
    well_formed (snd (serve rs w)) = true /\
    forallb expected (fst (serve rs w)) = true.
Proof.
  induction rs as [|[env req] rs IH]; intros w Hw; [auto|].
  rewrite serve_cons. cbn [fst snd forallb].
  destruct (request_well_formed env req w Hw) as [Hw' He].
  destruct (IH _ Hw') as [Hw'' Hs]. now rewrite He, Hs.
Qed.

(** X14.  What Redis holds and what the route handler answers, when the
    requests that reach the handler are served one after the other, each
    handled to its end before the next one starts, and each with all its
    Redis commands answered at one instant, so that no key expires
    between two commands of a request (this is what [serve] does;
    overlapping requests, a counter that expires between the [GET] and
    the [INCR] of a lookup, and the answers of the middleware in front of
    the handler are not covered).  If every quota key in Redis holds a
    number from one to five, every cache key an envelope or a document,
    and every key has an expiry (as in the empty store), then the same is
    true after any such run of requests; every request of the run is
    answered by the handler, with 200 and an envelope or a document, with
    429 and the code of the quota guard, or with 500 and the code
    [API_ERROR] or no code; and no counter ever shows more than five. *)
Theorem redis_stays_well_formed (rs : list (Env * Request)) (w : World) :
  well_formed w = true ->
  well_formed (snd (serve rs w)) = true /\
  forallb expected (fst (serve rs w)) = true /\
  forall t ip0, (0 <= count_of t (snd (serve rs w)) ip0 <= 5)%Z.
Proof.
  intros Hw. destruct (run_well_formed rs w Hw) as [Hw' He].
  split; [exact Hw'|]. split; [exact He|].
  intros t ip0. unfold count_of, counter.
  destruct (Redis.find _ _ _) as [e|] eqn:Hf; [|lia].
  destruct (well_formed_found _ _ _ _ Hw' Hf) as [We Hk].
  unfold well_formed_entry in We.
  destruct (Redis.expiry e); [|discriminate].
  destruct (Redis.key e); [discriminate|].
  destruct (Redis.value e); try discriminate.
  apply andb_true_iff in We. destruct We as [W1 W2].
  apply Z.leb_le in W1. apply Z.leb_le in W2. lia.
Qed.

Lemma redis_stays_well_formed_witness :
  forallb expected (fst (serve seven_lookups emptyWorld)) = true /\
  count_of 420000 (snd (serve seven_lookups emptyWorld)) "203.0.113.7" = 5%Z.
Proof.
  split.
  - exact (proj1 (proj2 (redis_stays_well_formed seven_lookups emptyWorld
                           eq_refl))).
  - vm_compute. reflexivity.
Defined.

(** ** The edges of the lookup *)

Lemma filter_none (A : Type) (f : A -> bool) (l : list A) :
  (forall x, f x = false) -> filter f l = [].
Proof.
  intros H. induction l as [|a l IH]; [reflexivity|].
  cbn. now rewrite H.
Qed.

(** X15.  When [getNearbyPlaces] throws, for answers of the providers
    that have the shape of the model (every place has coordinates and
    categories, every feature of the isochrone answer a list of rings).
    A failure of the places call is not caught and leaves
    [getNearbyPlaces] as the same exception.  Apart from that,
    [getNearbyPlaces] throws in one case only: the places API gave at
    least one feature and the first feature of the isochrone answer has
    no ring, so that the filter reads the length of [undefined] outside
    the [try].  An isochrone answer without any feature is caught inside
    the [try] and becomes the error object. *)
Theorem getNearbyPlaces_exceptions (env : Env) (lat lon : Q) (w : World) :
  (forall e, places_api env lat lon = Throw e ->
             fst (getNearbyPlaces env lat lon w) = Throw e) /\
  ((exists e, fst (getNearbyPlaces env lat lon w) = Throw e) <->
   (exists e, places_api env lat lon = Throw e) \/
   (exists data poi pois f fs,
       places_api env lat lon = Return data /\
       pd_features data = Some (poi :: pois) /\
       isochrone_api env lat lon = Return (f :: fs) /\
       iso_coordinates f = [])) /\
  (forall data features,
      places_api env lat lon = Return data ->
      pd_features data = Some features ->
      isochrone_api env lat lon = Return [] ->
      exists msg,
        fst (getNearbyPlaces env lat lon w) =
        Return (ErrorObject ("Error getting mb isochrone:" ++ msg))).
Proof.
  rewrite getNearbyPlaces_outcome. cbn [fst]. unfold lookup_outcome.
  split; [intros e ->; reflexivity|]. split.
  - destruct (places_api env lat lon) as [data|e]; [|cbn; split; eauto].
    destruct (pd_features data) as [features|] eqn:Hf.
    + destruct (isochrone_api env lat lon) as [[|f fs]|e] eqn:Hi.
      * cbn. split; [intros [e H]; discriminate|].
        intros [[e H]|(d & poi & pois & f & fs & _ & _ & H & _)];
          discriminate.
      * cbn [fst]. destruct (iso_coordinates f) as [|ring rings] eqn:Hr.
        -- destruct features as [|poi pois].
           ++ split; [intros [e H]; discriminate|].
              intros [[e H]|(d & poi & pois & f' & fs' & [= <-] & H & _)];
                [discriminate|].
              rewrite Hf in H. discriminate.
           ++ split; [|eauto]. intros _. right.
              exists data, poi, pois, f, fs. auto.
        -- split; [intros [e H]; discriminate|].
           intros [[e H]|(d & poi & pois & f' & fs' & _ & _ & [= <- _] & H)];
             [discriminate|].
           rewrite Hr in H. discriminate.
      * cbn. split; [intros [e' H]; discriminate|].
        intros [[e' H]|(d & poi & pois & f & fs & _ & _ & H & _)];
          discriminate.
    + cbn. split; [intros [e H]; discriminate|].
      intros [[e H]|(d & poi & pois & f & fs & [= <-] & H & _)];
        [discriminate|].
      rewrite Hf in H. discriminate.
  - intros data features -> -> ->. cbn [fst]. unfold isochrone_error.
    eexists. reflexivity.
Qed.

(** X16.  Which part of the isochrone answer is used.  The filter uses
    the first ring of the first feature and nothing else: further
    features and further rings of the first feature (holes) do not
    change the result.  When that ring has fewer than two vertices, the
    result is the five empty buckets, whatever the places API found. *)
Theorem getNearbyPlaces_first_ring
        (env : Env) (lat lon : Q) (w : World) (data : ProviderData)
        (features : list POI) (f : IsoFeature) (fs : list IsoFeature)
        (ring : list point) (rings : list (list point)) :
  places_api env lat lon = Return data ->
  pd_features data = Some features ->
  isochrone_api env lat lon = Return (f :: fs) ->
  iso_coordinates f = ring :: rings ->
  fst (getNearbyPlaces env lat lon w) =
    Return (Sorted (categorize
                      (filter (fun poi => pointInPolygon (coordinates poi) ring)
                              features)
                      emptyBuckets)) /\
  ((List.length ring <= 1)%nat ->
   fst (getNearbyPlaces env lat lon w) = Return (Sorted emptyBuckets)).
Proof.
  intros Hp Hf Hi Hr. rewrite getNearbyPlaces_outcome. cbn [fst].
  unfold lookup_outcome. rewrite Hp, Hf, Hi. cbn [fst]. rewrite Hr.
  split; [reflexivity|]. intros Hs.
  rewrite filter_none; [reflexivity|].
  intros poi. now apply pointInPolygon_small.
Qed.

Lemma getNearbyPlaces_first_ring_witness :
  fst (getNearbyPlaces
         (mkEnv 0 true true true three_markets square_with_hole) 4 4
         emptyWorld) =
  Return (Sorted (mkBuckets
            [push_category (market "North" 1 3) "supermarket";
             push_category (market "South" 2 1) "supermarket"]
            [] [] [] [])).
Proof.
  exact (proj1 (getNearbyPlaces_first_ring
                  (mkEnv 0 true true true three_markets square_with_hole)
                  4 4 emptyWorld _ _ _ _ _ _
                  eq_refl eq_refl eq_refl eq_refl)).
Defined.

(** ** Keys *)

(** X17.  A request touches two keys of Redis at most: the cache key of
    its quantized coordinates and the counter of its client.  Under every
    other key, Redis gives after the request what it gave before, at
    every time. *)
Theorem request_touches_its_own_keys
        (env : Env) (req : Request) (w : World) (k : Key) :
  key_eqb (cacheKey (lat req) (lon req)) k = false ->
  key_eqb (UniqueKey (ip req)) k = false ->
  forall t,
    Redis.get t (redis (snd (nearbyPlaces env req w))) k =
    Redis.get t (redis w) k.
Proof.
  intros H1 H2 t. unfold Redis.get. f_equal.
  route_cases env req w; try finish_cases env req;
    cbn [fst snd]; rewrite ?saved_world_redis;
    cbn [log recorded after_check set_redis set_connected redis];
    rewrite ?RedisFacts.find_set_other by assumption;
    rewrite ?RedisFacts.find_cons_other by assumption;
    rewrite ?RedisFacts.find_set_other by assumption;
    reflexivity.
Qed.

Lemma request_touches_its_own_keys_witness :
  Redis.get 5000
    (redis (snd (nearbyPlaces (env_markets 5000)
                   (mkRequest "198.51.100.2" 1 1)
                   (snd (nearbyPlaces (env_markets 0)
                           (mkRequest "203.0.113.7" 4 4) emptyWorld)))))
    (UniqueKey "203.0.113.7") =
  Some (JNumber 1).
Proof.
  rewrite (request_touches_its_own_keys (env_markets 5000)
             (mkRequest "198.51.100.2" 1 1) _ (UniqueKey "203.0.113.7")
             eq_refl eq_refl).
  vm_compute. reflexivity.
Defined.

(** ** The end of a quota window *)

(** X18.  The quota comes back when the counter expires.  If the counter
    of a client lives until [E] and not longer, then no request of that
    client served at [E] or later is refused by the guard, however high
    the counter stood; and if that request misses both tiers, it starts
    a new window: the counter is created anew and lives for one hour from
    the time of the request. *)
Theorem quota_is_restored_at_expiry
        (E : Z) (env : Env) (req : Request) (w : World) :
  expires_at E w (ip req) ->
  (E <= now env)%Z ->
  denied (fst (nearbyPlaces env req w)) = false /\
  (cache_missing env req w = true ->
   expires_at (now env + hour) (snd (nearbyPlaces env req w)) (ip req)).
Proof.
  intros [n Hv] Ht.
  assert (Hc : counter (now env) w (ip req) = None).
  { rewrite Hv. replace (_ <? _)%Z with false; [reflexivity|].
    symmetry. apply Z.ltb_ge. lia. }
  destruct (cache_missing env req w) eqn:Hm.
  - destruct (lookup_creates env req w Hm Hc) as (resp & w1 & E1 & Hd & Hv1).
    rewrite E1. cbn [fst snd]. split; [exact Hd|].
    intros _. exists 1%Z. exact Hv1.
  - destruct (hit_200 env req w Hm) as (resp & -> & Hs).
    cbn. rewrite Hs. split; [reflexivity|discriminate].
Qed.

Lemma quota_is_restored_at_expiry_witness :
  map denied (fst (serve six_lookups emptyWorld)) =
    [false; false; false; false; false; true] /\
  denied (fst (nearbyPlaces (env_at 3600000) (lookup_of "203.0.113.7" 7)
                            (snd (serve six_lookups emptyWorld)))) = false.
Proof.
  split; [vm_compute; reflexivity|].
  refine (proj1 (quota_is_restored_at_expiry 3600000 (env_at 3600000)
                   (lookup_of "203.0.113.7" 7)
                   (snd (serve six_lookups emptyWorld)) _ _)).
  - apply (expiry_kept_run "203.0.113.7" 3600000 (tl six_lookups)
             (snd (nearbyPlaces (env_at 0) (lookup_of "203.0.113.7" 1)
                                emptyWorld)) 0%Z).
    + destruct (lookup_creates (env_at 0) (lookup_of "203.0.113.7" 1)
                  emptyWorld eq_refl eq_refl) as (resp & w1 & E1 & _ & Hv).
      rewrite E1. cbn [snd]. exists 1%Z. exact Hv.
    + cbn. lia.
  - cbn. lia.
Defined.

(** ** The buckets *)

Lemma categorize_cons (poi : POI) (l : list POI) (b : Buckets) :
  categorize (poi :: l) b =
  categorize l (snd (sortByCategory poi (categories poi) b)).
Proof. reflexivity. Qed.

Lemma categorize_total (l : list POI) :
  forall b,
    total (categorize l b) = (total b + List.length (filter matches l))%nat.
Proof.
  induction l as [|poi l IH]; intros b; [cbn; lia|].
  rewrite categorize_cons, IH, sortByCategory_first_match.
  unfold matches at 2. cbn [filter].
  destruct (first_match (categories poi)) as [c|].
  - rewrite place_total. cbn [List.length]. unfold matches. lia.
  - cbn [snd]. unfold matches. lia.
Qed.

Lemma label_of_injective (c c' : Category) :
  label_of c = label_of c' -> c = c'.
Proof. destruct c, c'; cbn; intros H; try reflexivity; discriminate. Qed.

Lemma bucket_origin (l : list POI) (c : Category) (poi' : POI) :
  In poi' (bucket c (categorize l emptyBuckets)) ->
  exists poi,
    In poi l /\ first_match (categories poi) = Some c /\
    poi' = push_category poi (label_of c).
Proof.
  rewrite categorize_bucket.
  replace (bucket c emptyBuckets) with (@nil POI) by now destruct c.
  cbn [app]. intros H. apply in_map_iff in H. destruct H as (poi & <- & H).
  apply filter_In in H. destruct H as [Hin H]. exists poi.
  split; [exact Hin|]. split; [|reflexivity].
  destruct (first_match (categories poi)) as [c'|]; [|discriminate].
  apply Category_eqb_eq in H. now subst.
Qed.

(** X19.  The buckets after the [forEach].  Every POI in a bucket is a
    feature that was classified, with the label of that bucket pushed as
    the last of its categories, and the rule of that bucket is the first
    one that its provider tags match.  No POI is in two buckets.  The
    buckets hold as many POIs as there are features that match a rule,
    so never more than there were features; a feature that matches no
    rule is in no bucket. *)
Theorem buckets_partition (l : list POI) :
  (forall c poi',
      In poi' (bucket c (categorize l emptyBuckets)) ->
      exists poi,
        In poi l /\ first_match (categories poi) = Some c /\
        categories poi' = (categories poi ++ [label_of c])%list /\
        coordinates poi' = coordinates poi /\ poi_name poi' = poi_name poi) /\
  (forall c c' poi',
      In poi' (bucket c (categorize l emptyBuckets)) ->
      In poi' (bucket c' (categorize l emptyBuckets)) ->
      c = c') /\
  total (categorize l emptyBuckets) = List.length (filter matches l) /\
  (total (categorize l emptyBuckets) <= List.length l)%nat.
Proof.
  split; [|split; [|split]].
  - intros c poi' H. destruct (bucket_origin l c poi' H) as (poi & H1 & H2 & ->).
    exists poi. repeat split; assumption.
  - intros c c' poi' H H'.
    destruct (bucket_origin l c poi' H) as (poi & _ & _ & E).
    destruct (bucket_origin l c' poi' H') as (poi2 & _ & _ & E').
    rewrite E in E'. unfold push_category, push in E'.
    injection E' as _ _ E'. apply app_inj_tail in E'.
    apply label_of_injective. tauto.
  - rewrite categorize_total. reflexivity.
  - rewrite categorize_total. cbn. apply filter_length_le.
Qed.

(** ** The origin check *)

Local Open Scope string_scope.

Lemma prefix_app (p s : string) : String.prefix p (p ++ s) = true.
Proof.
  induction p as [|a p IH]; [now destruct s|]. cbn.
  destruct (Ascii.ascii_dec a a); [exact IH|congruence].
Qed.

Lemma prefix_split (p r : string) :
  String.prefix p r = true -> exists s, r = p ++ s.
Proof.
  revert r. induction p as [|a p IH]; intros r H; [exists r; reflexivity|].
  destruct r as [|b r]; [discriminate|]. cbn in H.
  destruct (Ascii.ascii_dec a b) as [<-|]; [|discriminate].
  destruct (IH r H) as [s ->]. now exists s.
Qed.

Lemma append_nil_r (s : string) : s ++ "" = s.
Proof. induction s as [|a s IH]; [reflexivity|]. cbn. now rewrite IH. Qed.

Lemma allowedDomain_truthy (ALLOWED_DOMAIN : option string) (s : string) :
  truthy_string (Some (Middleware.allowedDomain ALLOWED_DOMAIN ++ s)) = true.
Proof.
  unfold Middleware.allowedDomain.
  destruct ALLOWED_DOMAIN as [[|a d]|]; reflexivity.
Qed.

(** X20.  The origin check of the first copy of the server.  The
    middleware lets a request through exactly when its path is [/], or
    its [Referer] header begins with the allowed domain, or its [Origin]
    header is the allowed domain; every other request is answered 403
    with the code [UNAUTHORIZED_DOMAIN].  The test on [Referer] is a
    prefix test: any text that continues the allowed domain passes, a
    longer host name included.  An unset or empty [ALLOWED_DOMAIN] stands
    for [https://mapsy-theta.vercel.app]. *)
Theorem origin_check (ALLOWED_DOMAIN : option string) (req : Middleware.Req) :
  (Middleware.check ALLOWED_DOMAIN req = None <->
   Middleware.path req = "/" \/
   (exists rest,
       Middleware.referer req =
       Some (Middleware.allowedDomain ALLOWED_DOMAIN ++ rest)) \/
   Middleware.origin req = Some (Middleware.allowedDomain ALLOWED_DOMAIN)) /\
  (Middleware.check ALLOWED_DOMAIN req <> None ->
   Middleware.check ALLOWED_DOMAIN req =
   Some (mkResponse 403
           (JError "Access denied. Requests must come from the authorized domain."
                   (Some "UNAUTHORIZED_DOMAIN")))) /\
  (ALLOWED_DOMAIN = None \/ ALLOWED_DOMAIN = Some "" ->
   Middleware.allowedDomain ALLOWED_DOMAIN = "https://mapsy-theta.vercel.app").
Proof.
  split; [|split].
  - unfold Middleware.check.
    pose proof (allowedDomain_truthy ALLOWED_DOMAIN) as T.
    set (allowed := Middleware.allowedDomain ALLOWED_DOMAIN) in *.
    destruct (String.eqb (Middleware.path req) "/") eqn:P.
    + apply String.eqb_eq in P. cbn. tauto.
    + apply String.eqb_neq in P. cbn [negb andb].
      destruct (Middleware.referer req) as [r|] eqn:R.
      * destruct (Middleware.startsWith r allowed) eqn:S.
        -- unfold Middleware.startsWith in S.
           destruct (prefix_split _ _ S) as [s ->].
           rewrite T. cbn. split; eauto.
        -- rewrite orb_true_r. cbn [andb].
           destruct (Middleware.origin req) as [o|] eqn:O.
           ++ destruct (String.eqb o allowed) eqn:E.
              ** apply String.eqb_eq in E. subst o.
                 specialize (T ""). rewrite append_nil_r in T.
                 rewrite T. cbn. split; auto.
              ** rewrite orb_true_r. split; [discriminate|].
                 intros [H|[[s H]|H]]; [contradiction| |].
                 --- injection H as ->. unfold Middleware.startsWith in S.
                     now rewrite prefix_app in S.
                 --- injection H as ->. now rewrite String.eqb_refl in E.
           ++ cbn. split; [discriminate|].
              intros [H|[[s H]|H]]; [contradiction| |discriminate].
              injection H as ->. unfold Middleware.startsWith in S.
              now rewrite prefix_app in S.
      * cbn [truthy_string negb orb andb].
        destruct (Middleware.origin req) as [o|] eqn:O.
        -- destruct (String.eqb o allowed) eqn:E.
           ++ apply String.eqb_eq in E. subst o.
              specialize (T ""). rewrite append_nil_r in T.
              rewrite T. cbn. split; auto.
           ++ rewrite orb_true_r. split; [discriminate|].
              intros [H|[[s H]|H]]; [contradiction|discriminate|].
              injection H as ->. now rewrite String.eqb_refl in E.
        -- cbn. split; [discriminate|].
           intros [H|[[s H]|H]]; [contradiction|discriminate|discriminate].
  - unfold Middleware.check, Middleware.access_denied.
    destruct (_ && _); [reflexivity|congruence].
  - intros [-> | ->]; reflexivity.
Qed.

(** ** The second copy of the route *)

Lemma Copy2_freshLookup_guarded (env : Env) (req : Request) :
  Copy2.freshLookup env (ip req) req =
  guarded env req (lookup_and_store env req).
Proof. reflexivity. Qed.

Lemma guarded_eq (env : Env) (req : Request) (rest : M Response) (w : World) :
  guarded env req rest w =
  match counter (now env) w (ip req) with
  | None =>
      caught (rest
        (recorded req w
           (Redis.set (now env) (redis w) (UniqueKey (ip req)) (JNumber 1)
                      (60 * 60))
           (RedisSet (UniqueKey (ip req)) (60 * 60))))
  | Some e =>
      match Redis.value e with
      | JNumber n =>
          if (n <? 5)%Z then
            caught (rest
              (recorded req w
                 (Redis.mkEntry (UniqueKey (ip req)) (JNumber (n + 1))
                                (Redis.expiry e)
                  :: Redis.remove (redis w) (UniqueKey (ip req)))
                 (RedisIncr (UniqueKey (ip req)))))
          else (Return (mkResponse 429 quota_error), log w (miss_log req))
      | _ =>
          (Return internal_error,
           log w (miss_log req ++
                  [RedisGet (UniqueKey (ip req));
                   RedisIncr (UniqueKey (ip req));
                   ConsoleError "Error:"])%list)
      end
  end.
Proof.
  unfold guarded.
  unfold try_catch, bind at 1. unfold bind at 1.
  unfold console_log, emit at 1. unfold bind at 1.
  rewrite checkUniqueRequestLimit_eq. cbn [redis].
  replace (log _ [RedisGet (UniqueKey (ip req))])
    with (log w (miss_log req))
    by (unfold log, miss_log; cbn; now rewrite <- app_assoc).
  unfold counter.
  destruct (Redis.find (now env) (redis w) (UniqueKey (ip req))) as [e|] eqn:Hc.
  - unfold Redis.get. rewrite Hc. cbn [option_map].
    destruct (Redis.value e) as [n| | |] eqn:V.
    + rewrite admits_number. destruct (n <? 5)%Z eqn:Hn; cbn [negb].
      * unfold bind at 1.
        rewrite (incrementUniqueRequestCount_live env (ip req)
                   (log w (miss_log req)) e n Hc V).
        unfold caught, recorded.
        destruct (rest _) as [[a|err] w']; [reflexivity|].
        unfold console_error, emit, bind, ret, log. cbn. reflexivity.
      * unfold ret. reflexivity.
    + cbn [admits truthy parseInt at_least_5 andb negb]. unfold bind at 1.
      unfold incrementUniqueRequestCount, redis_get. unfold bind at 1 2.
      unfold emit at 1. cbn [log redis]. unfold Redis.get. rewrite Hc.
      cbn [option_map truthy]. unfold redis_incr, bind at 1. unfold emit at 1.
      cbn [redis]. unfold at_time. cbn [now]. unfold Redis.incr.
      rewrite Hc, V.
      unfold console_error, emit, bind, ret, log, miss_log, internal_error.
      cbn. now rewrite <- !app_assoc.
    + cbn [admits truthy parseInt at_least_5 andb negb]. unfold bind at 1.
      unfold incrementUniqueRequestCount, redis_get. unfold bind at 1 2.
      unfold emit at 1. cbn [log redis]. unfold Redis.get. rewrite Hc.
      cbn [option_map truthy]. unfold redis_incr, bind at 1. unfold emit at 1.
      cbn [redis]. unfold at_time. cbn [now]. unfold Redis.incr.
      rewrite Hc, V.
      unfold console_error, emit, bind, ret, log, miss_log, internal_error.
      cbn. now rewrite <- !app_assoc.
    + cbn [admits truthy parseInt at_least_5 andb negb]. unfold bind at 1.
      unfold incrementUniqueRequestCount, redis_get. unfold bind at 1 2.
      unfold emit at 1. cbn [log redis]. unfold Redis.get. rewrite Hc.
      cbn [option_map truthy]. unfold redis_incr, bind at 1. unfold emit at 1.
      cbn [redis]. unfold at_time. cbn [now]. unfold Redis.incr.
      rewrite Hc, V.
      unfold console_error, emit, bind, ret, log, miss_log, internal_error.
      cbn. now rewrite <- !app_assoc.
  - assert (Hg : Redis.get (now env) (redis w) (UniqueKey (ip req)) = None)
      by (unfold Redis.get; now rewrite Hc).
    rewrite Hg. cbn [admits truthy andb negb]. unfold bind at 1.
    rewrite (incrementUniqueRequestCount_absent env (ip req)
               (log w (miss_log req)) Hg).
    unfold caught, recorded. cbn [redis log].
    destruct (rest _) as [[a|err] w']; [reflexivity|].
    unfold console_error, emit, bind, ret, log. cbn. reflexivity.
Qed.

Lemma lookup_and_store_eq (env : Env) (req : Request) (w : World) :
  lookup_and_store env req w = finish2 env req w.
Proof.
  unfold lookup_and_store, finish2. unfold bind at 1.
  rewrite getNearbyPlaces_outcome.
  destruct (fst (lookup_outcome env (lat req) (lon req))) as [r|e];
    [|reflexivity].
  destruct (error_of r); [reflexivity|].
  unfold_m. unfold set_redis, envelope, document. cbn.
  destruct (mongo_inserts env); cbn; now rewrite <- !app_assoc.
Qed.

(** The second copy of the route, by what the tiers answer. *)
Lemma Copy2_nearbyPlaces_eq (env : Env) (req : Request) (w : World) :
  Copy2.nearbyPlaces env (ip req) req w =
  let c := (roundCord (lat req) 3, roundCord (lon req) 3) in
  let k := cacheKey (lat req) (lon req) in
  match fast_hit env req w with
  | Some data =>
      (Return (mkResponse 200 data), log w [RedisGet k; ConsoleLog "Cache hit"])
  | None =>
      if mongo_finds env then
        match durable w (lat req) (lon req) with
        | Some d =>
            (Return (mkResponse 200 (JSaved d)),
             log (set_redis w (Redis.set (now env) (redis w) k (JSaved d)
                                         (60 * 60 * 6)))
                 [RedisGet k; MongoFindOne c; ConsoleLog "MongoDB hit";
                  RedisSet k (60 * 60 * 6)])
        | None =>
            guarded env req (lookup_and_store env req)
                    (log w [RedisGet k; MongoFindOne c])
        end
      else (Throw "MongoServerError", log w [RedisGet k; MongoFindOne c])
  end.
Proof.
  unfold Copy2.nearbyPlaces, fast_hit, durable. cbv zeta.
  unfold bind at 1. unfold redis_get, bind at 1. unfold emit at 1.
  cbn [redis].
  destruct (Redis.get _ _ _) as [data|].
  - unfold_m. cbn. now rewrite <- app_assoc.
  - unfold bind at 1. unfold findOne, bind at 1. unfold emit at 1.
    destruct (mongo_finds env).
    + cbn [savedPlaces].
      destruct (List.find _ _) as [d|].
      * unfold_m. unfold set_redis. cbn. now rewrite <- !app_assoc.
      * rewrite Copy2_freshLookup_guarded. f_equal.
        unfold log. cbn. now rewrite <- !app_assoc.
    + unfold throw, log. cbn. now rewrite <- !app_assoc.
Qed.

Lemma Copy2_nearbyPlaces_read (env : Env) (clientIp : string)
      (req : Request) :
  Copy2.nearbyPlaces env clientIp req =
  Copy2.nearbyPlaces env (ip (read_by_copy2 clientIp req))
                     (read_by_copy2 clientIp req).
Proof. reflexivity. Qed.

(** X21.  MongoDB failures in the second copy of the route, which has no
    [catch] of its own around the two MongoDB calls.  When Redis misses
    and the read of MongoDB fails, the handler ends with the exception
    without having sent an answer, and nothing is written.  When the
    insert fails after a lookup that succeeded, the outer [catch] answers
    500 with [Internal server error] although Redis already holds the
    envelope, so that the same request, sent again, is answered 200 from
    Redis.  ([clientIp] is the client address as the second copy takes
    it.) *)
Theorem second_copy_mongo_failures (env : Env) (clientIp : string)
        (req : Request) (w : World) :
  fast_hit env req w = None ->
  (mongo_finds env = false ->
   (exists e, fst (Copy2.nearbyPlaces env clientIp req w) = Throw e) /\
   redis (snd (Copy2.nearbyPlaces env clientIp req w)) = redis w /\
   savedPlaces (snd (Copy2.nearbyPlaces env clientIp req w)) = savedPlaces w) /\
  (forall r,
      mongo_finds env = true ->
      durable w (lat req) (lon req) = None ->
      counter (now env) w clientIp = None ->
      fst (getNearbyPlaces env (lat req) (lon req) w) = Return r ->
      error_of r = None ->
      mongo_inserts env = false ->
      fst (Copy2.nearbyPlaces env clientIp req w) =
        Return (mkResponse 500 (JError "Internal server error" None)) /\
      savedPlaces (snd (Copy2.nearbyPlaces env clientIp req w)) =
        savedPlaces w /\
      fst (Copy2.nearbyPlaces env clientIp req
             (snd (Copy2.nearbyPlaces env clientIp req w))) =
        Return (mkResponse 200
                  (JPlaces (mkEnvelope (lat req, lon req) clientIp r)))).
Proof.
  rewrite Copy2_nearbyPlaces_read.
  change (fast_hit env req w)
    with (fast_hit env (read_by_copy2 clientIp req) w).
  change (durable w (lat req) (lon req))
    with (durable w (lat (read_by_copy2 clientIp req))
                  (lon (read_by_copy2 clientIp req))).
  change (getNearbyPlaces env (lat req) (lon req))
    with (getNearbyPlaces env (lat (read_by_copy2 clientIp req))
                          (lon (read_by_copy2 clientIp req))).
  change (mkEnvelope (lat req, lon req) clientIp)
    with (mkEnvelope (lat (read_by_copy2 clientIp req),
                      lon (read_by_copy2 clientIp req))
                     (ip (read_by_copy2 clientIp req))).
  change (counter (now env) w clientIp)
    with (counter (now env) w (ip (read_by_copy2 clientIp req))).
  generalize (read_by_copy2 clientIp req). clear req. intros req.
  intros Hfast. rewrite Copy2_nearbyPlaces_eq, Hfast. cbv zeta. split.
  - intros ->. cbn. eauto.
  - intros r -> -> Hc Hl He Hi.
    rewrite getNearbyPlaces_outcome in Hl. cbn [fst] in Hl.
    rewrite guarded_eq. change (counter (now env) (log w _) (ip req))
      with (counter (now env) w (ip req)).
    rewrite Hc, lookup_and_store_eq. unfold finish2. rewrite Hl, He, Hi.
    cbn [caught fst snd].
    split; [reflexivity|]. split; [reflexivity|].
    rewrite Copy2_nearbyPlaces_eq. unfold fast_hit.
    cbn [log set_redis redis recorded].
    rewrite RedisFacts.get_set_same; [reflexivity|apply key_eqb_refl|lia].
Qed.

Lemma second_copy_mongo_failures_witness :
  exists e,
    fst (Copy2.nearbyPlaces
           (mkEnv 0 true false true three_markets square_isochrone)
           "203.0.113.7" (mkRequest "10.0.0.1" 4 4) emptyWorld) = Throw e.
Proof.
  exact (proj1 (proj1 (second_copy_mongo_failures
                         (mkEnv 0 true false true three_markets
                                square_isochrone)
                         "203.0.113.7" (mkRequest "10.0.0.1" 4 4)
                         emptyWorld eq_refl)
                      eq_refl)).
Defined.

(** The two copies on one reading of the request. *)
Lemma copies_agree (env : Env) (req : Request) (w : World) :
  cachedDb w = true ->
  mongo_finds env = true ->
  mongo_inserts env = true ->
  snd (Copy2.nearbyPlaces env (ip req) req w) = snd (nearbyPlaces env req w) /\
  (fst (Copy2.nearbyPlaces env (ip req) req w) = fst (nearbyPlaces env req w) \/
   exists e,
     fst (nearbyPlaces env req w) =
       Return (mkResponse 500 (JError e (Some "API_ERROR"))) /\
     fst (Copy2.nearbyPlaces env (ip req) req w) =
       Return (mkResponse 500 (JError e (Some "API_CREDITS_EXCEEDED")))).
Proof.
  intros Hdb Hf Hi.
  assert (Hr : durable_hit env req w = durable w (lat req) (lon req))
    by (unfold durable_hit, mongo_reads, connected; now rewrite Hdb, Hf).
  assert (Ha : after_check env req w =
               log w [RedisGet (cacheKey (lat req) (lon req));
                      MongoFindOne (roundCord (lat req) 3,
                                    roundCord (lon req) 3)]).
  { unfold after_check, check_events, connect_events, connected,
      set_connected. rewrite Hdb, Hf. destruct w; cbn in *. now subst. }
  rewrite Copy2_nearbyPlaces_eq, nearbyPlaces_eq, Hr, Hf. cbv zeta.
  destruct (fast_hit env req w) as [data|]; [auto|].
  destruct (durable w (lat req) (lon req)) as [d|].
  - unfold connect_events, set_connected. rewrite Hdb.
    destruct w; cbn in *; subst; auto.
  - rewrite guarded_eq, freshLookup_eq, Ha.
    set (w0 := log w _).
    assert (Hdb0 : cachedDb w0 = true) by exact Hdb.
    clearbody w0.
    assert (K : forall w1, cachedDb w1 = true ->
              snd (caught (lookup_and_store env req w1)) =
                snd (finish env req w1) /\
              (fst (caught (lookup_and_store env req w1)) =
                 fst (finish env req w1) \/
               exists e,
                 fst (finish env req w1) =
                   Return (mkResponse 500 (JError e (Some "API_ERROR"))) /\
                 fst (caught (lookup_and_store env req w1)) =
                   Return (mkResponse 500
                             (JError e (Some "API_CREDITS_EXCEEDED"))))).
    { intros w1 H1. rewrite lookup_and_store_eq. unfold finish2, finish.
      destruct (lookup_outcome env (lat req) (lon req)) as [[r|err] evs].
      - cbn [fst snd]. destruct (error_of r) as [msg|].
        + cbn. eauto.
        + rewrite Hi. cbn [caught fst snd]. split; [|auto].
          unfold saved_world, connected, connect_events.
          cbn [log set_redis cachedDb]. rewrite H1, Hi. cbn [orb].
          unfold log, envelope, document. cbn.
          now rewrite <- !app_assoc.
      - cbn [caught fst snd]. split; [|auto].
        unfold log. cbn. now rewrite <- ?app_assoc. }
    destruct (counter (now env) w0 (ip req)) as [e|];
      [destruct (Redis.value e); [destruct (_ <? _)%Z|..]|];
      auto; apply K; exact Hdb0.
Qed.

(** X22.  The two copies of the route agree while MongoDB works, for a
    request whose client address the two copies take alike
    ([requestIp.getClientIp(req)] of the second copy gives what
    [getRealClientIP(req)] gives the first).  With the connection already
    made and both MongoDB calls succeeding, the second copy then leaves
    Redis, the collection and the trace exactly as the first copy does,
    and gives the same answer, except for the code of the answer to an
    error object of the lookup: [API_ERROR] in the first copy,
    [API_CREDITS_EXCEEDED] in the second.  When the two addresses differ
    the copies do not agree: a lookup that misses both tiers is counted
    by each copy on the key of its own address and not on the other. *)
Theorem copies_agree_when_mongo_works (env : Env) (clientIp : string)
        (req : Request) (w : World) :
  cachedDb w = true ->
  mongo_finds env = true ->
  mongo_inserts env = true ->
  (clientIp = ip req ->
   snd (Copy2.nearbyPlaces env clientIp req w) = snd (nearbyPlaces env req w) /\
   (fst (Copy2.nearbyPlaces env clientIp req w) = fst (nearbyPlaces env req w) \/
    exists e,
      fst (nearbyPlaces env req w) =
        Return (mkResponse 500 (JError e (Some "API_ERROR"))) /\
      fst (Copy2.nearbyPlaces env clientIp req w) =
        Return (mkResponse 500 (JError e (Some "API_CREDITS_EXCEEDED"))))) /\
  (clientIp <> ip req ->
   cache_missing env req w = true ->
   counter (now env) w clientIp = None ->
   counter (now env) w (ip req) = None ->
   (counter (now env) (snd (Copy2.nearbyPlaces env clientIp req w)) clientIp
      <> None /\
    counter (now env) (snd (Copy2.nearbyPlaces env clientIp req w)) (ip req)
      = None) /\
   (counter (now env) (snd (nearbyPlaces env req w)) (ip req) <> None /\
    counter (now env) (snd (nearbyPlaces env req w)) clientIp = None)).
Proof.
  intros Hdb Hf Hi. split.
  - intros ->. now apply copies_agree.
  - intros Hne Hm Hc2 Hc1.
    assert (Created : forall r : Request,
               cache_missing env r w = true ->
               counter (now env) w (ip r) = None ->
               counter (now env) (snd (nearbyPlaces env r w)) (ip r) <> None).
    { intros r Hr Hc.
      destruct (lookup_creates env r w Hr Hc) as (resp & w' & E & _ & Hv).
      rewrite E. cbn [snd]. rewrite Hv.
      assert (L : (now env <? now env + 60 * 60 * 1000)%Z = true)
        by (apply Z.ltb_lt; lia).
      rewrite L. discriminate. }
    split.
    + rewrite Copy2_nearbyPlaces_read.
      rewrite (proj1 (copies_agree env (read_by_copy2 clientIp req) w
                        Hdb Hf Hi)).
      split.
      * apply (Created (read_by_copy2 clientIp req)); assumption.
      * rewrite (counter_untouched env (read_by_copy2 clientIp req) w
                   (ip req) (or_introl Hne)).
        exact Hc1.
    + split; [now apply Created|].
      rewrite (counter_untouched env req w clientIp); [exact Hc2|].
      left. congruence.
Qed.

Lemma copies_agree_when_mongo_works_witness :
  snd (Copy2.nearbyPlaces (env_markets 1000) "203.0.113.7"
         (mkRequest "203.0.113.7" 4 4)
         (snd (nearbyPlaces (env_markets 0) (mkRequest "203.0.113.7" 1 1)
                            emptyWorld))) =
  snd (nearbyPlaces (env_markets 1000) (mkRequest "203.0.113.7" 4 4)
         (snd (nearbyPlaces (env_markets 0) (mkRequest "203.0.113.7" 1 1)
                            emptyWorld))).
Proof.
  exact (proj1 (proj1 (copies_agree_when_mongo_works (env_markets 1000)
                  "203.0.113.7" (mkRequest "203.0.113.7" 4 4)
                  (snd (nearbyPlaces (env_markets 0)
                                     (mkRequest "203.0.113.7" 1 1)
                                     emptyWorld))
                  eq_refl eq_refl eq_refl) eq_refl)).
Defined.
